(** * unistore: a shallow embedding of the engine facade

    The development follows [engine/engine.go] (write batches, snapshot
    reads, flush triggering, the local id allocator, the number format of
    the debug page), the memtable bundle of the [memtable] package, the
    mock region manager (id allocation, region splits) and placement
    driver (GC safe point, timestamps) of the [tikv] package, the callback
    and the custom write batch of the raft store, and the configuration
    helper [ParseDuration].

    Conventions.
    - Go's [uint64] and [int]/[int64] are [Z] with the wrap-around written
      out ([uint64], [int64] below).
    - A slice is a [list]; indexing out of range is a runtime panic, which
      the embedding shows as [None].
    - Code that the sources call but do not contain (badger's value
      methods, the skiplist, SSTables and L0 tables, the level handler's
      search, parts of the shard, Go's runtime and standard library) is a
      parameter: a class of operations or a Section variable, so every
      statement holds for any implementation of it. *)

From Stdlib Require Import ZArith Lia Strings.Byte DecimalString.
From stdpp Require Import gmap strings list fin_maps sorting.

Open Scope Z_scope.

(** ** Machine integers *)

Definition MaxUint64 : Z := 2 ^ 64 - 1.
Definition MaxInt64 : Z := 2 ^ 63 - 1.

(** Conversion to (and arithmetic in) [uint64]: reduction modulo [2^64]. *)
Definition uint64 (z : Z) : Z := z mod 2 ^ 64.

(** Conversion to (and arithmetic in) [int64], and [int] on 64-bit targets. *)
Definition int64 (z : Z) : Z := (z + 2 ^ 63) mod 2 ^ 64 - 2 ^ 63.

Lemma uint64_small z : 0 <= z <= MaxUint64 -> uint64 z = z.
Proof. unfold uint64, MaxUint64. intros. apply Z.mod_small. lia. Qed.

Lemma int64_small z : - 2 ^ 63 <= z <= MaxInt64 -> int64 z = z.
Proof.
  unfold int64, MaxInt64. intros. rewrite Z.mod_small by lia. lia.
Qed.

(** Go's [l[i]] for an [int] index: a negative or too large index panics. *)
Definition index {A} (l : list A) (i : Z) : option A :=
  if i <? 0 then None else l !! Z.to_nat i.

(** Go's [l[i] = x], used where the index is known to be in range. *)
Definition store {A} (l : list A) (i : Z) (x : A) : list A :=
  <[Z.to_nat i := x]> l.

Definition bytes : Type := list byte.

(** ** Making a slice

    Go's [make([]T, len, cap)] for elements of [size] bytes, as
    [runtime.makeslice] decides it: the call panics when the length is
    negative or above the capacity, and when the size of the capacity in
    bytes overflows a [uintptr] or is above [maxAlloc], the most the
    runtime allocates. The runtime is not in the sources, and [maxAlloc]
    depends on the target and on the memory at hand: it is a parameter
    wherever the code makes a slice of a length its caller gives.
    [makeslice] tells whether the call returns. *)
Definition makeslice (maxAlloc size len cap : Z) : bool :=
  (0 <=? len) && (len <=? cap)
  && (size * cap <=? MaxUint64) && (size * cap <=? maxAlloc).

(** [maxAlloc] of the Go runtime on amd64 and arm64 ([1 << heapAddrBits]
    with 48 address bits), for the examples. *)
Definition maxAlloc64 : Z := 2 ^ 48.

Lemma makeslice_true maxAlloc size len cap :
  makeslice maxAlloc size len cap = true
  <-> 0 <= len <= cap /\ size * cap <= MaxUint64 /\ size * cap <= maxAlloc.
Proof.
  unfold makeslice. rewrite !andb_true_iff, !Z.leb_le. tauto.
Qed.

(** The errors of [engine.go]: the package-level sentinels and the ones
    built by [fmt.Errorf]. *)
Inductive error : Type :=
| ErrKeyNotFound
| ErrShardNotFound
| ErrShardNotMatch
| ErrPreSplitWrongStage
| ErrSplitFilesWrongStage
| ErrFinishSplitWrongStage
| Errorf (msg : string).

(** * Id allocation *)

Module IDAlloc.

Section Make.

(** The runtime's allocation limit, for the slice [AllocIDs] makes. *)
Variable maxAlloc : Z.

(** [type localIDAllocator struct { latest uint64 }] *)
Record localIDAllocator : Type := { latest : Z }.

(** [AllocID]: [atomic.AddUint64(&l.latest, uint64(count))], the new value
    of the counter; the error is always [nil]. *)
Definition AllocID (l : localIDAllocator) (count : Z)
  : (Z * option error) * localIDAllocator :=
  let v := uint64 (latest l + uint64 count) in
  ((v, None), {| latest := v |}).

(** The region manager of the mock cluster; [id] is the only field the
    allocation reads or writes. [NewMockRegionManager] starts it at 1. *)
Record MockRegionManager : Type := { id : Z }.

(** [AllocID() uint64]: [atomic.AddUint64(&rm.id, 1)]. *)
Definition AllocID1 (rm : MockRegionManager) : Z * MockRegionManager :=
  let v := uint64 (id rm + 1) in (v, {| id := v |}).

(** [AllocIDs(n int) []uint64]. [make([]uint64, n)] panics on a negative
    length and on one the runtime makes no slice for (8 bytes an id); the
    counter has been advanced by then, which a caller that does not
    recover from the panic cannot see. *)
Definition AllocIDs (rm : MockRegionManager) (n : Z)
  : option (list Z * MockRegionManager) :=
  let max := uint64 (id rm + uint64 n) in
  if negb (makeslice maxAlloc 8 n n) then None
  else
    let base := uint64 (max - uint64 (n - 1)) in
    Some ((fun i => uint64 (base + uint64 i)) <$> seqZ 0 n, {| id := max |}).

(** A sequence of calls [AllocID(count_1)], [AllocID(count_2)], ... on one
    allocator: the ids returned, in call order. *)
Fixpoint AllocID_calls (l : localIDAllocator) (counts : list Z) : list Z :=
  match counts with
  | [] => []
  | c :: cs => let '((v, _), l') := AllocID l c in v :: AllocID_calls l' cs
  end.

(** A sequence of calls [AllocIDs(n_1)], [AllocIDs(n_2)], ...: the runs
    returned, in call order. *)
Fixpoint AllocIDs_calls (rm : MockRegionManager) (counts : list Z)
  : option (list (list Z)) :=
  match counts with
  | [] => Some []
  | c :: cs =>
      match AllocIDs rm c with
      | None => None
      | Some (ids, rm') =>
          match AllocIDs_calls rm' cs with
          | None => None
          | Some runs => Some (ids :: runs)
          end
      end
  end.

(** The run that a call returning [ret] for [count] stands for: the [count]
    ids ending at [ret], as [AllocIDs] lays them out ([base = max - (n-1)],
    then [base + i]). Membership is decided by arithmetic, so that runs of
    any length can be compared. *)
Definition in_run (ret count x : Z) : bool :=
  (0 <=? x) && (x <=? MaxUint64) && (uint64 (ret - x) <? count).

Definition sumZ (l : list Z) : Z := foldr Z.add 0 l.


(** The ids a call sequence returns when nothing wraps: the running sums. *)
Fixpoint running_sums (start : Z) (counts : list Z) : list Z :=
  match counts with
  | [] => []
  | c :: cs => (start + c) :: running_sums (start + c) cs
  end.

(** The runs a call sequence on the region manager returns when nothing
    wraps: consecutive blocks of consecutive ids. *)
Fixpoint consecutive_runs (start : Z) (counts : list Z) : list (list Z) :=
  match counts with
  | [] => []
  | c :: cs => seqZ (start + 1) c :: consecutive_runs (start + c) cs
  end.

(** The property as the specification words it, for one call sequence on the
    local allocator: returned ids strictly increasing, and no id in the runs
    of two different calls. *)
Definition ids_never_repeat (start : Z) (counts : list Z) : Prop :=
  let rets := AllocID_calls {| latest := start |} counts in
  StronglySorted Z.lt rets
  /\ forall i j ri rj ci cj x,
       (i < j)%nat ->
       rets !! i = Some ri -> rets !! j = Some rj ->
       counts !! i = Some ci -> counts !! j = Some cj ->
       in_run ri ci x = true -> in_run rj cj x = false.

Lemma sumZ_nonneg counts : Forall (fun c => 0 < c) counts -> 0 <= sumZ counts.
Proof. induction 1; simpl; lia. Qed.

Lemma AllocID_no_wrap start c :
  0 <= start -> 0 < c -> start + c <= MaxUint64 ->
  AllocID {| latest := start |} c = ((start + c, None), {| latest := start + c |}).
Proof.
  intros Hs Hc Hm. unfold AllocID; simpl.
  rewrite (uint64_small c) by lia. rewrite uint64_small by lia. reflexivity.
Qed.

Lemma AllocID_calls_no_wrap counts : forall start,
  0 <= start -> Forall (fun c => 0 < c) counts ->
  start + sumZ counts <= MaxUint64 ->
  AllocID_calls {| latest := start |} counts = running_sums start counts.
Proof.
  induction counts as [|c cs IH]; intros start Hs Hpos Hmax; [reflexivity|].
  inversion Hpos as [|? ? Hc Hcs]; subst. simpl in Hmax.
  pose proof (sumZ_nonneg cs Hcs) as Hnn.
  cbn [AllocID_calls]. rewrite AllocID_no_wrap by lia.
  cbn [running_sums]. f_equal. apply IH; [lia | assumption | lia].
Qed.

Lemma running_sums_bounds counts : forall start,
  Forall (fun c => 0 < c) counts ->
  Forall (fun v => start < v <= start + sumZ counts) (running_sums start counts).
Proof.
  induction counts as [|c cs IH]; intros start Hpos; [constructor|].
  inversion Hpos as [|? ? Hc Hcs]; subst. simpl.
  pose proof (sumZ_nonneg cs Hcs). constructor; [lia|].
  eapply Forall_impl; [apply IH; assumption|]. simpl. intros; lia.
Qed.

Lemma running_sums_sorted counts : forall start,
  Forall (fun c => 0 < c) counts ->
  StronglySorted Z.lt (running_sums start counts).
Proof.
  induction counts as [|c cs IH]; intros start Hpos; [constructor|].
  inversion Hpos as [|? ? Hc Hcs]; subst. simpl.
  constructor; [apply IH; assumption|].
  eapply Forall_impl; [apply running_sums_bounds; assumption|].
  simpl. intros; lia.
Qed.

(** Without wrap-around a run is the half-open interval [(ret - count, ret]]. *)
Lemma in_run_interval ret count x :
  0 < count -> count <= ret -> ret <= MaxUint64 ->
  in_run ret count x = true <-> ret - count < x <= ret.
Proof.
  intros Hc Hr Hm. unfold in_run, uint64, MaxUint64 in *.
  rewrite !andb_true_iff, !Z.leb_le, Z.ltb_lt. split.
  - intros [[H0 H1] H2].
    destruct (Z_le_gt_dec x ret) as [Hle|Hgt].
    + rewrite Z.mod_small in H2 by lia. lia.
    + exfalso.
      assert (Heq : (ret - x) mod 2 ^ 64 = ret - x + 2 ^ 64).
      { symmetry. apply (Z.mod_unique_pos _ _ (-1)); lia. }
      lia.
  - intros [H1 H2]. rewrite Z.mod_small by lia. lia.
Qed.

(** The ids [AllocIDs] returns are exactly the run of its last id, whether
    or not the counter wraps during the call. *)
Lemma AllocIDs_in_run rm n ids rm' x :
  0 <= id rm <= MaxUint64 -> 0 < n <= MaxUint64 ->
  AllocIDs rm n = Some (ids, rm') ->
  x ∈ ids <-> in_run (id rm') n x = true.
Proof.
  intros Hid Hn. unfold AllocIDs.
  destruct (makeslice maxAlloc 8 n n); cbn [negb]; [|discriminate].
  intros Heq. injection Heq as <- <-. cbn [id].
  unfold in_run. rewrite !andb_true_iff, !Z.leb_le, Z.ltb_lt.
  rewrite list_elem_of_fmap. setoid_rewrite elem_of_seqZ.
  unfold uint64, MaxUint64 in *.
  change (2 ^ 64) with 18446744073709551616 in *.
  split.
  - intros (i & -> & Hi). Z.div_mod_to_equations. lia.
  - intros [[Hx0 Hx1] Hlt].
    set (max := (id rm + n mod 18446744073709551616)
                mod 18446744073709551616) in *.
    exists (n - 1 - (max - x) mod 18446744073709551616).
    subst max. Z.div_mod_to_equations. lia.
Qed.

(** In [running_sums] the i-th return and count bound the i-th run, and the
    runs of two calls are separated. *)
Lemma running_sums_lookup counts : forall start i ri ci,
  Forall (fun c => 0 < c) counts ->
  running_sums start counts !! i = Some ri -> counts !! i = Some ci ->
  start <= ri - ci /\ ri <= start + sumZ counts /\ 0 < ci
  /\ forall j rj cj, (i < j)%nat ->
       running_sums start counts !! j = Some rj -> counts !! j = Some cj ->
       ri <= rj - cj.
Proof.
  induction counts as [|c cs IH]; intros start i ri ci Hpos Hr Hc; [done|].
  inversion Hpos as [|? ? Hc0 Hcs]; subst.
  pose proof (sumZ_nonneg cs Hcs) as Hnn.
  destruct i as [|i]; simpl in *.
  - inversion Hr; inversion Hc; subst. repeat split; try lia.
    intros [|j] rj cj Hij Hrj Hcj; [lia|]. simpl in *.
    destruct (IH (start + ci) j rj cj Hcs Hrj Hcj) as (? & _). lia.
  - destruct (IH (start + c) i ri ci Hcs Hr Hc) as (H1 & H2 & H3 & H4).
    repeat split; try lia.
    intros [|j] rj cj Hij Hrj Hcj; [lia|]. simpl in *.
    apply (H4 j rj cj); [lia | assumption | assumption].
Qed.

Lemma AllocIDs_no_wrap start c :
  0 <= start -> 0 < c -> start + c <= MaxUint64 ->
  makeslice maxAlloc 8 c c = true ->
  AllocIDs {| id := start |} c = Some (seqZ (start + 1) c, {| id := start + c |}).
Proof.
  intros Hs Hc Hm Hmake. unfold AllocIDs; simpl. rewrite Hmake. cbn [negb].
  rewrite (uint64_small c) by lia.
  rewrite (uint64_small (start + c)) by lia.
  rewrite (uint64_small (c - 1)) by lia.
  replace (start + c - (c - 1)) with (start + 1) by lia.
  rewrite (uint64_small (start + 1)) by lia.
  f_equal. f_equal.
  replace (seqZ (start + 1) c) with (Z.add (start + 1) <$> seqZ 0 c)
    by (rewrite fmap_add_seqZ; f_equal; lia).
  apply list_fmap_ext. intros i x Hx.
  apply lookup_seqZ in Hx as [-> Hlt].
  rewrite (uint64_small (0 + _)) by lia. apply uint64_small; lia.
Qed.


Lemma AllocIDs_calls_no_wrap counts : forall start,
  0 <= start -> Forall (fun c => 0 < c) counts ->
  start + sumZ counts <= MaxUint64 ->
  Forall (fun c => makeslice maxAlloc 8 c c = true) counts ->
  AllocIDs_calls {| id := start |} counts = Some (consecutive_runs start counts).
Proof.
  induction counts as [|c cs IH]; intros start Hs Hpos Hmax Hmake;
    [reflexivity|].
  inversion Hpos as [|? ? Hc Hcs]; subst. simpl in Hmax.
  inversion Hmake as [|? ? Hmc Hmcs]; subst.
  pose proof (sumZ_nonneg cs Hcs) as Hnn.
  cbn [AllocIDs_calls]. rewrite AllocIDs_no_wrap by (assumption || lia).
  rewrite IH by (assumption || lia). reflexivity.
Qed.

(** A call for a run that the runtime makes no slice for panics, and so
    does the sequence it is part of. *)
Lemma AllocIDs_calls_panic counts : forall rm,
  Exists (fun c => makeslice maxAlloc 8 c c = false) counts ->
  AllocIDs_calls rm counts = None.
Proof.
  induction counts as [|c cs IH]; intros rm Hex; [inversion Hex|].
  cbn [AllocIDs_calls]. unfold AllocIDs at 1.
  destruct (makeslice maxAlloc 8 c c) eqn:Hmake; cbn [negb]; [|reflexivity].
  apply Exists_cons in Hex as [Hc | Hcs]; [congruence|].
  rewrite (IH _ Hcs). reflexivity.
Qed.

Lemma concat_consecutive_runs counts : forall start,
  Forall (fun c => 0 < c) counts ->
  concat (consecutive_runs start counts) = seqZ (start + 1) (sumZ counts).
Proof.
  induction counts as [|c cs IH]; intros start Hpos; [reflexivity|].
  inversion Hpos as [|? ? Hc Hcs]; subst. simpl.
  pose proof (sumZ_nonneg cs Hcs) as Hnn.
  rewrite IH by assumption. rewrite seqZ_app by lia.
  do 2 f_equal. lia.
Qed.

Lemma seqZ_strictly_increasing m n : StronglySorted Z.lt (seqZ m n).
Proof.
  remember (Z.to_nat n) as k eqn:Hk. revert m n Hk.
  induction k as [|k IH]; intros m n Hk.
  - rewrite seqZ_nil by lia. constructor.
  - rewrite seqZ_cons by lia. constructor; [apply IH; lia|].
    apply Forall_seqZ. intros; lia.
Qed.

Lemma consecutive_runs_shape counts : forall start,
  Forall (fun c => 0 < c) counts ->
  Forall2 (fun run c => Z.of_nat (length run) = c)
          (consecutive_runs start counts) counts
  /\ Forall2 (fun run ret => last run = Some ret)
             (consecutive_runs start counts) (running_sums start counts).
Proof.
  induction counts as [|c cs IH]; intros start Hpos; [split; constructor|].
  inversion Hpos as [|? ? Hc Hcs]; subst. simpl.
  destruct (IH (start + c) Hcs) as [IH1 IH2].
  split; constructor; try assumption.
  - rewrite length_seqZ. lia.
  - rewrite last_lookup, length_seqZ.
    rewrite lookup_seqZ_lt by lia. f_equal. lia.
Qed.

(** C7 (amended): for every sequence of allocation calls with positive
    counts that does not carry the 64-bit counter past [MaxUint64], the ids
    returned by [AllocID] are strictly increasing and the runs of two calls
    share no id. On the region manager, when every count is a length that
    the runtime makes a slice of ids for, [AllocIDs] returns runs of the
    asked lengths, each ending at the id [AllocID] returns, whose
    concatenation is the block of consecutive ids after the start:
    strictly increasing, hence without any repeated id; and when some
    count is not such a length, the sequence of [AllocIDs] calls panics. *)
Theorem alloc_ids_unique_until_wrap (start : Z) (counts : list Z) :
  0 <= start ->
  Forall (fun c => 0 < c) counts ->
  start + sumZ counts <= MaxUint64 ->
  ids_never_repeat start counts
  /\ (Forall (fun c => makeslice maxAlloc 8 c c = true) counts ->
      exists runs,
        AllocIDs_calls {| id := start |} counts = Some runs
        /\ Forall2 (fun run c => Z.of_nat (length run) = c) runs counts
        /\ Forall2 (fun run ret => last run = Some ret) runs
                   (AllocID_calls {| latest := start |} counts)
        /\ concat runs = seqZ (start + 1) (sumZ counts)
        /\ StronglySorted Z.lt (concat runs)
        /\ NoDup (concat runs))
  /\ (Exists (fun c => makeslice maxAlloc 8 c c = false) counts ->
      AllocIDs_calls {| id := start |} counts = None).
Proof.
  intros Hs Hpos Hmax.
  unfold ids_never_repeat. cbv zeta.
  rewrite AllocID_calls_no_wrap by assumption.
  split; [split|split]; [| |intros Hmake|apply AllocIDs_calls_panic].
  - apply running_sums_sorted; assumption.
  - intros i j ri rj ci cj x Hij Hri Hrj Hci Hcj Hin.
    destruct (running_sums_lookup counts start i ri ci Hpos Hri Hci)
      as (Hi1 & Hi2 & Hi3 & Hsep).
    destruct (running_sums_lookup counts start j rj cj Hpos Hrj Hcj)
      as (Hj1 & Hj2 & Hj3 & _).
    specialize (Hsep j rj cj Hij Hrj Hcj).
    apply in_run_interval in Hin; [|lia..].
    apply not_true_is_false. intros Hin'.
    apply in_run_interval in Hin'; lia.
  - exists (consecutive_runs start counts).
    destruct (consecutive_runs_shape counts start Hpos) as [Hlen Hlast].
    rewrite concat_consecutive_runs by assumption.
    repeat split; try assumption.
    + apply AllocIDs_calls_no_wrap; assumption.
    + apply seqZ_strictly_increasing.
    + apply NoDup_seqZ.
Qed.

End Make.

(** The theorem at work: from id 1, calls for 3, 2 and 4 ids. *)
Lemma alloc_ids_unique_witness :
  ids_never_repeat 1 [3; 2; 4]
  /\ Forall (fun c => makeslice maxAlloc64 8 c c = true) [3; 2; 4]
  /\ exists runs,
       AllocIDs_calls maxAlloc64 {| id := 1 |} [3; 2; 4] = Some runs
       /\ Forall2 (fun run c => Z.of_nat (length run) = c) runs [3; 2; 4]
       /\ Forall2 (fun run ret => last run = Some ret) runs
                  (AllocID_calls {| latest := 1 |} [3; 2; 4])
       /\ concat runs = seqZ (1 + 1) (sumZ [3; 2; 4])
       /\ StronglySorted Z.lt (concat runs)
       /\ NoDup (concat runs).
Proof.
  assert (Hstart : 0 <= 1) by lia.
  assert (Hpos : Forall (fun c => 0 < c) [3; 2; 4])
    by (repeat constructor).
  assert (Hmax : 1 + sumZ [3; 2; 4] <= MaxUint64)
    by (vm_compute; discriminate).
  assert (Hmake : Forall (fun c => makeslice maxAlloc64 8 c c = true)
                         [3; 2; 4])
    by (repeat constructor).
  destruct (alloc_ids_unique_until_wrap maxAlloc64 1 [3; 2; 4]
              Hstart Hpos Hmax) as (Hids & Hruns & _).
  split; [exact Hids|]. split; [exact Hmake|]. exact (Hruns Hmake).
Defined.

Example AllocIDs_calls_sample :
  AllocIDs_calls maxAlloc64 {| id := 1 |} [3; 2; 4]
  = Some [[2; 3; 4]; [5; 6]; [7; 8; 9; 10]].
Proof. reflexivity. Qed.

(** A run of [2^62] ids is more than a slice holds: the call panics. *)
Example AllocIDs_too_long :
  AllocIDs maxAlloc64 {| id := 1 |} (2 ^ 62) = None
  /\ AllocIDs MaxUint64 {| id := 1 |} (2 ^ 62) = None
  /\ AllocIDs_calls maxAlloc64 {| id := 1 |} [3; 2 ^ 62] = None
  /\ AllocIDs maxAlloc64 {| id := 1 |} (-1) = None.
Proof. split_and!; vm_compute; reflexivity. Qed.

Example AllocID_calls_sample :
  AllocID_calls {| latest := 1 |} [3; 2; 4] = [4; 6; 10].
Proof. reflexivity. Qed.

(** C7 as stated fails once the counter wraps: three calls, each with a
    count that fits Go's [int], bring the counter past [MaxUint64]; the
    third call returns 1, below both earlier results, and its run
    [{2^64-1, 0, 1}] shares the id 1 with the run of the first call. *)
Lemma alloc_ids_repeat_after_wrap :
  Forall (fun c => 0 < c <= MaxInt64) [MaxInt64; MaxInt64; 3]
  /\ AllocID_calls {| latest := 0 |} [MaxInt64; MaxInt64; 3]
     = [9223372036854775807; 18446744073709551614; 1]
  /\ ~ StronglySorted Z.lt (AllocID_calls {| latest := 0 |}
                                          [MaxInt64; MaxInt64; 3])
  /\ in_run 9223372036854775807 MaxInt64 1 = true
  /\ in_run 1 3 1 = true
  /\ ~ ids_never_repeat 0 [MaxInt64; MaxInt64; 3].
Proof.
  split; [repeat constructor; vm_compute; congruence|].
  split; [reflexivity|].
  split.
  { intros Hsorted. apply StronglySorted_cons in Hsorted as [Hlt _].
    apply Forall_cons in Hlt as [_ Hlt]. apply Forall_cons in Hlt as [Hlt _].
    vm_compute in Hlt. discriminate. }
  split; [reflexivity|]. split; [reflexivity|].
  intros [_ Hdisj].
  specialize (Hdisj 0%nat 2%nat 9223372036854775807 1 MaxInt64 3 1).
  assert (Hf : in_run 1 3 1 = false).
  { apply Hdisj; (lia || reflexivity). }
  vm_compute in Hf. discriminate.
Qed.

(** ** One id at a time, and a run at once *)

(** [n] successive calls of [AllocID()] on the region manager: the ids
    returned, in call order, and the manager after them. *)
Fixpoint AllocID1_calls (rm : MockRegionManager) (n : nat)
  : list Z * MockRegionManager :=
  match n with
  | O => ([], rm)
  | S n' =>
      let '(v, rm1) := AllocID1 rm in
      let '(vs, rm2) := AllocID1_calls rm1 n' in
      (v :: vs, rm2)
  end.

Lemma uint64_add_l a b : uint64 (uint64 a + b) = uint64 (a + b).
Proof. unfold uint64. apply Zplus_mod_idemp_l. Qed.

Lemma uint64_add_r a b : uint64 (a + uint64 b) = uint64 (a + b).
Proof. unfold uint64. apply Zplus_mod_idemp_r. Qed.

Lemma uint64_sub_l a b : uint64 (uint64 a - b) = uint64 (a - b).
Proof. unfold uint64. apply Zminus_mod_idemp_l. Qed.

Lemma uint64_sub_r a b : uint64 (a - uint64 b) = uint64 (a - b).
Proof. unfold uint64. apply Zminus_mod_idemp_r. Qed.

Lemma AllocID1_calls_ids n : forall rm,
  AllocID1_calls rm n
  = ((fun i => uint64 (id rm + 1 + i)) <$> seqZ 0 (Z.of_nat n),
     {| id := if n is O then id rm else uint64 (id rm + Z.of_nat n) |}).
Proof.
  induction n as [|n IH]; intros rm.
  - destruct rm. reflexivity.
  - cbn [AllocID1_calls AllocID1]. rewrite IH. cbn [id].
    rewrite (seqZ_cons 0 (Z.of_nat (S n))) by lia.
    rewrite fmap_cons, Z.add_0_r. f_equal.
    + f_equal.
      replace (Z.pred (Z.of_nat (S n))) with (Z.of_nat n) by lia.
      rewrite <- (fmap_add_seqZ 1 0), <- list_fmap_compose.
      apply list_fmap_ext. intros i x _. simpl.
      rewrite <- Z.add_assoc, uint64_add_l. f_equal.
    + f_equal. destruct n as [|n]; [f_equal; lia|].
      rewrite uint64_add_l. f_equal. lia.
Qed.

(** X1: asking the region manager for [n] ids at once, for an [n] that the
    runtime makes a slice of ids for, gives exactly the ids that [n] calls
    for one id give, in the same order, and leaves the counter where they
    leave it, whether or not the counter wraps; for any other [n] the call
    panics. *)
Theorem AllocIDs_is_repeated_AllocID (maxAlloc : Z) (rm : MockRegionManager)
    (n : nat)
  (Hint : Z.of_nat n <= MaxInt64) :
  AllocIDs maxAlloc rm (Z.of_nat n)
  = if makeslice maxAlloc 8 (Z.of_nat n) (Z.of_nat n)
    then Some ((AllocID1_calls rm n).1,
               {| id := uint64 (id (AllocID1_calls rm n).2) |})
    else None.
Proof.
  rewrite AllocID1_calls_ids. cbn [fst snd id]. unfold AllocIDs.
  destruct (makeslice maxAlloc 8 (Z.of_nat n) (Z.of_nat n)); cbn [negb];
    [|reflexivity].
  f_equal. f_equal.
  - apply list_fmap_ext. intros i x Hx. apply lookup_seqZ in Hx as [-> Hlt].
    unfold uint64. Z.div_mod_to_equations. lia.
  - f_equal. rewrite uint64_add_r. destruct n as [|n].
    + simpl. rewrite Z.add_0_r. reflexivity.
    + unfold uint64. rewrite Zmod_mod. reflexivity.
Qed.

(** Four ids at once and one at a time, from the counter's last value
    before it wraps. *)
Lemma AllocIDs_is_repeated_AllocID_witness :
  Z.of_nat 4 <= MaxInt64
  /\ makeslice maxAlloc64 8 (Z.of_nat 4) (Z.of_nat 4) = true
  /\ AllocIDs maxAlloc64 {| id := MaxUint64 - 1 |} (Z.of_nat 4)
     = if makeslice maxAlloc64 8 (Z.of_nat 4) (Z.of_nat 4)
       then Some ((AllocID1_calls {| id := MaxUint64 - 1 |} 4).1,
                  {| id := uint64 (id (AllocID1_calls
                                         {| id := MaxUint64 - 1 |} 4).2) |})
       else None.
Proof.
  assert (Hint : Z.of_nat 4 <= MaxInt64) by (vm_compute; discriminate).
  split; [exact Hint|]. split; [reflexivity|].
  exact (AllocIDs_is_repeated_AllocID maxAlloc64 {| id := MaxUint64 - 1 |} 4
           Hint).
Defined.

Example AllocIDs_across_wrap :
  AllocIDs maxAlloc64 {| id := MaxUint64 - 1 |} 4
  = Some ([MaxUint64; 0; 1; 2], {| id := 2 |})
  /\ AllocID1_calls {| id := MaxUint64 - 1 |} 4
     = ([MaxUint64; 0; 1; 2], {| id := 2 |}).
Proof. split_and!; vm_compute; reflexivity. Qed.

End IDAlloc.

(** * The mock placement driver: safe point and timestamps *)

Module MockPD.

(** [MockPD]: the region manager it wraps and the GC safe point. *)
Record MockPD := {
  rm : IDAlloc.MockRegionManager;
  gcSafePoint : Z;
}.

(** [NewMockPD(rm)]: the safe point starts at Go's zero value. *)
Definition NewMockPD (r : IDAlloc.MockRegionManager) : MockPD :=
  {| rm := r; gcSafePoint := 0 |}.

(** [pd.AllocID(ctx)]: the region manager's next id, and never an error. *)
Definition AllocID (pd : MockPD) : (Z * option error) * MockPD :=
  let '(v, r) := IDAlloc.AllocID1 (rm pd) in
  ((v, None), {| rm := r; gcSafePoint := gcSafePoint pd |}).

(** [pd.GetGCSafePoint(ctx)]. *)
Definition GetGCSafePoint (pd : MockPD) : Z * option error :=
  (gcSafePoint pd, None).

(** [atomic.CompareAndSwapUint64(&cell, old, new)] on the value of the
    cell: whether it swapped, and the cell afterwards. *)
Definition CompareAndSwapUint64 (cell old new : Z) : bool * Z :=
  if cell =? old then (true, new) else (false, cell).

(** [pd.UpdateGCSafePoint(ctx, safePoint)], run without a concurrent
    writer: the loop loads the safe point, returns it when the proposed one
    is not larger, and otherwise swaps the proposed one in; a failed swap
    starts the loop again, which the fuel bounds. *)
Fixpoint UpdateGCSafePoint_loop (fuel : nat) (pd : MockPD) (safePoint : Z)
  : option ((Z * option error) * MockPD) :=
  match fuel with
  | O => None
  | S fuel' =>
      let old := gcSafePoint pd in
      if safePoint <=? old then Some ((old, None), pd)
      else
        let '(swapped, cell) :=
          CompareAndSwapUint64 (gcSafePoint pd) old safePoint in
        let pd' := {| rm := rm pd; gcSafePoint := cell |} in
        if swapped then Some ((safePoint, None), pd')
        else UpdateGCSafePoint_loop fuel' pd' safePoint
  end.

Definition UpdateGCSafePoint (pd : MockPD) (safePoint : Z)
  : option ((Z * option error) * MockPD) :=
  UpdateGCSafePoint_loop 1 pd safePoint.

(** A sequence of [UpdateGCSafePoint] calls: the values returned, in call
    order, and the driver after them. *)
Fixpoint UpdateGCSafePoint_calls (pd : MockPD) (safePoints : list Z)
  : option (list Z * MockPD) :=
  match safePoints with
  | [] => Some ([], pd)
  | sp :: sps =>
      '((v, _), pd1) ← UpdateGCSafePoint pd sp;
      '(vs, pd2) ← UpdateGCSafePoint_calls pd1 sps;
      Some (v :: vs, pd2)
  end.

(** The package variable [tsMu]: the last physical and logical time. *)
Record tsState := {
  physicalTS : Z;
  logicalTS : Z;
}.

(** Go's zero value of [tsMu]. *)
Definition tsMu0 : tsState := {| physicalTS := 0; logicalTS := 0 |}.

(** [time.Millisecond], in nanoseconds. *)
Definition Millisecond : Z := 1000000.

(** [GetTS()], given what [time.Now().UnixNano()] reads at the call. *)
Definition GetTS (tsMu : tsState) (unixNano : Z) : (Z * Z) * tsState :=
  let ts := int64 (unixNano ÷ int64 Millisecond) in
  let tsMu' :=
    if physicalTS tsMu >=? ts
    then {| physicalTS := physicalTS tsMu;
            logicalTS := int64 (logicalTS tsMu + 1) |}
    else {| physicalTS := ts; logicalTS := 0 |} in
  ((physicalTS tsMu', logicalTS tsMu'), tsMu').

(** A sequence of [GetTS] calls, one per clock reading. *)
Fixpoint GetTS_calls (tsMu : tsState) (clock : list Z) : list (Z * Z) :=
  match clock with
  | [] => []
  | now :: rest =>
      let '(t, tsMu') := GetTS tsMu now in t :: GetTS_calls tsMu' rest
  end.

(** Timestamps compare by physical time first and logical time second. *)
Definition ts_lt (a b : Z * Z) : Prop :=
  a.1 < b.1 \/ (a.1 = b.1 /\ a.2 < b.2).

(** The largest of a start value and a list. *)
Definition max_of (z : Z) (l : list Z) : Z := foldl Z.max z l.

Lemma max_of_ge z l : z <= max_of z l.
Proof.
  unfold max_of. revert z.
  induction l as [|x l IH]; intros z; cbn [foldl]; [lia|].
  specialize (IH (Z.max z x)). lia.
Qed.

Lemma UpdateGCSafePoint_max pd sp :
  UpdateGCSafePoint pd sp
  = Some ((Z.max (gcSafePoint pd) sp, None),
          {| rm := rm pd; gcSafePoint := Z.max (gcSafePoint pd) sp |}).
Proof.
  unfold UpdateGCSafePoint, UpdateGCSafePoint_loop, CompareAndSwapUint64.
  destruct (Z.leb_spec sp (gcSafePoint pd)).
  - rewrite Z.max_l by lia. destruct pd. reflexivity.
  - rewrite Z.eqb_refl, Z.max_r by lia. reflexivity.
Qed.

(** X2: the GC safe point never moves backwards.  After any sequence of
    updates the stored safe point is the largest of the initial one and
    all those proposed; every call returns the value stored when it
    returns, which is at least the one proposed, and the returned values
    never decrease. *)
Theorem UpdateGCSafePoint_keeps_largest (pd : MockPD) (safePoints : list Z) :
  exists rets pd',
    UpdateGCSafePoint_calls pd safePoints = Some (rets, pd')
    /\ gcSafePoint pd' = max_of (gcSafePoint pd) safePoints
    /\ rm pd' = rm pd
    /\ Forall2 Z.le safePoints rets
    /\ Sorted Z.le (gcSafePoint pd :: rets)
    /\ last (gcSafePoint pd :: rets) = Some (gcSafePoint pd').
Proof.
  revert pd. induction safePoints as [|sp sps IH]; intros pd.
  - exists [], pd. repeat split; auto.
  - cbn [UpdateGCSafePoint_calls]. rewrite UpdateGCSafePoint_max.
    destruct (IH {| rm := rm pd; gcSafePoint := Z.max (gcSafePoint pd) sp |})
      as (rets & pd' & Hcalls & Hmax & Hrm & Hle & Hsorted & Hlast).
    cbn [mbind option_bind]. rewrite Hcalls. cbn [mbind option_bind].
    cbn [gcSafePoint rm] in *.
    exists (Z.max (gcSafePoint pd) sp :: rets), pd'.
    split; [reflexivity|]. split; [exact Hmax|]. split; [exact Hrm|].
    split; [constructor; [lia | exact Hle]|].
    split; [constructor; [exact Hsorted | constructor; lia]|].
    rewrite last_cons_cons. exact Hlast.
Qed.

Lemma GetTS_calls_above (clock : list Z) : forall tsMu t,
  0 <= logicalTS tsMu ->
  logicalTS tsMu + Z.of_nat (length clock) <= MaxInt64 ->
  t ∈ GetTS_calls tsMu clock ->
  ts_lt (physicalTS tsMu, logicalTS tsMu) t.
Proof.
  induction clock as [|now rest IH]; intros tsMu t H0 Hmax Hin.
  - inversion Hin.
  - cbn [GetTS_calls GetTS length] in Hin, Hmax.
    set (ts := int64 (now ÷ int64 Millisecond)) in *.
    assert (Hstep : ts_lt (physicalTS tsMu, logicalTS tsMu)
      (let tsMu' := if physicalTS tsMu >=? ts
         then {| physicalTS := physicalTS tsMu;
                 logicalTS := int64 (logicalTS tsMu + 1) |}
         else {| physicalTS := ts; logicalTS := 0 |} in
       (physicalTS tsMu', logicalTS tsMu'))).
    { unfold ts_lt. cbn. destruct (Z.geb_spec (physicalTS tsMu) ts); cbn.
      - right. split; [reflexivity|]. rewrite int64_small; unfold MaxInt64 in *; lia.
      - left. lia. }
    apply elem_of_cons in Hin as [-> | Hin]; [exact Hstep|].
    apply IH in Hin.
    + revert Hstep Hin. unfold ts_lt. cbn.
      destruct (physicalTS tsMu >=? ts); cbn; lia.
    + destruct (physicalTS tsMu >=? ts); cbn; [|lia].
      rewrite int64_small; unfold MaxInt64 in *; lia.
    + destruct (Z.geb_spec (physicalTS tsMu) ts); cbn.
      * rewrite int64_small; unfold MaxInt64 in *; lia.
      * lia.
Qed.

(** X3: timestamps never repeat and never go back, whatever the clock
    reads (even when it stands still or jumps backwards): in any sequence
    of [GetTS] calls every timestamp is strictly larger, by physical and
    then logical time, than all those returned before it, as long as the
    logical counter does not pass the largest int64. *)
Theorem GetTS_strictly_increasing (tsMu : tsState) (clock : list Z)
  (Hlogical : 0 <= logicalTS tsMu)
  (Hroom : logicalTS tsMu + Z.of_nat (length clock) <= MaxInt64) :
  StronglySorted ts_lt (GetTS_calls tsMu clock).
Proof.
  revert tsMu Hlogical Hroom.
  induction clock as [|now rest IH]; intros tsMu H0 Hmax; [constructor|].
  cbn [GetTS_calls GetTS length] in *.
  set (ts := int64 (now ÷ int64 Millisecond)) in *.
  assert (Hnext : 0 <= logicalTS (if physicalTS tsMu >=? ts
         then {| physicalTS := physicalTS tsMu;
                 logicalTS := int64 (logicalTS tsMu + 1) |}
         else {| physicalTS := ts; logicalTS := 0 |})
       /\ logicalTS (if physicalTS tsMu >=? ts
         then {| physicalTS := physicalTS tsMu;
                 logicalTS := int64 (logicalTS tsMu + 1) |}
         else {| physicalTS := ts; logicalTS := 0 |})
          + Z.of_nat (length rest) <= MaxInt64).
  { destruct (physicalTS tsMu >=? ts); cbn.
    - rewrite int64_small; unfold MaxInt64 in *; lia.
    - lia. }
  destruct Hnext as [Hn0 Hnmax].
  constructor.
  - apply IH; assumption.
  - apply Forall_forall. intros t Hin.
    apply GetTS_calls_above in Hin; assumption.
Qed.

(** Four readings of a clock that stands still and then jumps back. *)
Lemma GetTS_strictly_increasing_witness :
  StronglySorted ts_lt
    (GetTS_calls tsMu0 [5000000; 5000000; 7000000; 6000000]).
Proof.
  apply (GetTS_strictly_increasing tsMu0
           [5000000; 5000000; 7000000; 6000000]);
    unfold MaxInt64; simpl; lia.
Defined.

Example GetTS_calls_sample :
  GetTS_calls tsMu0 [5000000; 5000000; 7000000; 6000000]
  = [(5, 0); (5, 1); (7, 0); (7, 1)].
Proof. reflexivity. Qed.

End MockPD.

(** * Configuration: durations *)

Module Config.

(** What a call of [ParseDuration] ends in: the duration it returns (in
    nanoseconds, as [time.Duration]), or the process aborted by
    [log.S().Fatalf]. *)
Inductive outcome : Type :=
| Returns (dur : Z)
| Fatal.

Section ParseDuration.

(** Go's [time.ParseDuration], from the standard library: the duration in
    nanoseconds, or [None] for a non-nil error (Go then returns the
    duration 0 with it). *)
Variable time_ParseDuration : string -> option Z.

Definition parse (s : string) : Z * bool :=
  match time_ParseDuration s with
  | Some d => (d, false)
  | None => (0, true)
  end.

(** [ParseDuration]: parse; on an error parse again with an ["s"]
    appended; abort when that fails too or the duration is negative. *)
Definition ParseDuration (durationStr : string) : outcome :=
  let '(dur, err) := parse durationStr in
  let '(dur, err) :=
    if err then parse (durationStr +:+ "s") else (dur, err) in
  if err || (dur <? 0) then Fatal else Returns dur.

(** The property in the specification's words: a string that parses gives
    its duration, a unitless one its value in seconds, and the abort
    happens exactly when neither parse succeeds. *)
Definition durations_as_claimed (s : string) : Prop :=
  (forall d, time_ParseDuration s = Some d -> ParseDuration s = Returns d)
  /\ (forall d, time_ParseDuration s = None ->
                time_ParseDuration (s +:+ "s") = Some d ->
                ParseDuration s = Returns d)
  /\ (ParseDuration s = Fatal <->
      time_ParseDuration s = None /\ time_ParseDuration (s +:+ "s") = None).

(** The duration the two attempts settle on, if any. *)
Definition settled (s : string) : option Z :=
  match time_ParseDuration s with
  | Some d => Some d
  | None => time_ParseDuration (s +:+ "s")
  end.

Lemma ParseDuration_settled s :
  ParseDuration s =
  match settled s with
  | Some d => if d <? 0 then Fatal else Returns d
  | None => Fatal
  end.
Proof.
  unfold ParseDuration, settled, parse.
  destruct (time_ParseDuration s) as [d|]; simpl; [reflexivity|].
  destruct (time_ParseDuration (s +:+ "s")) as [d|]; reflexivity.
Qed.

(** C8 (amended): a string that parses as a duration that is not negative
    gives that duration; a unitless string whose value in seconds is not
    negative gives that value; and [ParseDuration] aborts exactly when the
    string fails to parse either way or the duration parsed is negative. *)
Theorem ParseDuration_cases (s : string) :
  (forall d, time_ParseDuration s = Some d ->
             ParseDuration s = if d <? 0 then Fatal else Returns d)
  /\ (forall d, time_ParseDuration s = None ->
                time_ParseDuration (s +:+ "s") = Some d ->
                ParseDuration s = if d <? 0 then Fatal else Returns d)
  /\ (ParseDuration s = Fatal <->
      (time_ParseDuration s = None
       /\ time_ParseDuration (s +:+ "s") = None)
      \/ exists d, settled s = Some d /\ d < 0).
Proof.
  rewrite ParseDuration_settled. unfold settled.
  split; [|split].
  - intros d ->. reflexivity.
  - intros d -> ->. reflexivity.
  - destruct (time_ParseDuration s) as [d|].
    + destruct (Z.ltb_spec d 0); split.
      * intros _. right. exists d. split; [reflexivity | assumption].
      * reflexivity.
      * discriminate.
      * intros [[? _]|(d' & Hd' & ?)]; [discriminate|].
        inversion Hd'; subst. lia.
    + destruct (time_ParseDuration (s +:+ "s")) as [d|].
      * destruct (Z.ltb_spec d 0); split.
        -- intros _. right. exists d. split; [reflexivity | assumption].
        -- reflexivity.
        -- discriminate.
        -- intros [[_ ?]|(d' & Hd' & ?)]; [discriminate|].
           inversion Hd'; subst. lia.
      * split; [intros _; left; split; reflexivity | reflexivity].
Qed.

End ParseDuration.

(** Values of Go's [time.ParseDuration] on the strings the examples below
    use (nanoseconds); a string without a unit is an error in Go. The strings
    not listed are not needed and are left as errors. *)
Definition go_durations (s : string) : option Z :=
  if String.eqb s "20s" then Some 20000000000
  else if String.eqb s "1m30s" then Some 90000000000
  else if String.eqb s "-5s" then Some (-5000000000)
  else if String.eqb s "300ms" then Some 300000000
  else None.

Example ParseDuration_with_unit :
  ParseDuration go_durations "1m30s" = Returns 90000000000.
Proof. reflexivity. Qed.

Example ParseDuration_unitless :
  ParseDuration go_durations "20" = Returns 20000000000.
Proof. reflexivity. Qed.

Example ParseDuration_garbage :
  ParseDuration go_durations "soon" = Fatal.
Proof. reflexivity. Qed.

(** C8 as stated fails on a negative duration: ["-5s"] parses, to minus
    five seconds, and [ParseDuration] aborts instead of returning it; the
    unitless ["-5"] aborts as well although ["-5s"] parses. *)
Lemma ParseDuration_negative_aborts :
  go_durations "-5s" = Some (-5000000000)
  /\ ParseDuration go_durations "-5s" = Fatal
  /\ ParseDuration go_durations "-5" = Fatal
  /\ ~ durations_as_claimed go_durations "-5s"
  /\ ~ durations_as_claimed go_durations "-5".
Proof.
  split; [reflexivity|]. split; [reflexivity|]. split; [reflexivity|].
  split.
  - intros (H & _ & _). specialize (H _ eq_refl). discriminate.
  - intros (_ & H & _). specialize (H _ eq_refl eq_refl). discriminate.
Qed.

End Config.

(** * Values and memtables *)

(** The [y] package (badger): the value record the engine stores. *)
Module y.

(** [y.ValueStruct], with the fields [engine.go] reads and writes; [Meta]
    is a byte, [Version] a [uint64]. *)
Record ValueStruct : Type := {
  Meta : Z;
  UserMeta : bytes;
  Value : bytes;
  Version : Z
}.

(** [y.ValueStruct{}] *)
Definition zero : ValueStruct :=
  {| Meta := 0; UserMeta := []; Value := []; Version := 0 |}.

(** The two methods of [ValueStruct] the engine calls; their bodies are
    badger's, not this repository's. *)
Class Methods : Type := {
  Valid : ValueStruct -> bool;
  EncodedSize : ValueStruct -> Z
}.

End y.

(** The [memtable] package: one skiplist per column family. *)
Module memtable.

(** [memtable.Entry] *)
Record Entry : Type := {
  Key : bytes;
  Value : y.ValueStruct
}.

(** [memtable.Entry{}] *)
Definition zeroEntry : Entry := {| Key := []; Value := y.zero |}.

(** The skiplist, its read hint and the node-size estimate: the part of
    the package that the sources do not contain. [newSkiplist] is the
    skiplist [NewCFTable] builds (height 1, a fresh head node). *)
Class Skiplist : Type := {
  skiplist : Type;
  Hint : Type;
  zeroHint : Hint;
  newSkiplist : skiplist;
  skl_Empty : skiplist -> bool;
  skl_Get : skiplist -> bytes -> Z -> y.ValueStruct;
  skl_GetWithHint : skiplist -> bytes -> Z -> Hint -> y.ValueStruct * Hint;
  EstimateNodeSize : Z
}.

Section Table.
Context `{Skiplist}.

(** [memtable.Table]; the arena only backs the skiplists' nodes and is
    left inside them. *)
Record Table : Type := {
  skls : list skiplist;
  version : Z;
  flushing : Z
}.

Definition NewCFTable (numCFs : nat) : Table :=
  {| skls := replicate numCFs newSkiplist; version := 0; flushing := 0 |}.

(** [cft.skls[cf].Get(key, version)] *)
Definition Get (cft : Table) (cf : Z) (key : bytes) (version : Z)
  : option y.ValueStruct :=
  skl ← index (skls cft) cf;
  Some (skl_Get skl key version).

(** Modelled from the spec: [GetWithHint] is called by the engine but its
    body is not in the sources; like [Get] it indexes the column family's
    skiplist, and it passes the reader's hint on to it ("lookups use a
    hint (per-CF, per-reader)"). The hint is updated in place. *)
Definition GetWithHint (cft : Table) (cf : Z) (key : bytes) (version : Z)
    (hint : Hint) : option (y.ValueStruct * Hint) :=
  skl ← index (skls cft) cf;
  Some (skl_GetWithHint skl key version hint).

(** [Empty]: the loop returns [false] at the first skiplist that is not
    empty. *)
Fixpoint all_empty (l : list skiplist) : bool :=
  match l with
  | [] => true
  | skl :: rest => if negb (skl_Empty skl) then false else all_empty rest
  end.

Definition Empty (cft : Table) : bool := all_empty (skls cft).

Definition SetVersion (cft : Table) (v : Z) : Table :=
  {| skls := skls cft; version := v; flushing := flushing cft |}.

Definition GetVersion (cft : Table) : Z := version cft.

End Table.

End memtable.

(** The [sstable] package: L0 tables and SSTables, by the one method the
    read path calls on each. None of it is in the sources. *)
Module sstable.

Class Tables : Type := {
  L0Table : Type;
  Table : Type;
  (** [tbl.Get(cf, key, version, keyHash)] on an L0 table *)
  l0_Get : L0Table -> Z -> bytes -> Z -> Z -> y.ValueStruct;
  (** the lookup in one SSTable of a level *)
  tbl_Get : Table -> bytes -> Z -> Z -> y.ValueStruct
}.

End sstable.

(** * The engine *)

Module engine.

(** ** Reads as a small state-and-panic monad

    A snapshot read updates the snapshot's per-CF hints and may panic on an
    index out of range. [Read] threads the hints and, as ghost state, the
    list of probes made so far, oldest first; [None] is the panic. *)

(** A probe of one source of a snapshot: which table was consulted, and
    with what. *)
Inductive Probe : Type :=
| ProbeSplitting (idx : Z)
| ProbeMemTableWithHint (i : nat)
| ProbeMemTable (i : nat)
| ProbeL0 (i : nat) (keyHash : Z)
| ProbeLevelTable (level : Z) (j : nat) (keyHash : Z).

Record ReadState (Hint : Type) : Type := {
  rs_hints : list Hint;
  rs_probes : list Probe
}.
Arguments rs_hints {Hint} _.
Arguments rs_probes {Hint} _.

Definition Read (Hint A : Type) : Type :=
  ReadState Hint -> option (A * ReadState Hint).

Global Instance Read_ret {Hint} : MRet (Read Hint) :=
  fun A (a : A) st => Some (a, st).

Global Instance Read_bind {Hint} : MBind (Read Hint) :=
  fun A B (k : A -> Read Hint B) (c : Read Hint A) st =>
    match c st with
    | Some (a, st') => k a st'
    | None => None
    end.

Definition panic {Hint A} : Read Hint A := fun _ => None.

(** A value that exists unless an index was out of range. *)
Definition lift {Hint A} (o : option A) : Read Hint A :=
  match o with
  | Some a => mret a
  | None => panic
  end.

Definition probed {Hint} (p : Probe) : Read Hint unit :=
  fun st => Some (tt, {| rs_hints := rs_hints st;
                         rs_probes := rs_probes st ++ [p] |}).

(** [&s.hints[cf]], read and written through the pointer. *)
Definition getHint {Hint} (cf : Z) : Read Hint Hint :=
  fun st => match index (rs_hints st) cf with
            | Some h => Some (h, st)
            | None => None
            end.

Definition setHint {Hint} (cf : Z) (h : Hint) : Read Hint unit :=
  fun st => Some (tt, {| rs_hints := store (rs_hints st) cf h;
                         rs_probes := rs_probes st |}).

(** A step of a lookup that may already hold the record to return: the
    next step runs only when this one found nothing. *)
Definition or_else {Hint V} (c k : Read Hint (option V))
  : Read Hint (option V) :=
  r ← c;
  match r with
  | Some v => mret (Some v)
  | None => k
  end.

Section Model.
Context `{y.Methods} `{memtable.Skiplist} `{sstable.Tables}.

(** *** Options and shards *)

(** [CFConfig]; [Managed] is the field the write batch reads. *)
Record CFConfig : Type := { Managed : bool }.

Record Options : Type := { CFs : list CFConfig }.

(** [levelHandler]: one level (1..N) of a column family. *)
Record levelHandler : Type := {
  level : Z;
  tables : list sstable.Table;
  totalSize : Z
}.

Record shardCF : Type := { levels : list levelHandler }.

Inductive SplitStage : Type :=
| Initial | PreSplit | SplitFileDone | SplitDone.

(** [Shard]. [memTbls] and [l0Tbls] are the slices behind the two atomic
    pointers ([loadMemTables], [loadL0Tables]), [splittingMemTbls] the ones
    behind [loadSplittingMemTable], [initialFlushed] the flag behind
    [IsInitialFlushed]. *)
Record Shard : Type := {
  ID : Z;
  Ver : Z;
  cfs : list shardCF;
  memTbls : list memtable.Table;
  l0Tbls : list sstable.L0Table;
  splittingMemTbls : list memtable.Table;
  splitStage : SplitStage;
  initialFlushed : bool
}.

(** What the engine calls but the sources do not contain. *)

(** [farm.Fingerprint64] *)
Variable Fingerprint64 : bytes -> Z.
(** [Shard.getSplittingIndex] *)
Variable getSplittingIndex : Shard -> bytes -> Z.
(** [Shard.isSplitting] *)
Variable isSplitting : Shard -> bool.
(** [Shard.allocCommitTS]: the commit version, and the shard with its
    allocator advanced. *)
Variable allocCommitTS : Shard -> Z * Shard.
(** The level handler's binary search for the table that may hold a key:
    its index in the level, if there is one. *)
Variable searchTable : list sstable.Table -> bytes -> option nat.
(** [table.BitDelete], the delete bit of the meta byte. *)
Variable BitDelete : Z.
(** Go's [append]: the spare capacity the runtime gives a slice of the
    given length when it grows it by one element. *)
Variable spareCap : nat -> nat.

(** Modelled from the spec: [table.IsDeleted], which is not in the
    sources; "the meta-byte encodes tombstone-vs-put", by its delete bit. *)
Definition IsDeleted (meta : Z) : bool := 0 <? Z.land meta BitDelete.

(** [scf.getLevelHandler(i)] for a level number [i] from 1: the handler at
    [scf.levels[i-1]]. *)
Definition getLevelHandler (scf : shardCF) (i : Z) : option levelHandler :=
  index (levels scf) (i - 1).

(** *** Snapshots and point reads *)

(** [Item], what [Get] hands back. *)
Record Item : Type := {
  key : bytes;
  ver : Z;
  meta : Z;
  userMeta : bytes;
  val : bytes
}.

(** [SnapAccess]. [splitting] is [None] for the nil slice. The epoch
    guard is left out; [hints], the one field a read writes, starts the
    state of [Read]. *)
Record SnapAccess : Type := {
  shard : Shard;
  snap_cfs : list CFConfig;
  hints : list memtable.Hint;
  memTables : list memtable.Table;
  splitting : option (list memtable.Table);
  l0Tables : list sstable.L0Table;
  managedReadTS : Z
}.

Local Abbreviation Reading := (Read memtable.Hint).

(** [for i, memTbl := range s.memTables.tables], from index [i] on. *)
Fixpoint probeMemTables (i : nat) (tbls : list memtable.Table)
    (cf : Z) (key : bytes) (version : Z) : Reading (option y.ValueStruct) :=
  match tbls with
  | [] => mret None
  | memTbl :: rest =>
      v ← (if (i =? 0)%nat
           then
             hint ← getHint cf;
             '(v, hint') ← lift (memtable.GetWithHint memTbl cf key version hint);
             setHint cf hint';;
             probed (ProbeMemTableWithHint i);;
             mret v
           else
             v ← lift (memtable.Get memTbl cf key version);
             probed (ProbeMemTable i);;
             mret v);
      if y.Valid v then mret (Some v)
      else probeMemTables (S i) rest cf key version
  end.

(** [for _, tbl := range s.l0Tables.tables], from index [i] on. *)
Fixpoint probeL0Tables (i : nat) (tbls : list sstable.L0Table)
    (cf : Z) (key : bytes) (version keyHash : Z)
    : Reading (option y.ValueStruct) :=
  match tbls with
  | [] => mret None
  | tbl :: rest =>
      probed (ProbeL0 i keyHash);;
      let v := sstable.l0_Get tbl cf key version keyHash in
      if y.Valid v then mret (Some v)
      else probeL0Tables (S i) rest cf key version keyHash
  end.

(** Modelled from the spec: [levelHandler.get], whose file is not in the
    sources. "Binary-search the sorted slice for the first table whose
    biggest() ≥ internal-key(user_key, MAX), then consult that table only";
    without a candidate the lookup yields the empty value. [lvl] is the
    level's number, for the record of probes. *)
Definition levelHandler_get (lvl : Z) (l : levelHandler)
    (key : bytes) (version keyHash : Z) : Reading y.ValueStruct :=
  match searchTable (tables l) key with
  | None => mret y.zero
  | Some j =>
      tbl ← lift (tables l !! j);
      probed (ProbeLevelTable lvl j keyHash);;
      mret (sstable.tbl_Get tbl key version keyHash)
  end.

(** [for i := 1; i <= len(scf.levels); i++], from level [i] on, with
    [left] iterations to go. *)
Fixpoint probeLevels (scf : shardCF) (left : nat) (i : Z)
    (key : bytes) (version keyHash : Z) : Reading (option y.ValueStruct) :=
  match left with
  | O => mret None
  | S left' =>
      l ← lift (getLevelHandler scf i);
      if (length (tables l) =? 0)%nat
      then probeLevels scf left' (i + 1) key version keyHash
      else
        v ← levelHandler_get i l key version keyHash;
        if y.Valid v then mret (Some v)
        else probeLevels scf left' (i + 1) key version keyHash
  end.

(** The splitting memtable of the key, when the snapshot has any. *)
Definition probeSplitting (s : SnapAccess) (cf : Z) (key : bytes)
    (version : Z) : Reading (option y.ValueStruct) :=
  match splitting s with
  | Some tbls =>
      let idx := getSplittingIndex (shard s) key in
      tbl ← lift (index tbls idx);
      v ← lift (memtable.Get tbl cf key version);
      probed (ProbeSplitting idx);;
      mret (if y.Valid v then Some v else None)
  | None => mret None
  end.

(** [SnapAccess.getValue] *)
Definition getValue (s : SnapAccess) (cf : Z) (key : bytes) (version : Z)
    : Reading y.ValueStruct :=
  let keyHash := Fingerprint64 key in
  r ← or_else (probeSplitting s cf key version)
      (or_else (probeMemTables 0 (memTables s) cf key version)
      (or_else (probeL0Tables 0 (l0Tables s) cf key version keyHash)
               (scf ← lift (index (cfs (shard s)) cf);
                probeLevels scf (length (levels scf)) 1 key version keyHash)));
  mret (default y.zero r).

(** [SnapAccess.Get] *)
Definition Get (s : SnapAccess) (cf : Z) (key : bytes) (version : Z)
    : Reading (option Item * option error) :=
  let version := if version =? 0 then MaxUint64 else version in
  vs ← getValue s cf key version;
  if negb (y.Valid vs) then mret (None, Some ErrKeyNotFound)
  else if IsDeleted (y.Meta vs) then mret (None, Some ErrKeyNotFound)
  else mret (Some {| key := key; ver := y.Version vs; meta := y.Meta vs;
                     userMeta := y.UserMeta vs; val := y.Value vs |},
             None).

(** The loop of [MultiGet] over the keys left, at a version already fixed;
    the items come back in key order, [None] for a key not found. *)
Fixpoint MultiGet_loop (s : SnapAccess) (cf : Z) (keys : list bytes)
    (version : Z) : Reading (option (list (option Item)) * option error) :=
  match keys with
  | [] => mret (Some [], None)
  | k :: rest =>
      '(item, err) ← Get s cf k version;
      match err with
      | Some ErrKeyNotFound | None =>
          '(items, err') ← MultiGet_loop s cf rest version;
          mret (cons item <$> items, err')
      | Some e => mret (None, Some e)
      end
  end.

(** [SnapAccess.MultiGet] *)
Definition MultiGet (s : SnapAccess) (cf : Z) (keys : list bytes)
    (version : Z) : Reading (option (list (option Item)) * option error) :=
  let version := if version =? 0 then MaxUint64 else version in
  MultiGet_loop s cf keys version.

(** A read on a snapshot starts from the snapshot's hints and an empty
    record of probes. *)
Definition start (s : SnapAccess) : ReadState memtable.Hint :=
  {| rs_hints := hints s; rs_probes := [] |}.

(** *** The engine, its flush channel and snapshots *)

(** [flushTask]; the shard pointer is kept as the shard's id and version. *)
Record flushTask : Type := {
  ft_shard : Z * Z;
  tbl : memtable.Table
}.

(** [Engine], with the fields these operations use. [flushCh] is the
    sequence of tasks sent on the channel, oldest first; a send appends. *)
Record Engine : Type := {
  opt : Options;
  numCFs : nat;
  flushCh : list flushTask
}.

(** [Engine.NewSnapAccess] *)
Definition NewSnapAccess (en : Engine) (sh : Shard) : SnapAccess :=
  {| shard := sh;
     snap_cfs := CFs (opt en);
     hints := replicate (length (CFs (opt en))) memtable.zeroHint;
     memTables := memTbls sh;
     splitting := if isSplitting sh then Some (splittingMemTbls sh) else None;
     l0Tables := l0Tbls sh;
     managedReadTS := 0 |}.

(** *** Write batches *)

(** [WriteBatch]. The entries of a column family are pointers into the
    entry arena; a slot is written once between two resets, so the list
    holds the entries themselves. [entryArena] always has its full capacity
    as length. *)
Record WriteBatch : Type := {
  wb_shard : Shard;
  cfConfs : list CFConfig;
  entries : list (list memtable.Entry);
  estimatedSize : Z;
  properties : gmap string bytes;
  entryArena : list memtable.Entry;
  entryArenaIdx : Z
}.

(** [Engine.NewWriteBatch] *)
Definition NewWriteBatch (en : Engine) (sh : Shard) : WriteBatch :=
  {| wb_shard := sh;
     cfConfs := CFs (opt en);
     entries := replicate (numCFs en) [];
     estimatedSize := 0;
     properties := ∅;
     entryArena := [];
     entryArenaIdx := 0 |}.

(** [WriteBatch.allocEntry]: grow the arena to its new capacity when the
    index has reached its length, then fill the slot at the index. *)
Definition allocEntry (wb : WriteBatch) (k : bytes) (v : y.ValueStruct)
  : option (memtable.Entry * WriteBatch) :=
  let arena :=
    if Z.of_nat (length (entryArena wb)) <=? entryArenaIdx wb
    then entryArena wb
         ++ replicate (S (spareCap (length (entryArena wb)))) memtable.zeroEntry
    else entryArena wb in
  _ ← index arena (entryArenaIdx wb);
  let e := {| memtable.Key := k; memtable.Value := v |} in
  Some (e, {| wb_shard := wb_shard wb;
              cfConfs := cfConfs wb;
              entries := entries wb;
              estimatedSize := estimatedSize wb;
              properties := properties wb;
              entryArena := store arena (entryArenaIdx wb) e;
              entryArenaIdx := int64 (entryArenaIdx wb + 1) |}).

(** The version rule of a column family: [Some] error when a managed CF is
    given version 0 or an unmanaged one a version other than 0. *)
Definition checkVersion (conf : CFConfig) (version : Z) : option error :=
  if Managed conf then
    if version =? 0 then Some (Errorf "version is zero for managed CF")
    else None
  else
    if negb (version =? 0)
    then Some (Errorf "version is not zero for non-managed CF")
    else None.

(** [wb.entries[cf] = append(wb.entries[cf], wb.allocEntry(key, val))] and
    [wb.estimatedSize += size]. *)
Definition appendEntry (wb : WriteBatch) (cf : Z) (k : bytes)
    (v : y.ValueStruct) (size : Z) : option WriteBatch :=
  es ← index (entries wb) cf;
  '(e, wb1) ← allocEntry wb k v;
  Some {| wb_shard := wb_shard wb1;
          cfConfs := cfConfs wb1;
          entries := store (entries wb1) cf (es ++ [e]);
          estimatedSize := int64 (estimatedSize wb1 + size);
          properties := properties wb1;
          entryArena := entryArena wb1;
          entryArenaIdx := entryArenaIdx wb1 |}.

(** [WriteBatch.Put]: the batch after the call and the error returned. *)
Definition Put (wb : WriteBatch) (cf : Z) (k : bytes) (v : y.ValueStruct)
  : option (WriteBatch * option error) :=
  conf ← index (cfConfs wb) cf;
  match checkVersion conf (y.Version v) with
  | Some err => Some (wb, Some err)
  | None =>
      wb' ← appendEntry wb cf k v
              (int64 (int64 (Z.of_nat (length k) + y.EncodedSize v)
                      + memtable.EstimateNodeSize));
      Some (wb', None)
  end.

(** [WriteBatch.Delete]; the column family is a [byte] here. *)
Definition Delete (wb : WriteBatch) (cf : byte) (k : bytes) (version : Z)
  : option (WriteBatch * option error) :=
  let cf := Z.of_N (Byte.to_N cf) in
  conf ← index (cfConfs wb) cf;
  match checkVersion conf version with
  | Some err => Some (wb, Some err)
  | None =>
      wb' ← appendEntry wb cf k
              {| y.Meta := BitDelete; y.UserMeta := []; y.Value := [];
                 y.Version := version |}
              (int64 (Z.of_nat (length k) + memtable.EstimateNodeSize));
      Some (wb', None)
  end.

(** [WriteBatch.SetProperty] *)
Definition SetProperty (wb : WriteBatch) (name : string) (v : bytes)
  : WriteBatch :=
  {| wb_shard := wb_shard wb;
     cfConfs := cfConfs wb;
     entries := entries wb;
     estimatedSize := estimatedSize wb;
     properties := <[name := v]> (properties wb);
     entryArena := entryArena wb;
     entryArenaIdx := entryArenaIdx wb |}.

(** [WriteBatch.EstimatedSize] *)
Definition EstimatedSize (wb : WriteBatch) : Z := estimatedSize wb.

(** [WriteBatch.NumEntries] *)
Definition NumEntries (wb : WriteBatch) : Z :=
  fold_left (fun n es => int64 (n + Z.of_nat (length es))) (entries wb) 0.

(** [for key := range wb.properties { delete(wb.properties, key) }] *)
Definition clearProperties (m : gmap string bytes) : gmap string bytes :=
  foldr delete m (map_to_list m).*1.

(** [WriteBatch.Reset] *)
Definition Reset (wb : WriteBatch) : WriteBatch :=
  {| wb_shard := wb_shard wb;
     cfConfs := cfConfs wb;
     entries := (fun es => take 0 es) <$> entries wb;
     estimatedSize := 0;
     properties := clearProperties (properties wb);
     entryArena := entryArena wb;
     entryArenaIdx := 0 |}.

(** The entries a visitor is called on: up to and including the first one
    it answers [false] to. *)
Fixpoint visited (fn : memtable.Entry -> bool) (es : list memtable.Entry)
  : list memtable.Entry :=
  match es with
  | [] => []
  | e :: rest => if negb (fn e) then [e] else e :: visited fn rest
  end.

(** [WriteBatch.Iterate]: the entries visited, in order. *)
Definition Iterate (wb : WriteBatch) (cf : Z) (fn : memtable.Entry -> bool)
  : option (list memtable.Entry) :=
  es ← index (entries wb) cf;
  Some (visited fn es).

(** *** Triggering a flush *)

Definition send (ch : list flushTask) (sh : Shard) (t : memtable.Table)
  : list flushTask :=
  ch ++ [{| ft_shard := (ID sh, Ver sh); tbl := t |}].

(** The loop [for ; i > 0; i-- { en.flushCh <- mems.tables[i] }] from a
    positive [i]. *)
Fixpoint flushFrom (sh : Shard) (tbls : list memtable.Table) (i : nat)
    (ch : list flushTask) : option (list flushTask) :=
  match i with
  | O => Some ch
  | S i' =>
      memTbl ← tbls !! i;
      flushFrom sh tbls i' (send ch sh memTbl)
  end.

(** [Engine.TriggerFlush]: the engine and the shard after the call. *)
Definition TriggerFlush (en : Engine) (sh : Shard) (skipCnt : Z)
  : option (Engine * Shard) :=
  let mems := memTbls sh in
  let i := int64 (int64 (Z.of_nat (length mems) - skipCnt) - 1) in
  ch ← (if 0 <? i then flushFrom sh mems (Z.to_nat i) (flushCh en)
        else Some (flushCh en));
  match mems with
  | [m] =>
      if memtable.Empty m then
        if negb (initialFlushed sh) then
          let '(commitTS, sh') := allocCommitTS sh in
          let memTbl :=
            memtable.SetVersion (memtable.NewCFTable (numCFs en)) commitTS in
          Some ({| opt := opt en; numCFs := numCFs en;
                   flushCh := send ch sh memTbl |}, sh')
        else Some ({| opt := opt en; numCFs := numCFs en; flushCh := ch |}, sh)
      else Some ({| opt := opt en; numCFs := numCFs en; flushCh := ch |}, sh)
  | _ => Some ({| opt := opt en; numCFs := numCFs en; flushCh := ch |}, sh)
  end.

(** ** The read path, in the words of the specification

    A lookup has a list of sources, in a fixed order; each source is one
    probe and the record it yields ([None] when taking it panics). The
    lookup returns the first valid record found. *)

Definition Source : Type := option (Probe * y.ValueStruct).

(** Go through the sources in order and stop at the first valid record:
    the record found, if any, and the probes made. *)
Fixpoint scan (srcs : list Source)
  : option (option y.ValueStruct * list Probe) :=
  match srcs with
  | [] => Some (None, [])
  | None :: _ => None
  | Some (p, v) :: rest =>
      if y.Valid v then Some (Some v, [p])
      else '(r, ps) ← scan rest; Some (r, p :: ps)
  end.

(** If the shard is splitting: the splitting memtable of the key. *)
Definition splittingSource (s : SnapAccess) (cf : Z) (k : bytes)
    (version : Z) : list Source :=
  match splitting s with
  | None => []
  | Some tbls =>
      let idx := getSplittingIndex (shard s) k in
      [t ← index tbls idx;
       v ← memtable.Get t cf k version;
       Some (ProbeSplitting idx, v)]
  end.

(** Memtable [i] of the snapshot: with the CF's hint for index 0, without
    a hint for the others. *)
Definition memTableSource (hs : list memtable.Hint) (cf : Z) (k : bytes)
    (version : Z) (i : nat) (t : memtable.Table) : Source :=
  if (i =? 0)%nat then
    h ← index hs cf;
    r ← memtable.GetWithHint t cf k version h;
    Some (ProbeMemTableWithHint i, r.1)
  else
    v ← memtable.Get t cf k version;
    Some (ProbeMemTable i, v).

(** L0 table [i], probed with the key's fingerprint as the filter key. *)
Definition l0Source (cf : Z) (k : bytes) (version keyHash : Z)
    (i : nat) (t : sstable.L0Table) : Source :=
  Some (ProbeL0 i keyHash, sstable.l0_Get t cf k version keyHash).

(** Level [lvl]: nothing for a level without tables or without a candidate
    for the key, else the one candidate table. *)
Definition levelSource (k : bytes) (version keyHash : Z)
    (lvl : Z) (l : levelHandler) : list Source :=
  if (length (tables l) =? 0)%nat then []
  else
    match searchTable (tables l) k with
    | None => []
    | Some j =>
        [t ← tables l !! j;
         Some (ProbeLevelTable lvl j keyHash,
               sstable.tbl_Get t k version keyHash)]
    end.

(** The levels 1..N of the column family, in order. *)
Definition levelSources (s : SnapAccess) (cf : Z) (k : bytes)
    (version keyHash : Z) : list Source :=
  match index (cfs (shard s)) cf with
  | None => [None]
  | Some scf =>
      concat (imap (fun i => levelSource k version keyHash (1 + Z.of_nat i))
                   (levels scf))
  end.

(** All the sources of a lookup, in probe order; [hs] are the hints the
    lookup starts with. *)
Definition sources (s : SnapAccess) (hs : list memtable.Hint) (cf : Z)
    (k : bytes) (version : Z) : list Source :=
  splittingSource s cf k version
  ++ imap (memTableSource hs cf k version) (memTables s)
  ++ imap (l0Source cf k version (Fingerprint64 k)) (l0Tables s)
  ++ levelSources s cf k version (Fingerprint64 k).

(** What a read shows: its result and the probes on record after it. *)
Definition observe {A} (r : option (A * ReadState memtable.Hint))
  : option (A * list Probe) :=
  (fun x => (x.1, rs_probes x.2)) <$> r.

(** The probes [ps] made from the state [st]. *)
Definition after {A} (st : ReadState memtable.Hint)
    (r : option (A * list Probe)) : option (A * list Probe) :=
  (fun x => (x.1, rs_probes st ++ x.2)) <$> r.

(** ** Predicates on snapshots, batches and flushes *)

Definition in_range {A} (l : list A) (i : Z) : bool :=
  (0 <=? i) && (i <? Z.of_nat (length l)).

(** A snapshot on which a lookup of [k] in [cf] indexes nothing out of
    range: every memtable has a skiplist for [cf], the hints and the shard
    have an entry for it, the splitting index names a splitting memtable,
    and the level search answers with a table of the level. *)
Definition snapshot_ok (s : SnapAccess) (hs : list memtable.Hint) (cf : Z)
    (k : bytes) : bool :=
  forallb (fun t => in_range (memtable.skls t) cf) (memTables s)
  && in_range hs cf
  && match splitting s with
     | None => true
     | Some tbls =>
         match index tbls (getSplittingIndex (shard s) k) with
         | Some t => in_range (memtable.skls t) cf
         | None => false
         end
     end
  && match index (cfs (shard s)) cf with
     | None => false
     | Some scf =>
         forallb (fun l => match searchTable (tables l) k with
                           | Some j => (j <? length (tables l))%nat
                           | None => true
                           end) (levels scf)
     end.

(** The version does not fit the column family: managed with version 0, or
    unmanaged with another version. *)
Definition mismatch (conf : CFConfig) (version : Z) : Prop :=
  (Managed conf = true /\ version = 0)
  \/ (Managed conf = false /\ version ≠ 0).

(** A batch as [NewWriteBatch], [Put], [Delete] and [Reset] keep it: an
    entry list per configured column family, and the arena index within
    the arena. *)
Definition batch_ok (wb : WriteBatch) : Prop :=
  length (entries wb) = length (cfConfs wb)
  /\ 0 <= entryArenaIdx wb <= Z.of_nat (length (entryArena wb)).

(** The tombstone [Delete] records. *)
Definition tombstone (version : Z) : y.ValueStruct :=
  {| y.Meta := BitDelete; y.UserMeta := []; y.Value := [];
     y.Version := version |}.

(** What a caller can tell about a batch is as it was. *)
Definition unchanged (wb wb' : WriteBatch) : Prop :=
  wb' = wb
  /\ entries wb' = entries wb
  /\ EstimatedSize wb' = EstimatedSize wb
  /\ NumEntries wb' = NumEntries wb
  /\ properties wb' = properties wb
  /\ entryArena wb' = entryArena wb
  /\ entryArenaIdx wb' = entryArenaIdx wb.

(** The batch [NewWriteBatch] makes for the column families of [wb]. *)
Definition fresh_like (wb : WriteBatch) : WriteBatch :=
  NewWriteBatch {| opt := {| CFs := cfConfs wb |};
                   numCFs := length (entries wb);
                   flushCh := [] |} (wb_shard wb).

(** The flush tasks of a shard for a list of memtables, in order. *)
Definition tasks (sh : Shard) (l : list memtable.Table) : list flushTask :=
  (fun t => {| ft_shard := (ID sh, Ver sh); tbl := t |}) <$> l.

(** The engine after sending more tasks. *)
Definition sent (en : Engine) (more : list flushTask) : Engine :=
  {| opt := opt en; numCFs := numCFs en; flushCh := flushCh en ++ more |}.

(** The placeholder that [TriggerFlush] builds for an empty shard. *)
Definition placeholder (en : Engine) (sh : Shard) : memtable.Table :=
  memtable.SetVersion (memtable.NewCFTable (numCFs en)) (allocCommitTS sh).1.

(** The property in the specification's words: the memtables enqueued are the
    immutable ones ([imms], index 1 first) except the [skipCnt] most
    recently sealed, that is the first [skipCnt] of [imms], oldest first. *)
Definition skips_most_recent (imms : list memtable.Table) (skipCnt : Z)
  : list memtable.Table :=
  reverse (drop (Z.to_nat skipCnt) imms).

(** What the loop does: the immutable memtables except the [skipCnt] that
    were sealed earliest, that is the last [skipCnt] of [imms], oldest
    first. *)
Definition skips_oldest (imms : list memtable.Table) (skipCnt : Z)
  : list memtable.Table :=
  reverse (take (length imms - Z.to_nat skipCnt) imms).

(** ** What is assumed of the code that is not in the sources *)

(** The empty value is not a valid record (in badger [Valid] tests the
    meta byte against 0). *)
Hypothesis Valid_zero : y.Valid y.zero = false.

(** A skiplist that [NewCFTable] has just built holds nothing. *)
Hypothesis newSkiplist_Empty : memtable.skl_Empty memtable.newSkiplist = true.

(** ** Facts about reads *)

Lemma bind_run {A B} (c : Reading A) (k : A -> Reading B) st :
  (c ≫= k) st = match c st with
                | Some (a, st') => k a st'
                | None => None
                end.
Proof. reflexivity. Qed.

Lemma scan_app (a b : list Source) :
  scan (a ++ b) =
  match scan a with
  | None => None
  | Some (Some v, ps) => Some (Some v, ps)
  | Some (None, ps) => '(r, ps') ← scan b; Some (r, ps ++ ps')
  end.
Proof.
  induction a as [|[[p v]|] a IH]; simpl.
  - destruct (scan b) as [[r ps']|]; reflexivity.
  - destruct (y.Valid v); [reflexivity|].
    rewrite IH. destruct (scan a) as [[[w|] ps]|]; simpl; try reflexivity.
    destruct (scan b) as [[r ps']|]; reflexivity.
  - reflexivity.
Qed.

(** A record that [scan] returns is valid, and it is the first valid one:
    the sources before it were probed and were not. *)
Lemma scan_found (srcs : list Source) v ps :
  scan srcs = Some (Some v, ps) ->
  y.Valid v = true
  /\ exists before p rest,
       srcs = (Some <$> before) ++ Some (p, v) :: rest
       /\ Forall (fun src => y.Valid src.2 = false) before
       /\ ps = before.*1 ++ [p].
Proof.
  revert ps. induction srcs as [|[[p w]|] srcs IH]; intros ps Hs; simpl in Hs;
    try discriminate.
  destruct (y.Valid w) eqn:Hw.
  - inversion Hs; subst. split; [assumption|].
    exists [], p, srcs. repeat split. constructor.
  - destruct (scan srcs) as [[r ps']|]; simpl in Hs; [|discriminate].
    inversion Hs; subst.
    destruct (IH ps' eq_refl) as (Hv & before & q & rest & -> & Hb & ->).
    split; [assumption|].
    exists ((p, w) :: before), q, rest. repeat split.
    constructor; assumption.
Qed.

(** When [scan] finds nothing, every source was probed and none was valid. *)
Lemma scan_none (srcs : list Source) ps :
  scan srcs = Some (None, ps) ->
  exists all,
    srcs = Some <$> all
    /\ Forall (fun src => y.Valid src.2 = false) all
    /\ ps = all.*1.
Proof.
  revert ps. induction srcs as [|[[p w]|] srcs IH]; intros ps Hs; simpl in Hs;
    try discriminate.
  - inversion Hs; subst. exists []. repeat split. constructor.
  - destruct (y.Valid w) eqn:Hw; [discriminate|].
    destruct (scan srcs) as [[r ps']|]; simpl in Hs; [|discriminate].
    inversion Hs; subst.
    destruct (IH ps' eq_refl) as (all & -> & Hall & ->).
    exists ((p, w) :: all). repeat split. constructor; assumption.
Qed.

Lemma or_else_scan (c k : Reading (option y.ValueStruct)) a b st :
  observe (c st) = after st (scan a) ->
  (forall st', c st = Some (None, st') ->
               observe (k st') = after st' (scan b)) ->
  observe (or_else c k st) = after st (scan (a ++ b)).
Proof.
  intros Hc Hk. unfold or_else. rewrite bind_run, scan_app.
  destruct (c st) as [[r st']|] eqn:Ec; simpl in Hc.
  - destruct (scan a) as [[r' ps]|]; simpl in Hc; [|discriminate].
    injection Hc as Hr Hps. subst r'. destruct r as [v|]; simpl.
    + rewrite Hps. reflexivity.
    + rewrite (Hk st' eq_refl).
      destruct (scan b) as [[r' ps']|]; simpl; [|reflexivity].
      rewrite Hps, app_assoc. reflexivity.
  - destruct (scan a) as [[r' ps]|]; simpl in Hc; [discriminate|].
    reflexivity.
Qed.

Lemma after_probed {A} (st : ReadState memtable.Hint) hs p
    (r : option (A * list Probe)) :
  after {| rs_hints := hs; rs_probes := rs_probes st ++ [p] |} r
  = after st ((fun x => (x.1, p :: x.2)) <$> r).
Proof.
  destruct r as [[a ps]|]; simpl; [|reflexivity].
  rewrite <- app_assoc. reflexivity.
Qed.

Lemma probeL0Tables_scan cf k version kh tbls : forall i st,
  observe (probeL0Tables i tbls cf k version kh st)
  = after st (scan (imap (fun j => l0Source cf k version kh (i + j)) tbls)).
Proof.
  induction tbls as [|t tbls IH]; intros i st.
  - simpl. rewrite app_nil_r. reflexivity.
  - cbn [probeL0Tables imap scan l0Source]. rewrite bind_run. cbn [probed].
    rewrite Nat.add_0_r.
    destruct (y.Valid (sstable.l0_Get t cf k version kh)) eqn:Hv.
    + reflexivity.
    + rewrite IH, after_probed. f_equal.
      replace (imap ((fun j => l0Source cf k version kh (i + j)) ∘ S) tbls)
        with (imap (fun j => l0Source cf k version kh (S i + j)) tbls)
        by (apply imap_ext; intros j x _; simpl;
            rewrite Nat.add_succ_r; reflexivity).
      destruct (scan _) as [[r ps]|]; reflexivity.
Qed.

Lemma memTableSource_later hs hs' cf k version i t :
  i ≠ 0%nat ->
  memTableSource hs cf k version i t = memTableSource hs' cf k version i t.
Proof. unfold memTableSource. destruct i; [congruence | reflexivity]. Qed.

(** One more step of a read at a given state. *)
Ltac run_read :=
  repeat first
    [ rewrite bind_run
    | progress cbn [lift mret Read_ret panic probed setHint rs_hints rs_probes
                    mbind option_bind fst snd] ].

Lemma probeMemTables_scan cf k version tbls : forall i st,
  observe (probeMemTables i tbls cf k version st)
  = after st (scan (imap (fun j => memTableSource (rs_hints st) cf k version
                                                  (i + j)) tbls)).
Proof.
  induction tbls as [|t tbls IH]; intros i st.
  - simpl. rewrite app_nil_r. reflexivity.
  - cbn [probeMemTables imap scan]. rewrite Nat.add_0_r, bind_run.
    replace (imap ((fun j => memTableSource (rs_hints st) cf k version (i + j))
                   ∘ S) tbls)
      with (imap (fun j => memTableSource (rs_hints st) cf k version (S i + j))
                 tbls)
      by (apply imap_ext; intros j x _; simpl;
          rewrite Nat.add_succ_r; reflexivity).
    assert (Hrest : forall hs,
      imap (fun j => memTableSource hs cf k version (S i + j)) tbls
      = imap (fun j => memTableSource (rs_hints st) cf k version (S i + j)) tbls).
    { intros hs. apply imap_ext. intros j x _.
      apply memTableSource_later. lia. }
    unfold memTableSource at 1.
    destruct i as [|i]; cbn [Nat.eqb].
    + rewrite bind_run. unfold getHint.
      destruct (index (rs_hints st) cf) as [h|]; cbn [mbind option_bind];
        [|reflexivity].
      rewrite bind_run.
      destruct (memtable.GetWithHint t cf k version h) as [[v h']|];
        run_read; [|reflexivity].
      destruct (y.Valid v) eqn:Hv; [reflexivity|].
      rewrite IH, after_probed. cbn [rs_hints]. rewrite Hrest.
      destruct (scan _) as [[r ps]|]; reflexivity.
    + rewrite bind_run.
      destruct (memtable.Get t cf k version) as [v|];
        run_read; [|reflexivity].
      destruct (y.Valid v) eqn:Hv; [reflexivity|].
      rewrite IH, after_probed. cbn [rs_hints].
      destruct (scan _) as [[r ps]|]; reflexivity.
Qed.

Lemma probeLevels_scan scf k version kh : forall left i st,
  1 <= i ->
  (Z.to_nat (i - 1) + left = length (levels scf))%nat ->
  observe (probeLevels scf left i k version kh st)
  = after st (scan (concat (imap (fun j => levelSource k version kh
                                             (i + Z.of_nat j))
                                 (drop (Z.to_nat (i - 1)) (levels scf))))).
Proof.
  induction left as [|left IH]; intros i st Hi Hleft.
  - rewrite drop_ge by lia. simpl. rewrite app_nil_r. reflexivity.
  - cbn [probeLevels]. unfold getLevelHandler, index.
    destruct (Z.ltb_spec (i - 1) 0) as [?|_]; [lia|].
    destruct (lookup_lt_is_Some_2 (levels scf) (Z.to_nat (i - 1))) as [l Hl];
      [lia|].
    rewrite (drop_S _ _ _ Hl). rewrite Hl. run_read.
    cbn [imap concat]. rewrite Z.add_0_r.
    replace (imap ((fun j => levelSource k version kh (i + Z.of_nat j)) ∘ S)
                  (drop (S (Z.to_nat (i - 1))) (levels scf)))
      with (imap (fun j => levelSource k version kh (i + 1 + Z.of_nat j))
                 (drop (Z.to_nat (i + 1 - 1)) (levels scf))).
    2: { replace (Z.to_nat (i + 1 - 1)) with (S (Z.to_nat (i - 1))) by lia.
         apply imap_ext. intros j x _. simpl. f_equal. lia. }
    assert (Hnext : (Z.to_nat (i + 1 - 1) + left = length (levels scf))%nat)
      by lia.
    unfold levelSource at 1, levelHandler_get.
    destruct (length (tables l) =? 0)%nat; [apply IH; [lia | exact Hnext]|].
    destruct (searchTable (tables l) k) as [j|]; run_read.
    + destruct (tables l !! j) as [t|]; run_read; [|reflexivity].
      cbn [app scan].
      destruct (y.Valid (sstable.tbl_Get t k version kh)) eqn:Hv;
        [reflexivity|].
      rewrite IH by (lia || exact Hnext). rewrite after_probed.
      destruct (scan _) as [[r ps]|]; reflexivity.
    + rewrite Valid_zero. apply IH; [lia | exact Hnext].
Qed.

Lemma probeSplitting_scan s cf k version st :
  observe (probeSplitting s cf k version st)
  = after st (scan (splittingSource s cf k version)).
Proof.
  unfold probeSplitting, splittingSource.
  destruct (splitting s) as [tbls|].
  - run_read.
    destruct (index tbls (getSplittingIndex (shard s) k)) as [t|];
      run_read; [|reflexivity].
    destruct (memtable.Get t cf k version) as [v|]; run_read; [|reflexivity].
    cbn [scan]. destruct (y.Valid v); reflexivity.
  - simpl. rewrite app_nil_r. reflexivity.
Qed.

(** Probing the splitting memtable leaves the hints alone. *)
Lemma probeSplitting_hints s cf k version st r st' :
  probeSplitting s cf k version st = Some (r, st') ->
  rs_hints st' = rs_hints st.
Proof.
  unfold probeSplitting.
  destruct (splitting s) as [tbls|].
  - run_read.
    destruct (index tbls (getSplittingIndex (shard s) k)) as [t|];
      run_read; [|discriminate].
    destruct (memtable.Get t cf k version) as [v|]; run_read; [|discriminate].
    intros Heq. inversion Heq; subst. reflexivity.
  - intros Heq. inversion Heq; subst. reflexivity.
Qed.

Lemma probeLevels_of_cf_scan s cf k version kh st :
  observe ((scf ← lift (index (cfs (shard s)) cf);
            probeLevels scf (length (levels scf)) 1 k version kh) st)
  = after st (scan (levelSources s cf k version kh)).
Proof.
  unfold levelSources. run_read.
  destruct (index (cfs (shard s)) cf) as [scf|]; run_read; [|reflexivity].
  apply (probeLevels_scan scf k version kh (length (levels scf)) 1 st);
    simpl; lia.
Qed.

(** The lookup of [getValue], read as a scan of its sources. *)
Lemma getValue_scan s cf k version st :
  observe (getValue s cf k version st)
  = after st ((fun x => (default y.zero x.1, x.2))
              <$> scan (sources s (rs_hints st) cf k version)).
Proof.
  unfold getValue. rewrite bind_run.
  pose proof (or_else_scan
    (probeSplitting s cf k version)
    (or_else (probeMemTables 0 (memTables s) cf k version)
       (or_else (probeL0Tables 0 (l0Tables s) cf k version (Fingerprint64 k))
          (scf ← lift (index (cfs (shard s)) cf);
           probeLevels scf (length (levels scf)) 1 k version
             (Fingerprint64 k))))
    (splittingSource s cf k version)
    (imap (memTableSource (rs_hints st) cf k version) (memTables s)
     ++ imap (l0Source cf k version (Fingerprint64 k)) (l0Tables s)
     ++ levelSources s cf k version (Fingerprint64 k))
    st (probeSplitting_scan s cf k version st)) as Hall.
  fold (sources s (rs_hints st) cf k version) in Hall.
  match type of Hall with ?P -> _ => assert (Hrest : P) end.
  { intros st1 Hsplit.
    apply probeSplitting_hints in Hsplit as Hhints.
    apply or_else_scan.
    - rewrite probeMemTables_scan, Hhints. reflexivity.
    - intros st2 _. apply or_else_scan.
      + apply (probeL0Tables_scan cf k version (Fingerprint64 k) _ 0%nat).
      + intros st3 _. apply probeLevels_of_cf_scan. }
  specialize (Hall Hrest).
  destruct (or_else _ _ st) as [[r st']|]; simpl in Hall |- *.
  - destruct (scan _) as [[r' ps]|]; simpl in Hall |- *; [|discriminate].
    injection Hall as -> ->. reflexivity.
  - destruct (scan _) as [[r' ps]|]; simpl in Hall |- *; [discriminate|].
    reflexivity.
Qed.

(** A snapshot holds splitting memtables exactly when it was taken of a
    shard that was splitting; it then holds all of the shard's. *)
Lemma NewSnapAccess_splitting en sh :
  (isSplitting sh = false -> splitting (NewSnapAccess en sh) = None)
  /\ (isSplitting sh = true ->
      splitting (NewSnapAccess en sh) = Some (splittingMemTbls sh))
  /\ memTables (NewSnapAccess en sh) = memTbls sh
  /\ l0Tables (NewSnapAccess en sh) = l0Tbls sh
  /\ length (hints (NewSnapAccess en sh)) = length (CFs (opt en)).
Proof.
  unfold NewSnapAccess; simpl. repeat split.
  - intros ->. reflexivity.
  - intros ->. reflexivity.
  - apply length_replicate.
Qed.

(** C1: a lookup probes its sources in a fixed order and returns the
    first valid record found. The sources are, in order: the splitting
    memtable chosen by [getSplittingIndex] when the snapshot was taken of a
    splitting shard (none otherwise); the memtables by increasing index,
    index 0 with the per-CF hint and the others without; the L0 tables by
    increasing index, each with the key's fingerprint as filter key; and for
    each level 1..N of the column family at most one table. The value
    returned is the first valid record in that order, the empty value when
    there is none, and the probes made are exactly those up to it. *)
Theorem getValue_probe_order s cf k version st :
  let srcs :=
    splittingSource s cf k version
    ++ imap (memTableSource (rs_hints st) cf k version) (memTables s)
    ++ imap (l0Source cf k version (Fingerprint64 k)) (l0Tables s)
    ++ levelSources s cf k version (Fingerprint64 k) in
  observe (getValue s cf k version st)
  = after st ((fun x => (default y.zero x.1, x.2)) <$> scan srcs)
  /\ (forall v st', getValue s cf k version st = Some (v, st') ->
        (y.Valid v = true
         /\ exists before p rest,
              srcs = (Some <$> before) ++ Some (p, v) :: rest
              /\ Forall (fun src => y.Valid src.2 = false) before
              /\ rs_probes st' = rs_probes st ++ before.*1 ++ [p])
        \/ (v = y.zero
            /\ exists all,
                 srcs = Some <$> all
                 /\ Forall (fun src => y.Valid src.2 = false) all
                 /\ rs_probes st' = rs_probes st ++ all.*1))
  /\ match splitting s with
     | None => splittingSource s cf k version = []
     | Some tbls =>
         exists src, splittingSource s cf k version = [src]
           /\ forall p v, src = Some (p, v) ->
                p = ProbeSplitting (getSplittingIndex (shard s) k)
     end
  /\ (forall i t p v,
        memTableSource (rs_hints st) cf k version i t = Some (p, v) ->
        p = if (i =? 0)%nat then ProbeMemTableWithHint 0
            else ProbeMemTable i)
  /\ (forall lvl l,
        (length (levelSource k version (Fingerprint64 k) lvl l) <= 1)%nat).
Proof.
  cbv zeta. split; [apply getValue_scan|]. split; [|split; [|split]].
  - intros v st' Hget.
    pose proof (getValue_scan s cf k version st) as Hscan.
    rewrite Hget in Hscan. unfold sources in Hscan.
    destruct (scan _) as [[[w|] ps]|] eqn:Hs; simpl in Hscan;
      try discriminate; injection Hscan as -> ->.
    + left. destruct (scan_found _ _ _ Hs) as (Hv & before & p & rest & Hsrcs & Hinv & ->).
      split; [assumption|]. exists before, p, rest. repeat split; assumption.
    + right. destruct (scan_none _ _ Hs) as (all & Hsrcs & Hinv & ->).
      split; [reflexivity|]. exists all. repeat split; assumption.
  - unfold splittingSource. destruct (splitting s) as [tbls|]; [|reflexivity].
    eexists. split; [reflexivity|]. intros p v Hsrc.
    destruct (index tbls _) as [t|]; simpl in Hsrc; [|discriminate].
    destruct (memtable.Get t cf k version); simpl in Hsrc; [|discriminate].
    congruence.
  - intros i t p v. unfold memTableSource.
    destruct i as [|i]; simpl.
    + destruct (index _ cf); simpl; [|discriminate].
      destruct (memtable.GetWithHint _ _ _ _ _); simpl; congruence.
    + destruct (memtable.Get _ _ _ _); simpl; congruence.
  - intros lvl l. unfold levelSource.
    destruct (_ =? _)%nat; [simpl; lia|].
    destruct (searchTable _ _); simpl; lia.
Qed.

(** C4: a read at version 0 is the read at [MaxUint64], for [Get] and for
    [MultiGet], whose loop then runs every [Get] at [MaxUint64]. *)
Theorem Get_version_zero_is_max s cf k keys :
  Get s cf k 0 = Get s cf k MaxUint64
  /\ MultiGet s cf keys 0 = MultiGet s cf keys MaxUint64
  /\ MultiGet s cf keys 0 = MultiGet_loop s cf keys MaxUint64
  /\ forall st,
       Get s cf k 0 st
       = (vs ← getValue s cf k MaxUint64;
          if negb (y.Valid vs) then mret (None, Some ErrKeyNotFound)
          else if IsDeleted (y.Meta vs) then mret (None, Some ErrKeyNotFound)
          else mret (Some {| key := k; ver := y.Version vs;
                             meta := y.Meta vs; userMeta := y.UserMeta vs;
                             val := y.Value vs |}, None)) st.
Proof.
  assert (Hzero : (0 =? 0) = true) by reflexivity.
  assert (Hmax : (MaxUint64 =? 0) = false) by reflexivity.
  unfold Get, MultiGet. rewrite Hzero, Hmax. repeat split.
Qed.

(** ** Reads that cannot panic *)

Lemma in_range_index {A} (l : list A) i :
  in_range l i = true -> is_Some (index l i).
Proof.
  unfold in_range, index. rewrite andb_true_iff, Z.leb_le, Z.ltb_lt.
  intros [Hnn Hlt]. destruct (Z.ltb_spec i 0); [lia|].
  apply lookup_lt_is_Some. lia.
Qed.

Lemma Forall_concat_all {A} (P : A -> Prop) (ls : list (list A)) :
  Forall (Forall P) ls -> Forall P (concat ls).
Proof.
  induction 1; simpl; [constructor|]. apply Forall_app. split; assumption.
Qed.

Lemma forallb_lookup {A} (f : A -> bool) (l : list A) i x :
  forallb f l = true -> l !! i = Some x -> f x = true.
Proof.
  intros Hf Hl. apply Is_true_true.
  apply Is_true_true_2, forallb_True in Hf.
  rewrite Forall_lookup in Hf. exact (Hf i x Hl).
Qed.

Lemma Get_in_range (t : memtable.Table) cf k version :
  in_range (memtable.skls t) cf = true ->
  is_Some (memtable.Get t cf k version).
Proof.
  intros Hr. unfold memtable.Get.
  destruct (in_range_index _ _ Hr) as [skl ->]. simpl. eauto.
Qed.

Lemma snapshot_ok_sources s hs cf k version :
  snapshot_ok s hs cf k = true ->
  Forall is_Some (sources s hs cf k version).
Proof.
  unfold snapshot_ok. rewrite !andb_true_iff.
  intros [[[Hmem Hhs] Hsplit] Hlvl].
  unfold sources. rewrite !Forall_app. repeat split.
  - unfold splittingSource. destruct (splitting s) as [tbls|]; [|constructor].
    destruct (index tbls _) as [t|]; [|discriminate]. simpl.
    destruct (Get_in_range t cf k version Hsplit) as [v ->]. simpl.
    repeat constructor. eauto.
  - apply Forall_lookup_2. intros i src Hsrc.
    rewrite list_lookup_imap in Hsrc.
    destruct (memTables s !! i) as [t|] eqn:Ht; simpl in Hsrc; [|discriminate].
    injection Hsrc as <-.
    apply (forallb_lookup _ _ i t) in Hmem; [|exact Ht].
    unfold memTableSource. destruct (i =? 0)%nat.
    + destruct (in_range_index _ _ Hhs) as [h ->]. simpl.
      unfold memtable.GetWithHint.
      destruct (in_range_index _ _ Hmem) as [skl ->]. simpl. eauto.
    + destruct (Get_in_range t cf k version Hmem) as [v ->]. simpl. eauto.
  - apply Forall_lookup_2. intros i src Hsrc.
    rewrite list_lookup_imap in Hsrc.
    destruct (l0Tables s !! i); simpl in Hsrc; [|discriminate].
    injection Hsrc as <-. unfold l0Source. eauto.
  - unfold levelSources.
    destruct (index (cfs (shard s)) cf) as [scf|]; [|discriminate].
    apply Forall_concat_all, Forall_lookup_2. intros i srcs Hsrcs.
    rewrite list_lookup_imap in Hsrcs.
    destruct (levels scf !! i) as [l|] eqn:Hl; simpl in Hsrcs; [|discriminate].
    injection Hsrcs as <-.
    apply (forallb_lookup _ _ i l) in Hlvl; [|exact Hl]. cbv beta in Hlvl.
    unfold levelSource. destruct (_ =? _)%nat; [constructor|].
    destruct (searchTable (tables l) k) as [j|]; [|constructor].
    apply Nat.ltb_lt, lookup_lt_is_Some in Hlvl. destruct Hlvl as [t ->].
    simpl. repeat constructor. eauto.
Qed.

Lemma scan_total (srcs : list Source) :
  Forall is_Some srcs -> is_Some (scan srcs).
Proof.
  induction 1 as [|src srcs [[p v] ->] _ IH]; simpl; [eauto|].
  destruct (y.Valid v); [eauto|].
  destruct IH as [[r ps] ->]. simpl. eauto.
Qed.

(** C5: on a snapshot whose tables all have the column family, [Get]
    returns; with [found] the first valid record of the sources in probe
    order (the newest record for the key at or below the version), the
    result is the KeyNotFound error exactly when there is no such record or
    its meta byte has the delete bit set, and otherwise it is an item with
    the key asked for and that record's version, meta, user-meta and value,
    with no error. *)
Theorem Get_not_found_cases s cf k version st :
  snapshot_ok s (rs_hints st) cf k = true ->
  exists found ps res st',
    scan (sources s (rs_hints st) cf k
            (if version =? 0 then MaxUint64 else version)) = Some (found, ps)
    /\ Get s cf k version st = Some (res, st')
    /\ rs_probes st' = rs_probes st ++ ps
    /\ (res = (None, Some ErrKeyNotFound) <->
        found = None
        \/ exists v, found = Some v /\ IsDeleted (y.Meta v) = true)
    /\ (forall v, found = Some v -> IsDeleted (y.Meta v) = false ->
          res = (Some {| key := k; ver := y.Version v; meta := y.Meta v;
                         userMeta := y.UserMeta v; val := y.Value v |},
                 None)).
Proof.
  intros Hok.
  set (version' := if version =? 0 then MaxUint64 else version).
  destruct (scan_total _ (snapshot_ok_sources s _ cf k version' Hok))
    as [[found ps] Hscan].
  pose proof (getValue_scan s cf k version' st) as Hget.
  rewrite Hscan in Hget. simpl in Hget.
  destruct (getValue s cf k version' st) as [[vs st1]|] eqn:Hrun;
    simpl in Hget; [|discriminate].
  injection Hget as Hvs Hps.
  exists found, ps.
  unfold Get. fold version'. rewrite bind_run, Hrun.
  destruct found as [v|]; simpl in Hvs; subst vs.
  - destruct (scan_found _ _ _ Hscan) as [Hv _]. rewrite Hv. simpl.
    destruct (IsDeleted (y.Meta v)) eqn:Hdel; eexists; eexists;
      (split; [exact Hscan|]); (split; [reflexivity|]);
      (split; [exact Hps|]); split.
    + split; [intros _; right; eauto | reflexivity].
    + intros w Hw. injection Hw as <-. congruence.
    + split; [discriminate|].
      intros [?|(w & Hw & Hd)]; [discriminate|].
      injection Hw as <-. congruence.
    + intros w Hw _. injection Hw as <-. reflexivity.
  - rewrite Valid_zero. simpl. eexists; eexists.
    split; [exact Hscan|]. split; [reflexivity|]. split; [exact Hps|]. split.
    + split; [intros _; left; reflexivity | reflexivity].
    + discriminate.
Qed.

(** ** Facts about write batches *)

Lemma NewWriteBatch_ok en sh :
  numCFs en = length (CFs (opt en)) -> batch_ok (NewWriteBatch en sh).
Proof.
  intros Hn. split; simpl; [|lia]. rewrite length_replicate. exact Hn.
Qed.

Lemma checkVersion_mismatch conf version :
  is_Some (checkVersion conf version) <-> mismatch conf version.
Proof.
  unfold checkVersion, mismatch.
  destruct (Managed conf); destruct (Z.eqb_spec version 0); simpl; split;
    intros Hx.
  - left. split; [reflexivity | assumption].
  - eauto.
  - destruct Hx as [err Herr]. discriminate.
  - destruct Hx as [[_ ?]|[? _]]; [contradiction | discriminate].
  - destruct Hx as [err Herr]. discriminate.
  - destruct Hx as [[? _]|[_ ?]]; [discriminate | contradiction].
  - right. split; [reflexivity | assumption].
  - eauto.
Qed.

Lemma index_in_range {A} (l : list A) i x :
  index l i = Some x -> in_range l i = true.
Proof.
  unfold index, in_range. destruct (Z.ltb_spec i 0); [discriminate|].
  intros Hl. apply lookup_lt_Some in Hl.
  apply andb_true_iff. rewrite Z.leb_le, Z.ltb_lt. lia.
Qed.

Lemma index_store_eq {A} (l : list A) i x :
  in_range l i = true -> index (store l i x) i = Some x.
Proof.
  unfold in_range, index, store. rewrite andb_true_iff, Z.leb_le, Z.ltb_lt.
  intros [Hnn Hlt]. destruct (Z.ltb_spec i 0); [lia|].
  apply list_lookup_insert_eq. lia.
Qed.

Lemma index_store_ne {A} (l : list A) i j x :
  0 <= i -> i ≠ j -> index (store l i x) j = index l j.
Proof.
  unfold index, store. intros Hnn Hne.
  destruct (Z.ltb_spec j 0); [reflexivity|].
  apply list_lookup_insert_ne. lia.
Qed.

Lemma allocEntry_ok wb k v :
  0 <= entryArenaIdx wb <= Z.of_nat (length (entryArena wb)) ->
  exists wb1,
    allocEntry wb k v = Some ({| memtable.Key := k; memtable.Value := v |}, wb1)
    /\ entries wb1 = entries wb
    /\ cfConfs wb1 = cfConfs wb
    /\ estimatedSize wb1 = estimatedSize wb
    /\ properties wb1 = properties wb
    /\ index (entryArena wb1) (entryArenaIdx wb)
       = Some {| memtable.Key := k; memtable.Value := v |}.
Proof.
  intros Hidx. unfold allocEntry.
  set (arena := if _ <=? _ then _ else _).
  assert (Hr : in_range arena (entryArenaIdx wb) = true).
  { unfold in_range, arena. apply andb_true_iff. rewrite Z.leb_le, Z.ltb_lt.
    split; [lia|].
    destruct (Z.leb_spec (Z.of_nat (length (entryArena wb))) (entryArenaIdx wb)).
    - rewrite length_app, length_replicate. lia.
    - lia. }
  destruct (in_range_index _ _ Hr) as [e0 ->]. simpl.
  eexists. split; [reflexivity|]. simpl. repeat split.
  apply index_store_eq. exact Hr.
Qed.

Lemma appendEntry_ok wb cf k v size es :
  0 <= entryArenaIdx wb <= Z.of_nat (length (entryArena wb)) ->
  index (entries wb) cf = Some es ->
  exists wb',
    appendEntry wb cf k v size = Some wb'
    /\ index (entries wb') cf
       = Some (es ++ [{| memtable.Key := k; memtable.Value := v |}])
    /\ (forall cf', cf' ≠ cf -> index (entries wb') cf' = index (entries wb) cf')
    /\ cfConfs wb' = cfConfs wb
    /\ estimatedSize wb' = int64 (estimatedSize wb + size)
    /\ properties wb' = properties wb.
Proof.
  intros Hidx Hes. unfold appendEntry. rewrite Hes. simpl.
  destruct (allocEntry_ok wb k v Hidx) as (wb1 & -> & He & Hc & Hs & Hp & _).
  simpl. eexists. split; [reflexivity|]. simpl.
  pose proof (index_in_range _ _ _ Hes) as Hr.
  rewrite He, Hc, Hs, Hp. repeat split.
  - apply index_store_eq. exact Hr.
  - intros cf' Hne. apply index_store_ne; [|congruence].
    unfold in_range in Hr. apply andb_true_iff in Hr as [Hr _].
    apply Z.leb_le in Hr. exact Hr.
Qed.

(** C2: on a batch with an entry list per configured column family, [Put]
    and [Delete] return; the error is non-nil exactly when the version does
    not fit the column family, and with a nil error the entry has been
    appended to the column family's list, the other lists being as before. *)
Theorem write_rejected_iff_mismatch wb cf cfb k v version conf confb :
  batch_ok wb ->
  index (cfConfs wb) cf = Some conf ->
  index (cfConfs wb) (Z.of_N (Byte.to_N cfb)) = Some confb ->
  (exists wb' err es,
     Put wb cf k v = Some (wb', err)
     /\ index (entries wb) cf = Some es
     /\ (is_Some err <-> mismatch conf (y.Version v))
     /\ (err = None ->
         index (entries wb') cf
         = Some (es ++ [{| memtable.Key := k; memtable.Value := v |}])
         /\ forall cf', cf' ≠ cf ->
              index (entries wb') cf' = index (entries wb) cf'))
  /\ (exists wb' err es,
        Delete wb cfb k version = Some (wb', err)
        /\ index (entries wb) (Z.of_N (Byte.to_N cfb)) = Some es
        /\ (is_Some err <-> mismatch confb version)
        /\ (err = None ->
            index (entries wb') (Z.of_N (Byte.to_N cfb))
            = Some (es ++ [{| memtable.Key := k;
                              memtable.Value := tombstone version |}])
            /\ forall cf', cf' ≠ Z.of_N (Byte.to_N cfb) ->
                 index (entries wb') cf' = index (entries wb) cf')).
Proof.
  intros [Hlen Hidx] Hconf Hconfb.
  assert (Hes : forall c x, index (cfConfs wb) c = Some x ->
                            is_Some (index (entries wb) c)).
  { intros c x Hc. apply in_range_index. apply index_in_range in Hc.
    unfold in_range in *. rewrite Hlen. exact Hc. }
  split.
  - destruct (Hes _ _ Hconf) as [es Hcf].
    unfold Put. rewrite Hconf. simpl.
    pose proof (checkVersion_mismatch conf (y.Version v)) as Hcheck.
    destruct (checkVersion conf (y.Version v)) as [e|].
    + exists wb, (Some e), es. split; [reflexivity|]. split; [assumption|].
      split; [exact Hcheck | discriminate].
    + destruct (appendEntry_ok wb cf k v
                  (int64 (int64 (Z.of_nat (length k) + y.EncodedSize v)
                          + memtable.EstimateNodeSize)) es Hidx Hcf)
        as (wb' & -> & Hnew & Hother & _).
      simpl. exists wb', None, es. split; [reflexivity|]. split; [assumption|].
      split; [exact Hcheck|]. intros _. split; assumption.
  - destruct (Hes _ _ Hconfb) as [es Hcf].
    unfold Delete. rewrite Hconfb. simpl.
    pose proof (checkVersion_mismatch confb version) as Hcheck.
    destruct (checkVersion confb version) as [e|].
    + exists wb, (Some e), es. split; [reflexivity|]. split; [assumption|].
      split; [exact Hcheck | discriminate].
    + destruct (appendEntry_ok wb (Z.of_N (Byte.to_N cfb)) k (tombstone version)
                  (int64 (Z.of_nat (length k) + memtable.EstimateNodeSize))
                  es Hidx Hcf)
        as (wb' & Happ & Hnew & Hother & _).
      unfold tombstone in Happ. rewrite Happ.
      simpl. exists wb', None, es. split; [reflexivity|]. split; [assumption|].
      split; [exact Hcheck|]. intros _. split; assumption.
Qed.

(** [batch_ok] is an invariant of the batch operations (as long as the
    arena index stays below the largest [int], which memory ensures). *)
Lemma appendEntry_keeps_ok wb cf k v size wb' :
  batch_ok wb -> entryArenaIdx wb < MaxInt64 ->
  appendEntry wb cf k v size = Some wb' -> batch_ok wb'.
Proof.
  intros [Hlen Hidx] Hmax. unfold appendEntry, allocEntry.
  destruct (index (entries wb) cf) as [es|]; simpl; [|discriminate].
  set (arena := if _ <=? _ then _ else _).
  assert (Harena : entryArenaIdx wb + 1 <= Z.of_nat (length arena)).
  { unfold arena.
    destruct (Z.leb_spec (Z.of_nat (length (entryArena wb))) (entryArenaIdx wb)).
    - rewrite length_app. cbn [length]. rewrite length_replicate. lia.
    - lia. }
  destruct (index arena (entryArenaIdx wb)); simpl; [|discriminate].
  intros Heq. injection Heq as <-. split; simpl.
  - unfold store. rewrite length_insert. exact Hlen.
  - unfold store. rewrite length_insert.
    rewrite int64_small by (unfold MaxInt64 in *; lia). lia.
Qed.

Lemma Put_keeps_ok wb cf k v wb' err :
  batch_ok wb -> entryArenaIdx wb < MaxInt64 ->
  Put wb cf k v = Some (wb', err) -> batch_ok wb'.
Proof.
  intros Hok Hmax. unfold Put.
  destruct (index (cfConfs wb) cf) as [conf|]; simpl; [|discriminate].
  destruct (checkVersion conf (y.Version v)).
  - intros Heq. injection Heq as <- _. exact Hok.
  - destruct (appendEntry wb cf k v _) as [wb1|] eqn:Happ; simpl;
      [|discriminate].
    intros Heq. injection Heq as <- _.
    eapply appendEntry_keeps_ok; eassumption.
Qed.

Lemma Delete_keeps_ok wb cfb k version wb' err :
  batch_ok wb -> entryArenaIdx wb < MaxInt64 ->
  Delete wb cfb k version = Some (wb', err) -> batch_ok wb'.
Proof.
  intros Hok Hmax. unfold Delete.
  destruct (index (cfConfs wb) _) as [conf|]; simpl; [|discriminate].
  destruct (checkVersion conf version).
  - intros Heq. injection Heq as <- _. exact Hok.
  - destruct (appendEntry wb _ k _ _) as [wb1|] eqn:Happ; simpl;
      [|discriminate].
    intros Heq. injection Heq as <- _.
    eapply appendEntry_keeps_ok; eassumption.
Qed.

Lemma Reset_keeps_ok wb : batch_ok wb -> batch_ok (Reset wb).
Proof.
  intros [Hlen Hidx]. split; simpl; [|lia].
  rewrite length_fmap. exact Hlen.
Qed.

Lemma unchanged_refl wb : unchanged wb wb.
Proof. repeat split. Qed.

Lemma appended_no_error (r : option WriteBatch) (wb' : WriteBatch) (e : error) :
  (wb1 ← r; Some (wb1, @None error)) = Some (wb', Some e) -> False.
Proof. destruct r; simpl; intros Heq; inversion Heq. Qed.

(** C9: a [Put] or [Delete] whose version does not fit the column family
    returns an error and the batch as it was; and whenever either returns
    an error, the batch after the call is the batch before it: the entry
    lists, [EstimatedSize], [NumEntries], the properties and the entry pool
    are the same. *)
Theorem rejected_write_keeps_batch wb cf cfb k v version :
  (forall conf, index (cfConfs wb) cf = Some conf ->
                mismatch conf (y.Version v) ->
                exists e, Put wb cf k v = Some (wb, Some e))
  /\ (forall conf, index (cfConfs wb) (Z.of_N (Byte.to_N cfb)) = Some conf ->
                   mismatch conf version ->
                   exists e, Delete wb cfb k version = Some (wb, Some e))
  /\ (forall wb' e, Put wb cf k v = Some (wb', Some e) -> unchanged wb wb')
  /\ (forall wb' e, Delete wb cfb k version = Some (wb', Some e) ->
                    unchanged wb wb').
Proof.
  split; [|split; [|split]].
  - intros conf Hconf Hm. unfold Put. rewrite Hconf. simpl.
    apply checkVersion_mismatch in Hm as [e ->]. eauto.
  - intros conf Hconf Hm. unfold Delete. rewrite Hconf. simpl.
    apply checkVersion_mismatch in Hm as [e ->]. eauto.
  - intros wb' e. unfold Put.
    destruct (index (cfConfs wb) cf) as [conf|]; simpl; [|discriminate].
    destruct (checkVersion conf (y.Version v)) as [e'|].
    + intros Heq. injection Heq as <- _. apply unchanged_refl.
    + intros Heq. exfalso.
      eapply appended_no_error. exact Heq.
  - intros wb' e. unfold Delete.
    destruct (index (cfConfs wb) _) as [conf|]; simpl; [|discriminate].
    destruct (checkVersion conf version) as [e'|].
    + intros Heq. injection Heq as <- _. apply unchanged_refl.
    + intros Heq. exfalso.
      eapply appended_no_error. exact Heq.
Qed.

Lemma clearProperties_empty (m : gmap string bytes) : clearProperties m = ∅.
Proof.
  unfold clearProperties. apply map_eq. intros name.
  rewrite lookup_empty.
  destruct (m !! name) as [x|] eqn:Hm.
  - apply lookup_foldr_delete.
    apply list_elem_of_fmap. exists (name, x). split; [reflexivity|].
    apply elem_of_map_to_list. exact Hm.
  - destruct (foldr delete m (map_to_list m).*1 !! name) as [x|] eqn:Hf;
      [|reflexivity].
    apply lookup_foldr_delete_Some in Hf as [_ Hf]. congruence.
Qed.

Lemma fmap_take_0 {A} (l : list (list A)) :
  (fun es => take 0 es) <$> l = replicate (length l) [].
Proof.
  induction l as [|x l IH]; [reflexivity|].
  cbn [fmap list_fmap length replicate take]. f_equal. exact IH.
Qed.

Lemma NumEntries_replicate n :
  fold_left (fun n (es : list memtable.Entry) =>
               int64 (n + Z.of_nat (length es))) (replicate n []) 0
  = 0.
Proof.
  induction n as [|n IH]; [reflexivity|].
  exact IH.
Qed.

Lemma index_replicate {A} n (x : A) i :
  index (replicate n x) i
  = if in_range (replicate n x) i then Some x else None.
Proof.
  unfold index, in_range. rewrite length_replicate.
  destruct (Z.ltb_spec i 0) as [Hneg|Hnn].
  - destruct (Z.leb_spec 0 i); [lia | reflexivity].
  - destruct (Z.leb_spec 0 i); [|lia]. simpl.
    destruct (Z.ltb_spec i (Z.of_nat n)).
    + apply lookup_replicate_2. lia.
    + apply lookup_ge_None. rewrite length_replicate. lia.
Qed.

(** C10: after [Reset] a batch shows what a freshly created batch for the
    same column families shows: [NumEntries] and [EstimatedSize] are 0, the
    properties map is empty, and [Iterate] visits no entry, for any column
    family and any visitor (for an index that is no column family it
    panics, as on the fresh batch). *)
Theorem Reset_is_like_new wb cf fn :
  NumEntries (Reset wb) = 0
  /\ EstimatedSize (Reset wb) = 0
  /\ properties (Reset wb) = ∅
  /\ Iterate (Reset wb) cf fn
     = (if in_range (entries wb) cf then Some [] else None)
  /\ NumEntries (Reset wb) = NumEntries (fresh_like wb)
  /\ EstimatedSize (Reset wb) = EstimatedSize (fresh_like wb)
  /\ properties (Reset wb) = properties (fresh_like wb)
  /\ Iterate (Reset wb) cf fn = Iterate (fresh_like wb) cf fn
  /\ entries (Reset wb) = entries (fresh_like wb).
Proof.
  assert (Hentries : entries (Reset wb) = replicate (length (entries wb)) [])
    by apply fmap_take_0.
  assert (Hnum : forall b, entries b = replicate (length (entries wb)) [] ->
                           NumEntries b = 0).
  { intros b Hb. unfold NumEntries. rewrite Hb. apply NumEntries_replicate. }
  assert (Hiter : forall b, entries b = replicate (length (entries wb)) [] ->
            Iterate b cf fn = if in_range (entries wb) cf then Some [] else None).
  { intros b Hb. unfold Iterate. rewrite Hb, index_replicate.
    unfold in_range. rewrite length_replicate.
    destruct (_ && _); reflexivity. }
  repeat split.
  - apply Hnum, Hentries.
  - apply clearProperties_empty.
  - apply Hiter, Hentries.
  - rewrite (Hnum _ Hentries). symmetry. apply Hnum. reflexivity.
  - apply clearProperties_empty.
  - rewrite (Hiter _ Hentries). symmetry. apply Hiter. reflexivity.
  - exact Hentries.
Qed.

(** ** Facts about triggering a flush *)

Lemma flushFrom_sends sh active imms : forall i ch,
  (i <= length imms)%nat ->
  flushFrom sh (active :: imms) i ch = Some (ch ++ tasks sh (reverse (take i imms))).
Proof.
  induction i as [|i IH]; intros ch Hi.
  - simpl. rewrite app_nil_r. reflexivity.
  - cbn [flushFrom].
    destruct (lookup_lt_is_Some_2 imms i) as [t Ht]; [lia|].
    change ((active :: imms) !! S i) with (imms !! i). rewrite Ht.
    cbn [mbind option_bind]. rewrite IH by lia.
    rewrite (take_S_r _ _ _ Ht), reverse_snoc. unfold send, tasks. simpl.
    rewrite <- app_assoc. reflexivity.
Qed.

(** The loop of [TriggerFlush] on a shard with an active memtable. *)
Lemma TriggerFlush_loop (en : Engine) sh skipCnt active imms :
  0 <= skipCnt <= MaxInt64 ->
  Z.of_nat (length imms) < MaxInt64 ->
  let i := int64 (int64 (Z.of_nat (length (active :: imms)) - skipCnt) - 1) in
  (if 0 <? i then flushFrom sh (active :: imms) (Z.to_nat i) (flushCh en)
   else Some (flushCh en))
  = Some (flushCh en ++ tasks sh (skips_oldest imms skipCnt)).
Proof.
  intros Hskip Hlen. cbv zeta. cbn [length].
  unfold MaxInt64 in *.
  rewrite (int64_small (Z.of_nat (S (length imms)) - skipCnt))
    by (unfold MaxInt64; lia).
  rewrite int64_small by (unfold MaxInt64; lia).
  unfold skips_oldest.
  destruct (Z.ltb_spec 0 (Z.of_nat (S (length imms)) - skipCnt - 1)) as [Hpos|Hle].
  - rewrite flushFrom_sends by lia.
    replace (Z.to_nat (Z.of_nat (S (length imms)) - skipCnt - 1))
      with (length imms - Z.to_nat skipCnt)%nat by lia.
    reflexivity.
  - replace (length imms - Z.to_nat skipCnt)%nat with 0%nat by lia.
    simpl. rewrite app_nil_r. reflexivity.
Qed.

Lemma TriggerFlush_active (en : Engine) sh skipCnt active imms :
  memTbls sh = active :: imms ->
  0 <= skipCnt <= MaxInt64 ->
  Z.of_nat (length imms) < MaxInt64 ->
  TriggerFlush en sh skipCnt
  = match imms with
    | [] =>
        if memtable.Empty active then
          if negb (initialFlushed sh)
          then Some (sent en (tasks sh [placeholder en sh]), (allocCommitTS sh).2)
          else Some (sent en [], sh)
        else Some (sent en [], sh)
    | _ :: _ => Some (sent en (tasks sh (skips_oldest imms skipCnt)), sh)
    end.
Proof.
  intros Hmems Hskip Hlen. unfold TriggerFlush. rewrite Hmems.
  pose proof (TriggerFlush_loop en sh skipCnt active imms Hskip Hlen) as Hloop.
  cbv zeta in Hloop. rewrite Hloop. cbn [mbind option_bind].
  destruct imms as [|m imms]; [|reflexivity].
  unfold skips_oldest, sent, placeholder. simpl.
  destruct (memtable.Empty active); [|reflexivity].
  destruct (initialFlushed sh); simpl; [reflexivity|].
  destruct (allocCommitTS sh) as [commitTS sh']. simpl.
  unfold send, tasks. simpl. rewrite app_nil_r. reflexivity.
Qed.

(** The [j]-th memtable sent is the one [j] places below the loop's first
    index [n = k - skipCnt]: indices [n], [n - 1], ..., 1 of the slice. *)
Lemma skips_oldest_lookup active imms skipCnt j :
  let n := (length imms - Z.to_nat skipCnt)%nat in
  (j < n)%nat ->
  skips_oldest imms skipCnt !! j = (active :: imms) !! (n - j)%nat.
Proof.
  cbv zeta. intros Hj. unfold skips_oldest.
  rewrite reverse_lookup by (rewrite length_take; lia).
  rewrite length_take, lookup_take_lt by lia.
  replace (length imms - Z.to_nat skipCnt - j)%nat
    with (S (length imms - Z.to_nat skipCnt - S j)) by lia.
  simpl. f_equal. lia.
Qed.

Lemma tasks_from sh (l imms : list memtable.Table) :
  l ⊆ imms -> Forall (fun task => tbl task ∈ imms) (tasks sh l).
Proof.
  intros Hsub. unfold tasks. apply Forall_fmap, Forall_forall.
  intros t Ht. simpl. apply Hsub, Ht.
Qed.

Lemma skips_oldest_from imms skipCnt : skips_oldest imms skipCnt ⊆ imms.
Proof.
  unfold skips_oldest. intros t Ht.
  rewrite elem_of_reverse in Ht. eapply subseteq_take. exact Ht.
Qed.

(** C3 (amended): on a shard with the active memtable at index 0 and the
    immutable ones [imms] behind it (higher index = sealed earlier), and for
    [skipCnt >= 0], [TriggerFlush] sends to the flush channel the immutable
    memtables except the [skipCnt] sealed earliest (those at the highest
    indices), oldest first: the [j]-th one sent is the memtable at index
    [k - skipCnt - j] of the slice, from index [k - skipCnt] down to 1. With
    immutable memtables present nothing else is sent and the shard is as
    before (without any, only the placeholder for an empty shard may
    follow). *)
Theorem TriggerFlush_skips_oldest (en : Engine) sh skipCnt active imms :
  memTbls sh = active :: imms ->
  0 <= skipCnt <= MaxInt64 ->
  Z.of_nat (length imms) < MaxInt64 ->
  exists en' sh' extra,
    TriggerFlush en sh skipCnt = Some (en', sh')
    /\ flushCh en'
       = flushCh en
         ++ tasks sh (reverse (take (length imms - Z.to_nat skipCnt) imms))
         ++ extra
    /\ (imms ≠ [] -> extra = [] /\ sh' = sh)
    /\ (extra = [] \/ extra = tasks sh [placeholder en sh])
    /\ (forall j, (j < length imms - Z.to_nat skipCnt)%nat ->
          reverse (take (length imms - Z.to_nat skipCnt) imms) !! j
          = memTbls sh !! (length imms - Z.to_nat skipCnt - j)%nat).
Proof.
  intros Hmems Hskip Hlen.
  rewrite (TriggerFlush_active en sh skipCnt active imms Hmems Hskip Hlen).
  fold (skips_oldest imms skipCnt).
  assert (Hidx : forall j, (j < length imms - Z.to_nat skipCnt)%nat ->
            skips_oldest imms skipCnt !! j
            = memTbls sh !! (length imms - Z.to_nat skipCnt - j)%nat).
  { intros j Hj. rewrite Hmems. apply skips_oldest_lookup. exact Hj. }
  destruct imms as [|m imms].
  - assert (Hnone : skips_oldest [] skipCnt = []).
    { unfold skips_oldest. rewrite take_nil. reflexivity. }
    rewrite Hnone in *.
    destruct (memtable.Empty active); [destruct (initialFlushed sh)|]; simpl.
    + exists (sent en []), sh, [].
      split; [reflexivity|]. split; [reflexivity|]. repeat split; eauto.
    + exists (sent en (tasks sh [placeholder en sh])), (allocCommitTS sh).2,
        (tasks sh [placeholder en sh]).
      split; [reflexivity|]. split; [reflexivity|].
      split; [intros Hne; contradiction|]. split; eauto.
    + exists (sent en []), sh, [].
      split; [reflexivity|]. split; [reflexivity|]. repeat split; eauto.
  - exists (sent en (tasks sh (skips_oldest (m :: imms) skipCnt))), sh, [].
    split; [reflexivity|]. split; [simpl; rewrite app_nil_r; reflexivity|].
    repeat split; eauto.
Qed.

Lemma NewCFTable_Empty n : memtable.Empty (memtable.NewCFTable n) = true.
Proof.
  unfold memtable.Empty, memtable.NewCFTable. simpl.
  induction n as [|n IH]; [reflexivity|].
  change (replicate (S n) memtable.newSkiplist)
    with (memtable.newSkiplist :: replicate n memtable.newSkiplist).
  cbn [memtable.all_empty]. rewrite newSkiplist_Empty. exact IH.
Qed.

(** C6: on a shard whose memtable slice is one empty memtable,
    [TriggerFlush] sends a placeholder (a new memtable, empty, carrying a
    newly allocated commit version) exactly when the shard has not had its
    initial flush, and nothing otherwise; in every other state of the shard
    all it sends are immutable memtables of the shard, and no commit
    version is allocated. *)
Theorem TriggerFlush_placeholder (en : Engine) sh skipCnt :
  0 <= skipCnt <= MaxInt64 ->
  Z.of_nat (length (memTbls sh)) <= MaxInt64 ->
  (forall m, memTbls sh = [m] -> memtable.Empty m = true ->
     TriggerFlush en sh skipCnt
     = if initialFlushed sh then Some (sent en [], sh)
       else Some (sent en (tasks sh [placeholder en sh]),
                  (allocCommitTS sh).2))
  /\ memtable.Empty (placeholder en sh) = true
  /\ memtable.GetVersion (placeholder en sh) = (allocCommitTS sh).1
  /\ ((forall m, memTbls sh = [m] -> memtable.Empty m = false) ->
      exists more,
        TriggerFlush en sh skipCnt = Some (sent en more, sh)
        /\ Forall (fun task => tbl task ∈ drop 1 (memTbls sh)) more).
Proof.
  intros Hskip Hlen. split; [|split; [|split]].
  - intros m Hm Hempty.
    rewrite (TriggerFlush_active en sh skipCnt m [] Hm Hskip)
      by (simpl; unfold MaxInt64; lia).
    rewrite Hempty. destruct (initialFlushed sh); reflexivity.
  - unfold placeholder, memtable.Empty, memtable.SetVersion. simpl.
    apply NewCFTable_Empty.
  - reflexivity.
  - intros Hother. destruct (memTbls sh) as [|active imms] eqn:Hmems.
    + exists []. split; [|constructor].
      unfold TriggerFlush. rewrite Hmems. cbn [length].
      rewrite (int64_small (Z.of_nat 0 - skipCnt)) by (unfold MaxInt64 in *; lia).
      rewrite int64_small by (unfold MaxInt64 in *; lia).
      destruct (Z.ltb_spec 0 (Z.of_nat 0 - skipCnt - 1)); [lia|].
      unfold sent. simpl. rewrite app_nil_r. reflexivity.
    + rewrite (TriggerFlush_active en sh skipCnt active imms Hmems Hskip)
        by (simpl in Hlen; lia).
      destruct imms as [|m imms].
      * rewrite (Hother active eq_refl). exists []. split; [reflexivity|constructor].
      * exists (tasks sh (skips_oldest (m :: imms) skipCnt)).
        split; [reflexivity|]. apply tasks_from, skips_oldest_from.
Qed.

(** ** Sequences of batch operations *)

(** A call on a write batch. *)
Inductive Op : Type :=
| OpPut (cf : Z) (k : bytes) (v : y.ValueStruct)
| OpDelete (cf : byte) (k : bytes) (version : Z)
| OpSetProperty (name : string) (v : bytes)
| OpReset.

(** One call: the batch after it and the error it returns. *)
Definition step (wb : WriteBatch) (op : Op)
  : option (WriteBatch * option error) :=
  match op with
  | OpPut cf k v => Put wb cf k v
  | OpDelete cf k version => Delete wb cf k version
  | OpSetProperty name v => Some (SetProperty wb name v, None)
  | OpReset => Some (Reset wb, None)
  end.

(** The calls one after the other, by a caller that goes on after an
    error; [None] when one of them panics. *)
Fixpoint run (wb : WriteBatch) (ops : list Op) : option WriteBatch :=
  match ops with
  | [] => Some wb
  | op :: rest => '(wb1, _) ← step wb op; run wb1 rest
  end.

(** [memtable.Entry.EstimateSize] *)
Definition EstimateSize (e : memtable.Entry) : Z :=
  int64 (int64 (Z.of_nat (length (memtable.Key e))
                + y.EncodedSize (memtable.Value e))
         + memtable.EstimateNodeSize).

(** Whether a write of [version] to [cf] passes the version rule. *)
Definition accepted (confs : list CFConfig) (cf version : Z) : bool :=
  match index confs cf with
  | Some conf => match checkVersion conf version with
                 | None => true
                 | Some _ => false
                 end
  | None => false
  end.

(** The entries that the calls [ops] leave for [cf], after the entries
    [acc]: those of the accepted writes to [cf] since the last reset, in
    call order. *)
Fixpoint written (confs : list CFConfig) (cf : Z) (ops : list Op)
    (acc : list memtable.Entry) : list memtable.Entry :=
  match ops with
  | [] => acc
  | OpPut c k v :: rest =>
      written confs cf rest
        (if (c =? cf) && accepted confs c (y.Version v)
         then acc ++ [{| memtable.Key := k; memtable.Value := v |}]
         else acc)
  | OpDelete cb k version :: rest =>
      written confs cf rest
        (if (Z.of_N (Byte.to_N cb) =? cf)
            && accepted confs (Z.of_N (Byte.to_N cb)) version
         then acc ++ [{| memtable.Key := k;
                         memtable.Value := tombstone version |}]
         else acc)
  | OpSetProperty _ _ :: rest => written confs cf rest acc
  | OpReset :: rest => written confs cf rest []
  end.

(** The sizes that the calls [ops] add to [acc]: the estimated size of the
    entry for an accepted put, the key and a skiplist node for an accepted
    delete, back to 0 at a reset. *)
Fixpoint charged (confs : list CFConfig) (ops : list Op) (acc : Z) : Z :=
  match ops with
  | [] => acc
  | OpPut c k v :: rest =>
      charged confs rest
        (if accepted confs c (y.Version v)
         then acc + EstimateSize {| memtable.Key := k; memtable.Value := v |}
         else acc)
  | OpDelete cb k version :: rest =>
      charged confs rest
        (if accepted confs (Z.of_N (Byte.to_N cb)) version
         then acc + (Z.of_nat (length k) + memtable.EstimateNodeSize)
         else acc)
  | OpSetProperty _ _ :: rest => charged confs rest acc
  | OpReset :: rest => charged confs rest 0
  end.

(** The entries of the batch are the arena's slots below the index. *)
Definition arena_backed (wb : WriteBatch) : Prop :=
  0 <= entryArenaIdx wb <= Z.of_nat (length (entryArena wb))
  /\ concat (entries wb)
     ≡ₚ take (Z.to_nat (entryArenaIdx wb)) (entryArena wb).

Lemma int64_add_l a b : int64 (int64 a + b) = int64 (a + b).
Proof. unfold int64. Z.div_mod_to_equations. lia. Qed.

Lemma int64_add_r a b : int64 (a + int64 b) = int64 (a + b).
Proof. unfold int64. Z.div_mod_to_equations. lia. Qed.

Lemma int64_idemp a : int64 (int64 a) = int64 a.
Proof. unfold int64. Z.div_mod_to_equations. lia. Qed.

Lemma concat_store_snoc {A} (l : list (list A)) cf es (e : A) :
  index l cf = Some es ->
  concat (store l cf (es ++ [e])) ≡ₚ concat l ++ [e].
Proof.
  unfold index, store. destruct (cf <? 0); [discriminate|]. intros Hl.
  rewrite <- (take_drop_middle l _ _ Hl) at 2.
  rewrite insert_take_drop by (eapply lookup_lt_Some; exact Hl).
  rewrite !concat_app, !concat_cons, <- !app_assoc.
  apply Permutation_app_head, Permutation_app_head, Permutation_app_comm.
Qed.

Lemma appendEntry_arena wb cf k v size wb' :
  arena_backed wb -> entryArenaIdx wb < MaxInt64 ->
  appendEntry wb cf k v size = Some wb' ->
  arena_backed wb' /\ entryArenaIdx wb' = entryArenaIdx wb + 1.
Proof.
  intros [Hidx Hperm] Hmax. unfold appendEntry, allocEntry.
  destruct (index (entries wb) cf) as [es|] eqn:Hes; simpl; [|discriminate].
  set (arena := if _ <=? _ then _ else _).
  assert (Harena : entryArenaIdx wb + 1 <= Z.of_nat (length arena)
                   /\ take (Z.to_nat (entryArenaIdx wb)) arena
                      = take (Z.to_nat (entryArenaIdx wb)) (entryArena wb)).
  { unfold arena.
    destruct (Z.leb_spec (Z.of_nat (length (entryArena wb))) (entryArenaIdx wb)).
    - rewrite length_app. cbn [length]. rewrite length_replicate.
      split; [lia|]. apply take_app_le. lia.
    - split; [lia | reflexivity]. }
  destruct Harena as [Hroom Htake].
  destruct (index arena (entryArenaIdx wb)); simpl; [|discriminate].
  intros Heq. injection Heq as <-. unfold arena_backed.
  cbn [entryArenaIdx entryArena entries].
  rewrite (int64_small (entryArenaIdx wb + 1))
    by (unfold MaxInt64 in *; lia).
  split; [|reflexivity]. split.
  - unfold store. rewrite length_insert. lia.
  - rewrite (concat_store_snoc _ _ _ _ Hes), Hperm. unfold store.
    replace (Z.to_nat (entryArenaIdx wb + 1))
      with (S (Z.to_nat (entryArenaIdx wb))) by lia.
    rewrite (take_S_r _ _ {| memtable.Key := k; memtable.Value := v |})
      by (apply list_lookup_insert_eq; lia).
    rewrite take_insert_ge by lia. rewrite Htake. reflexivity.
Qed.

Lemma step_arena wb op wb' err :
  arena_backed wb -> entryArenaIdx wb < MaxInt64 ->
  step wb op = Some (wb', err) ->
  arena_backed wb' /\ entryArenaIdx wb' <= entryArenaIdx wb + 1.
Proof.
  intros Hok Hmax. destruct op as [cf k v|cb k version|name v|]; cbn [step].
  - unfold Put.
    destruct (index (cfConfs wb) cf) as [conf|]; simpl; [|discriminate].
    destruct (checkVersion conf (y.Version v)).
    + intros Heq. injection Heq as <- _. split; [exact Hok | lia].
    + destruct (appendEntry wb cf k v _) as [wb1|] eqn:Happ; simpl;
        [|discriminate].
      intros Heq. injection Heq as <- _.
      destruct (appendEntry_arena _ _ _ _ _ _ Hok Hmax Happ) as [Hok' ->].
      split; [exact Hok' | lia].
  - unfold Delete.
    destruct (index (cfConfs wb) _) as [conf|]; simpl; [|discriminate].
    destruct (checkVersion conf version).
    + intros Heq. injection Heq as <- _. split; [exact Hok | lia].
    + destruct (appendEntry wb _ k _ _) as [wb1|] eqn:Happ; simpl;
        [|discriminate].
      intros Heq. injection Heq as <- _.
      destruct (appendEntry_arena _ _ _ _ _ _ Hok Hmax Happ) as [Hok' ->].
      split; [exact Hok' | lia].
  - intros Heq. injection Heq as <- _. split; [exact Hok | simpl; lia].
  - intros Heq. injection Heq as <- _. destruct Hok as [Hidx _].
    split; [|simpl; lia]. split; simpl; [lia|].
    rewrite fmap_take_0. clear.
    induction (length (entries wb)) as [|n IH]; [reflexivity | exact IH].
Qed.

Lemma run_arena ops : forall wb wb',
  arena_backed wb ->
  entryArenaIdx wb + Z.of_nat (length ops) <= MaxInt64 ->
  run wb ops = Some wb' ->
  arena_backed wb'
  /\ entryArenaIdx wb' <= entryArenaIdx wb + Z.of_nat (length ops).
Proof.
  induction ops as [|op ops IH]; intros wb wb' Hok Hmax Hrun.
  - injection Hrun as <-. split; [exact Hok | simpl; lia].
  - cbn [run length] in *.
    destruct (step wb op) as [[wb1 err]|] eqn:Hstep; simpl in Hrun;
      [|discriminate].
    destruct (step_arena _ _ _ _ Hok ltac:(lia) Hstep) as [Hok1 Hidx1].
    destruct (IH wb1 wb' Hok1 ltac:(lia) Hrun) as [Hok' Hidx'].
    split; [exact Hok' | lia].
Qed.

Lemma NumEntries_sum (l : list (list memtable.Entry)) : forall acc,
  0 <= acc -> acc + Z.of_nat (length (concat l)) <= MaxInt64 ->
  fold_left (fun n es => int64 (n + Z.of_nat (length es))) l acc
  = acc + Z.of_nat (length (concat l)).
Proof.
  induction l as [|es l IH]; intros acc Hacc Hmax;
    cbn [fold_left concat] in *; [simpl; lia|].
  rewrite length_app in *.
  rewrite int64_small by (unfold MaxInt64 in *; lia).
  rewrite IH by lia. lia.
Qed.

(** X4: in every batch built through the API the entries listed for the
    column families are, together, exactly the arena's slots below
    [entryArenaIdx]: each accepted write owns one slot, no slot backs two
    entries, and [NumEntries] is the arena index. *)
Theorem batch_entries_fill_arena (en : Engine) (sh : Shard) (ops : list Op)
    (wb : WriteBatch)
  (Hcalls : Z.of_nat (length ops) <= MaxInt64)
  (Hrun : run (NewWriteBatch en sh) ops = Some wb) :
  concat (entries wb) ≡ₚ take (Z.to_nat (entryArenaIdx wb)) (entryArena wb)
  /\ 0 <= entryArenaIdx wb <= Z.of_nat (length (entryArena wb))
  /\ NumEntries wb = entryArenaIdx wb.
Proof.
  assert (Hnew : arena_backed (NewWriteBatch en sh)).
  { split; simpl; [lia|]. clear.
    induction (numCFs en) as [|n IH]; [reflexivity | exact IH]. }
  destruct (run_arena ops _ _ Hnew ltac:(simpl; lia) Hrun)
    as [[Hidx Hperm] Hle].
  simpl in Hle. split; [exact Hperm|]. split; [exact Hidx|].
  unfold NumEntries.
  assert (Hlen : Z.of_nat (length (concat (entries wb))) = entryArenaIdx wb).
  { rewrite Hperm, length_take. lia. }
  rewrite NumEntries_sum by lia. lia.
Qed.

Lemma visited_all (es : list memtable.Entry) :
  visited (fun _ => true) es = es.
Proof. induction es as [|e es IH]; simpl; [|rewrite IH]; reflexivity. Qed.

Lemma appendEntry_entries wb cf k v size wb' :
  appendEntry wb cf k v size = Some wb' ->
  cfConfs wb' = cfConfs wb
  /\ length (entries wb') = length (entries wb)
  /\ estimatedSize wb' = int64 (estimatedSize wb + size)
  /\ forall c, index (entries wb') c
       = if c =? cf
         then (fun es => es ++ [{| memtable.Key := k; memtable.Value := v |}])
                <$> index (entries wb) c
         else index (entries wb) c.
Proof.
  unfold appendEntry, allocEntry.
  destruct (index (entries wb) cf) as [es|] eqn:Hes; simpl; [|discriminate].
  destruct (index _ (entryArenaIdx wb)); simpl; [|discriminate].
  intros Heq. injection Heq as <-. cbn.
  split; [reflexivity|]. split; [apply length_insert|].
  split; [reflexivity|]. intros c.
  pose proof (index_in_range _ _ _ Hes) as Hr.
  destruct (Z.eqb_spec c cf) as [-> | Hne].
  - rewrite Hes. apply index_store_eq. exact Hr.
  - apply index_store_ne; [|congruence].
    unfold in_range in Hr. apply andb_true_iff in Hr as [Hr _].
    apply Z.leb_le in Hr. exact Hr.
Qed.

Lemma index_take_0 {A} (l : list (list A)) c :
  index ((fun es => take 0 es) <$> l) c = (fun _ => []) <$> index l c.
Proof.
  unfold index. destruct (c <? 0); [reflexivity|].
  rewrite list_lookup_fmap. destruct (l !! Z.to_nat c); reflexivity.
Qed.

Lemma charged_int64 confs ops : forall a b,
  int64 a = int64 b ->
  int64 (charged confs ops a) = int64 (charged confs ops b).
Proof.
  assert (Hadd : forall a b x, int64 a = int64 b ->
                               int64 (a + x) = int64 (b + x)).
  { intros a b x Hab.
    rewrite <- (int64_add_l a), <- (int64_add_l b), Hab. reflexivity. }
  induction ops as [|op ops IH]; intros a b Hab; [exact Hab|].
  destruct op as [cf k v|cb k version|name v|]; cbn [charged].
  - destruct (accepted confs cf (y.Version v)); apply IH; auto.
  - destruct (accepted confs _ version); apply IH; auto.
  - apply IH, Hab.
  - reflexivity.
Qed.

(** What a run of calls leaves in a batch, whatever the batch it starts
    from. *)
Lemma run_written ops : forall wb wb',
  run wb ops = Some wb' ->
  estimatedSize wb = int64 (estimatedSize wb) ->
  cfConfs wb' = cfConfs wb
  /\ length (entries wb') = length (entries wb)
  /\ (forall cf, index (entries wb') cf
        = written (cfConfs wb) cf ops <$> index (entries wb) cf)
  /\ estimatedSize wb'
     = int64 (charged (cfConfs wb) ops (estimatedSize wb)).
Proof.
  assert (Hrule : forall confs c version conf,
            index confs c = Some conf ->
            accepted confs c version
            = match checkVersion conf version with
              | None => true | Some _ => false end).
  { intros confs c version conf Hc. unfold accepted. rewrite Hc.
    reflexivity. }
  induction ops as [|op ops IH]; intros wb wb' Hrun Hnorm.
  - injection Hrun as <-. cbn [written charged].
    split; [reflexivity|]. split; [reflexivity|]. split; [|exact Hnorm].
    intros cf. destruct (index (entries wb) cf); reflexivity.
  - cbn [run] in Hrun.
    destruct (step wb op) as [[wb1 err]|] eqn:Hstep; simpl in Hrun;
      [|discriminate].
    specialize (IH wb1 wb' Hrun).
    destruct op as [cf k v|cb k version|name v|]; cbn [step] in Hstep.
    + unfold Put in Hstep.
      destruct (index (cfConfs wb) cf) as [conf|] eqn:Hconf; simpl in Hstep;
        [|discriminate].
      pose proof (Hrule _ _ (y.Version v) _ Hconf) as Hacc.
      destruct (checkVersion conf (y.Version v)).
      * injection Hstep as <- _.
        destruct (IH Hnorm) as (Hc & Hl & Hes & Hsz).
        split; [exact Hc|]. split; [exact Hl|]. split.
        -- intros c. rewrite Hes.
           destruct (index (entries wb) c); cbn; [|reflexivity].
           rewrite Hacc, andb_false_r. reflexivity.
        -- cbn [charged]. rewrite Hacc. exact Hsz.
      * destruct (appendEntry wb cf k v _) as [wb2|] eqn:Happ;
          simpl in Hstep; [|discriminate].
        injection Hstep as <- _.
        destruct (appendEntry_entries _ _ _ _ _ _ Happ)
          as (Hc2 & Hl2 & Hsz2 & Hes2).
        destruct IH as (Hc & Hl & Hes & Hsz).
        { rewrite Hsz2, int64_idemp. reflexivity. }
        rewrite Hc2 in *. split; [exact Hc|]. split; [congruence|]. split.
        -- intros c. rewrite Hes, Hes2, (Z.eqb_sym c cf).
           destruct (index (entries wb) c); cbn;
             rewrite ?Hacc, ?andb_true_r; destruct (cf =? c); reflexivity.
        -- cbn [charged]. rewrite Hacc, Hsz. apply charged_int64.
           rewrite Hsz2, int64_idemp.
           unfold EstimateSize. cbn [memtable.Key memtable.Value].
           reflexivity.
    + unfold Delete in Hstep.
      destruct (index (cfConfs wb) _) as [conf|] eqn:Hconf; simpl in Hstep;
        [|discriminate].
      pose proof (Hrule _ _ version _ Hconf) as Hacc.
      destruct (checkVersion conf version).
      * injection Hstep as <- _.
        destruct (IH Hnorm) as (Hc & Hl & Hes & Hsz).
        split; [exact Hc|]. split; [exact Hl|]. split.
        -- intros c. rewrite Hes.
           destruct (index (entries wb) c); cbn; [|reflexivity].
           rewrite Hacc, andb_false_r. reflexivity.
        -- cbn [charged]. rewrite Hacc. exact Hsz.
      * destruct (appendEntry wb _ k _ _) as [wb2|] eqn:Happ;
          simpl in Hstep; [|discriminate].
        injection Hstep as <- _.
        destruct (appendEntry_entries _ _ _ _ _ _ Happ)
          as (Hc2 & Hl2 & Hsz2 & Hes2).
        destruct IH as (Hc & Hl & Hes & Hsz).
        { rewrite Hsz2, int64_idemp. reflexivity. }
        rewrite Hc2 in *. split; [exact Hc|]. split; [congruence|]. split.
        -- intros c. rewrite Hes, Hes2, (Z.eqb_sym c).
           destruct (index (entries wb) c); cbn;
             rewrite ?Hacc, ?andb_true_r;
             destruct (Z.of_N (Byte.to_N cb) =? c); reflexivity.
        -- cbn [charged]. rewrite Hacc, Hsz. apply charged_int64.
           rewrite Hsz2, int64_idemp. apply int64_add_r.
    + injection Hstep as <- _.
      destruct (IH Hnorm) as (Hc & Hl & Hes & Hsz).
      split; [exact Hc|]. split; [exact Hl|]. split; [|exact Hsz].
      intros c. rewrite Hes. cbn.
      destruct (index (entries wb) c); reflexivity.
    + injection Hstep as <- _.
      destruct IH as (Hc & Hl & Hes & Hsz); [reflexivity|]. cbn in Hc, Hl, Hsz.
      split; [exact Hc|]. split; [rewrite Hl; apply length_fmap|].
      split; [|exact Hsz].
      intros c. rewrite Hes. cbn [Reset entries cfConfs].
      rewrite index_take_0.
      destruct (index (entries wb) c); reflexivity.
Qed.

(** X5: [Iterate] shows the accepted writes in call order.  After any
    calls on a new batch, iterating a column family visits the entries of
    the puts and deletes to it that passed the version rule since the last
    reset, in the order of the calls, up to the first one the visitor
    stops at; rejected writes, writes to other column families and
    properties leave no entry.  Outside the engine's column families the
    iteration panics. *)
Theorem Iterate_visits_writes_in_order (en : Engine) (sh : Shard)
    (ops : list Op) (wb : WriteBatch) (cf : Z)
    (fn : memtable.Entry -> bool)
  (Hrun : run (NewWriteBatch en sh) ops = Some wb) :
  Iterate wb cf fn
  = if (0 <=? cf) && (cf <? Z.of_nat (numCFs en))
    then Some (visited fn (written (CFs (opt en)) cf ops []))
    else None.
Proof.
  destruct (run_written ops _ _ Hrun eq_refl) as (_ & _ & Hes & _).
  unfold Iterate. rewrite Hes. cbn [NewWriteBatch entries cfConfs].
  rewrite index_replicate. unfold in_range. rewrite length_replicate.
  destruct ((0 <=? cf) && (cf <? Z.of_nat (numCFs en))); reflexivity.
Qed.

(** X6: [EstimatedSize] is the sum, in [int64] arithmetic, of what the
    accepted writes since the last reset were charged: an accepted put the
    [EstimateSize] of its entry, an accepted delete the length of its key
    and one skiplist node (the encoded size of the tombstone is not
    counted); a rejected write and a property are charged nothing. *)
Theorem EstimatedSize_sums_accepted_writes (en : Engine) (sh : Shard)
    (ops : list Op) (wb : WriteBatch)
  (Hrun : run (NewWriteBatch en sh) ops = Some wb) :
  EstimatedSize wb = int64 (charged (CFs (opt en)) ops 0).
Proof.
  destruct (run_written ops _ _ Hrun eq_refl) as (_ & _ & _ & Hsz).
  exact Hsz.
Qed.

(** ** Several keys, and the hints *)

(** [Get] for each of the keys in turn, on the state the one before left:
    the results, in key order. *)
Fixpoint Get_calls (s : SnapAccess) (cf : Z) (keys : list bytes)
    (version : Z) : Reading (list (option Item * option error)) :=
  match keys with
  | [] => mret []
  | k :: rest =>
      r ← Get s cf k version;
      rs ← Get_calls s cf rest version;
      mret (r :: rs)
  end.

Lemma Get_error s cf k version st item err st' :
  Get s cf k version st = Some ((item, err), st') ->
  err = None \/ err = Some ErrKeyNotFound.
Proof.
  unfold Get. rewrite bind_run.
  destruct (getValue s cf k _ st) as [[vs st1]|]; [|discriminate].
  destruct (negb (y.Valid vs)); [|destruct (IsDeleted (y.Meta vs))];
    intros Heq; injection Heq as <- <- <-; auto.
Qed.

Lemma Get_version s cf k version :
  Get s cf k (if version =? 0 then MaxUint64 else version)
  = Get s cf k version.
Proof.
  unfold Get. destruct (Z.eqb_spec version 0) as [-> | Hne]; [reflexivity|].
  destruct (Z.eqb_spec version 0); [contradiction | reflexivity].
Qed.

Lemma MultiGet_loop_Get_calls s cf version keys : forall st,
  MultiGet_loop s cf keys version st
  = match Get_calls s cf keys version st with
    | Some (rs, st') => Some ((Some rs.*1, None), st')
    | None => None
    end.
Proof.
  induction keys as [|k keys IH]; intros st; [reflexivity|].
  cbn [MultiGet_loop Get_calls]. rewrite !bind_run.
  destruct (Get s cf k version st) as [[[item err] st1]|] eqn:Hget;
    [|reflexivity].
  assert (Hgo : (let '(item, err) := (item, err) in
           match err with
           | Some ErrKeyNotFound | None =>
               '(items, err') ← MultiGet_loop s cf keys version;
               mret (cons item <$> items, err')
           | Some e => mret (None, Some e)
           end) st1
          = ('(items, err') ← MultiGet_loop s cf keys version;
             mret (cons item <$> items, err')) st1).
  { destruct (Get_error _ _ _ _ _ _ _ _ Hget) as [-> | ->]; reflexivity. }
  rewrite Hgo, !bind_run, IH.
  destruct (Get_calls s cf keys version st1) as [[rs st2]|]; reflexivity.
Qed.

(** X7: [MultiGet] is [Get] for each key in turn.  It returns one slot
    per key, in key order, holding the item [Get] returns for that key (nil
    for a key not found), and its error is always nil: the early return on
    an error other than KeyNotFound never runs.  It panics exactly when one
    of the [Get]s does. *)
Theorem MultiGet_is_Get_per_key s cf keys version st :
  MultiGet s cf keys version st
  = match Get_calls s cf keys version st with
    | Some (rs, st') => Some ((Some rs.*1, None), st')
    | None => None
    end
  /\ forall rs st', Get_calls s cf keys version st = Some (rs, st') ->
       length rs = length keys.
Proof.
  split.
  - unfold MultiGet. rewrite MultiGet_loop_Get_calls.
    replace (Get_calls s cf keys (if version =? 0 then MaxUint64 else version))
      with (Get_calls s cf keys version); [reflexivity|].
    induction keys as [|k keys IH]; [reflexivity|].
    cbn [Get_calls]. rewrite Get_version, IH. reflexivity.
  - revert st. induction keys as [|k keys IH]; intros st rs st' Hrs.
    + injection Hrs as <- _. reflexivity.
    + cbn [Get_calls] in Hrs. rewrite bind_run in Hrs.
      destruct (Get s cf k version st) as [[r st1]|]; [|discriminate].
      rewrite bind_run in Hrs.
      destruct (Get_calls s cf keys version st1) as [[rs1 st2]|] eqn:Hrest;
        [|discriminate].
      injection Hrs as <- _. cbn [length]. f_equal. eapply IH. exact Hrest.
Qed.

(** The hints after a step are those before it, or those with the hint of
    [cf] replaced. *)
Definition hints_step (cf : Z) (st st' : ReadState memtable.Hint) : Prop :=
  rs_hints st' = rs_hints st
  \/ exists h, rs_hints st' = store (rs_hints st) cf h.

(** One more step of a read, in a hypothesis. *)
Ltac run_read_in Hrun :=
  repeat first
    [ rewrite bind_run in Hrun
    | progress cbn [lift mret Read_ret panic probed setHint getHint rs_hints
                    rs_probes mbind option_bind fst snd] in Hrun ].

Lemma probeMemTables_later_hints cf k version tbls : forall i r st st',
  i ≠ 0%nat ->
  probeMemTables i tbls cf k version st = Some (r, st') ->
  rs_hints st' = rs_hints st.
Proof.
  induction tbls as [|t tbls IH]; intros i r st st' Hi Hrun.
  - injection Hrun as _ <-. reflexivity.
  - cbn [probeMemTables] in Hrun. destruct i as [|i]; [congruence|].
    cbn [Nat.eqb] in Hrun. run_read_in Hrun.
    destruct (memtable.Get t cf k version) as [v|]; [|discriminate].
    run_read_in Hrun.
    destruct (y.Valid v).
    + injection Hrun as _ <-. reflexivity.
    + apply IH in Hrun; [|lia]. exact Hrun.
Qed.


(** The hints [hs'] are the hints [hs] except, at most, for the one of
    [cf]. *)
Definition same_hints_but (cf : Z) (hs hs' : list memtable.Hint) : Prop :=
  length hs' = length hs
  /\ forall cf', cf' ≠ cf -> index hs' cf' = index hs cf'.

Lemma same_hints_refl cf hs : same_hints_but cf hs hs.
Proof. split; [reflexivity | intros; reflexivity]. Qed.

Lemma same_hints_eq cf hs hs' : hs' = hs -> same_hints_but cf hs hs'.
Proof. intros ->. apply same_hints_refl. Qed.

Lemma same_hints_trans cf hs1 hs2 hs3 :
  same_hints_but cf hs1 hs2 -> same_hints_but cf hs2 hs3 ->
  same_hints_but cf hs1 hs3.
Proof.
  intros [Hl1 Hi1] [Hl2 Hi2]. split; [congruence|].
  intros cf' Hne. rewrite Hi2, Hi1 by exact Hne. reflexivity.
Qed.

Lemma probeL0Tables_hints cf k version kh tbls : forall i r st st',
  probeL0Tables i tbls cf k version kh st = Some (r, st') ->
  rs_hints st' = rs_hints st.
Proof.
  induction tbls as [|t tbls IH]; intros i r st st' Hrun.
  - injection Hrun as _ <-. reflexivity.
  - cbn [probeL0Tables] in Hrun. run_read_in Hrun.
    destruct (y.Valid (sstable.l0_Get t cf k version kh)).
    + injection Hrun as _ <-. reflexivity.
    + apply IH in Hrun. exact Hrun.
Qed.

Lemma probeLevels_hints scf k version kh : forall left i r st st',
  probeLevels scf left i k version kh st = Some (r, st') ->
  rs_hints st' = rs_hints st.
Proof.
  clear Valid_zero.
  induction left as [|left IH]; intros i r st st' Hrun.
  - injection Hrun as _ <-. reflexivity.
  - cbn [probeLevels] in Hrun. run_read_in Hrun.
    destruct (getLevelHandler scf i) as [l|]; run_read_in Hrun;
      [|discriminate].
    destruct (length (tables l) =? 0)%nat; [eapply IH; exact Hrun|].
    unfold levelHandler_get in Hrun. run_read_in Hrun.
    destruct (searchTable (tables l) k) as [j|]; run_read_in Hrun.
    + destruct (tables l !! j) as [t|]; run_read_in Hrun; [|discriminate].
      destruct (y.Valid (sstable.tbl_Get t k version kh)).
      * injection Hrun as _ <-. reflexivity.
      * apply IH in Hrun. exact Hrun.
    + destruct (y.Valid y.zero).
      * injection Hrun as _ <-. reflexivity.
      * apply IH in Hrun. exact Hrun.
Qed.

Lemma probeMemTables_hints cf k version tbls r st st' :
  probeMemTables 0 tbls cf k version st = Some (r, st') ->
  same_hints_but cf (rs_hints st) (rs_hints st').
Proof.
  destruct tbls as [|t tbls]; intros Hrun.
  - injection Hrun as _ <-. apply same_hints_refl.
  - cbn [probeMemTables Nat.eqb] in Hrun. run_read_in Hrun.
    unfold getHint in Hrun.
    destruct (index (rs_hints st) cf) as [h|] eqn:Hh; [|discriminate].
    run_read_in Hrun.
    destruct (memtable.GetWithHint t cf k version h) as [[v h']|];
      run_read_in Hrun; [|discriminate].
    assert (Hset : same_hints_but cf (rs_hints st)
                     (store (rs_hints st) cf h')).
    { split; [apply length_insert|]. intros cf' Hne.
      apply index_store_ne; [|congruence].
      apply index_in_range in Hh. unfold in_range in Hh.
      apply andb_true_iff in Hh as [Hh _]. apply Z.leb_le in Hh. exact Hh. }
    destruct (y.Valid v).
    + injection Hrun as _ <-. exact Hset.
    + apply probeMemTables_later_hints in Hrun; [|lia].
      cbn [rs_hints] in Hrun. rewrite Hrun. exact Hset.
Qed.

Lemma or_else_hints cf (c k : Reading (option y.ValueStruct)) st r st' :
  (forall r1 st1, c st = Some (r1, st1) ->
     same_hints_but cf (rs_hints st) (rs_hints st1)) ->
  (forall st1 r2 st2, k st1 = Some (r2, st2) ->
     same_hints_but cf (rs_hints st1) (rs_hints st2)) ->
  or_else c k st = Some (r, st') ->
  same_hints_but cf (rs_hints st) (rs_hints st').
Proof.
  intros Hc Hk. unfold or_else. rewrite bind_run.
  destruct (c st) as [[[v|] st1]|]; [| |discriminate].
  - intros Heq. injection Heq as _ <-. eapply Hc. reflexivity.
  - intros Hrun. eapply same_hints_trans; [eapply Hc; reflexivity|].
    eapply Hk. exact Hrun.
Qed.

Lemma getValue_hints s cf k version st v st' :
  getValue s cf k version st = Some (v, st') ->
  same_hints_but cf (rs_hints st) (rs_hints st')
  /\ (memTables s = [] -> rs_hints st' = rs_hints st).
Proof.
  unfold getValue. rewrite bind_run.
  destruct (or_else _ _ st) as [[r st1]|] eqn:Hrun; [|discriminate].
  intros Heq. injection Heq as _ <-. split.
  - revert Hrun. apply or_else_hints.
    { intros r1 st2 Hstep. apply same_hints_eq.
      eapply probeSplitting_hints. exact Hstep. }
    intros st2 r2 st3. apply or_else_hints.
    { intros r1 st4 Hstep. eapply probeMemTables_hints. exact Hstep. }
    intros st4 r3 st5. apply or_else_hints.
    { intros r1 st6 Hstep. apply same_hints_eq.
      eapply probeL0Tables_hints. exact Hstep. }
    intros st6 r4 st7. rewrite bind_run.
    destruct (index (cfs (shard s)) cf) as [scf|]; run_read; [|discriminate].
    intros Hstep. apply same_hints_eq. eapply probeLevels_hints. exact Hstep.
  - intros Hmem. rewrite Hmem in Hrun. unfold or_else in Hrun.
    rewrite bind_run in Hrun.
    destruct (probeSplitting s cf k version st) as [[[w|] st2]|] eqn:Hsp;
      [| |discriminate]; apply probeSplitting_hints in Hsp.
    + injection Hrun as _ <-. exact Hsp.
    + rewrite bind_run in Hrun. cbn [probeMemTables] in Hrun.
      run_read_in Hrun.
      destruct (probeL0Tables 0 (l0Tables s) cf k version (Fingerprint64 k)
                  st2) as [[[w|] st3]|] eqn:Hl0;
        [| |discriminate]; apply probeL0Tables_hints in Hl0.
      * injection Hrun as _ <-. congruence.
      * rewrite bind_run in Hrun.
        destruct (index (cfs (shard s)) cf) as [scf|]; run_read_in Hrun;
          [|discriminate].
        apply probeLevels_hints in Hrun. congruence.
Qed.

(** X8: a read touches no hint but its own.  When [Get] returns, the
    snapshot has as many hints as before and the hint of every other column
    family is what it was; on a snapshot without memtables no hint changes
    at all. *)
Theorem Get_touches_only_its_hint s cf k version st res st' :
  Get s cf k version st = Some (res, st') ->
  length (rs_hints st') = length (rs_hints st)
  /\ (forall cf', cf' ≠ cf ->
        index (rs_hints st') cf' = index (rs_hints st) cf')
  /\ (memTables s = [] -> rs_hints st' = rs_hints st).
Proof.
  unfold Get. rewrite bind_run.
  destruct (getValue s cf k _ st) as [[vs st1]|] eqn:Hrun; [|discriminate].
  apply getValue_hints in Hrun as [[Hlen Hother] Hnone].
  destruct (negb (y.Valid vs)); [|destruct (IsDeleted (y.Meta vs))];
    intros Heq; injection Heq as _ <-; auto.
Qed.

(** ** Triggering a flush with a negative count *)

Lemma flushFrom_out_of_range sh tbls i ch :
  (length tbls <= i)%nat -> (0 < i)%nat -> flushFrom sh tbls i ch = None.
Proof.
  intros Hlen Hpos. destruct i as [|i]; [lia|]. cbn [flushFrom].
  rewrite (lookup_ge_None_2 tbls (S i)) by lia. reflexivity.
Qed.

(** X9: [TriggerFlush] with a negative [skipCnt] starts its loop at
    [len - skipCnt - 1], computed in [int].  While [len - skipCnt] is at
    most [MaxInt64] the start is above the last index of the memtable
    slice and the call panics on its first step, on every shard with a
    memtable, and on a shard without one when the count is below -1.  At
    [len - skipCnt = MaxInt64 + 1] the subtraction wraps twice, the loop
    starts at [MaxInt64] and the call panics too.  Beyond that the start
    index wraps to a negative number: the loop does not run, and the call
    returns what it returns when every memtable is skipped. *)
Theorem TriggerFlush_negative_skipCnt_panics (en : Engine) (sh : Shard)
    (skipCnt : Z)
  (Hneg : skipCnt < 0) :
  let len := Z.of_nat (length (memTbls sh)) in
  (len - skipCnt <= MaxInt64 ->
   memTbls sh ≠ [] \/ skipCnt < -1 ->
   TriggerFlush en sh skipCnt = None)
  /\ (len - skipCnt = MaxInt64 + 1 ->
      TriggerFlush en sh skipCnt = None)
  /\ (MaxInt64 + 1 < len - skipCnt -> - 2 ^ 63 <= skipCnt ->
      len <= MaxInt64 ->
      TriggerFlush en sh skipCnt = TriggerFlush en sh len
      /\ TriggerFlush en sh skipCnt ≠ None).
Proof.
  clear getSplittingIndex isSplitting.
  intros len. subst len. split; [|split].
  - intros Hfits Hsome. unfold TriggerFlush.
    rewrite (int64_small (Z.of_nat (length (memTbls sh)) - skipCnt))
      by (unfold MaxInt64 in *; lia).
    rewrite int64_small by (unfold MaxInt64 in *; lia).
    assert (Hpos : 0 < Z.of_nat (length (memTbls sh)) - skipCnt - 1).
    { destruct Hsome as [Hne | Hlt]; [|lia].
      destruct (memTbls sh); [contradiction | cbn [length]; lia]. }
    destruct (Z.ltb_spec 0 (Z.of_nat (length (memTbls sh)) - skipCnt - 1));
      [|lia].
    rewrite flushFrom_out_of_range by lia. reflexivity.
  - intros Hedge. unfold TriggerFlush. rewrite Hedge.
    change (int64 (int64 (MaxInt64 + 1) - 1)) with MaxInt64.
    change (0 <? MaxInt64) with true. cbn match.
    rewrite flushFrom_out_of_range by (unfold MaxInt64 in *; lia).
    reflexivity.
  - intros Hwrap Hint Hlen.
    assert (Hi : int64 (int64 (Z.of_nat (length (memTbls sh)) - skipCnt) - 1)
                 < 0).
    { unfold int64, MaxInt64 in *. Z.div_mod_to_equations. lia. }
    assert (Hskip : int64 (int64 (Z.of_nat (length (memTbls sh))
                                  - Z.of_nat (length (memTbls sh))) - 1)
                    = -1).
    { rewrite Z.sub_diag. reflexivity. }
    assert (Hsame : TriggerFlush en sh skipCnt
                    = TriggerFlush en sh (Z.of_nat (length (memTbls sh)))).
    { unfold TriggerFlush. rewrite Hskip.
      destruct (Z.ltb_spec 0
                  (int64 (int64 (Z.of_nat (length (memTbls sh)) - skipCnt)
                          - 1))); [lia|].
      reflexivity. }
    split; [exact Hsame|]. rewrite Hsame. unfold TriggerFlush.
    rewrite Hskip. change (0 <? -1) with false. cbn [mbind option_bind].
    destruct (memTbls sh) as [|m [|m' ms]]; try discriminate.
    destruct (memtable.Empty m); [|discriminate].
    destruct (negb (initialFlushed sh)); [|discriminate].
    destruct (allocCommitTS sh). discriminate.
Qed.

(** ** Reading a column family that is not configured *)

(** X10: on a snapshot taken of a shard that is not splitting and has a
    memtable, [Get] for a column family outside the engine's configured
    ones panics: the hint of the column family is indexed before anything
    is read. *)
Theorem Get_unknown_cf_panics (en : Engine) (sh : Shard) (cf : Z)
    (k : bytes) (version : Z)
  (Hsplit : isSplitting sh = false)
  (Hmem : memTbls sh ≠ [])
  (Hcf : cf < 0 \/ Z.of_nat (length (CFs (opt en))) <= cf) :
  Get (NewSnapAccess en sh) cf k version (start (NewSnapAccess en sh)) = None.
Proof.
  unfold Get, getValue. rewrite !bind_run. unfold or_else at 1.
  rewrite bind_run. unfold probeSplitting.
  cbn [NewSnapAccess splitting memTables]. rewrite Hsplit. run_read.
  destruct (memTbls sh) as [|t tbls]; [contradiction|].
  unfold or_else at 1. rewrite bind_run.
  cbn [probeMemTables Nat.eqb]. rewrite !bind_run. unfold getHint.
  cbn [start rs_hints NewSnapAccess hints].
  rewrite index_replicate. unfold in_range. rewrite length_replicate.
  destruct Hcf as [Hlt | Hge].
  - destruct (Z.leb_spec 0 cf); [lia | reflexivity].
  - destruct (Z.ltb_spec cf (Z.of_nat (length (CFs (opt en))))); [lia|].
    rewrite andb_false_r. reflexivity.
Qed.

(** ** The arena after a reset *)

Lemma appendEntry_in_arena wb cf k v size wb' :
  0 <= entryArenaIdx wb < Z.of_nat (length (entryArena wb)) ->
  Z.of_nat (length (entryArena wb)) <= MaxInt64 ->
  appendEntry wb cf k v size = Some wb' ->
  length (entryArena wb') = length (entryArena wb)
  /\ entryArenaIdx wb' = entryArenaIdx wb + 1.
Proof.
  intros Hidx Hmax. unfold appendEntry, allocEntry.
  destruct (index (entries wb) cf) as [es|]; simpl; [|discriminate].
  destruct (Z.leb_spec (Z.of_nat (length (entryArena wb))) (entryArenaIdx wb));
    [lia|].
  destruct (index (entryArena wb) (entryArenaIdx wb)); simpl; [|discriminate].
  intros Heq. injection Heq as <-. cbn [entryArena entryArenaIdx].
  unfold store. rewrite length_insert.
  rewrite int64_small by (unfold MaxInt64 in *; lia). split; reflexivity.
Qed.

Lemma run_in_arena ops : forall wb wb',
  0 <= entryArenaIdx wb ->
  entryArenaIdx wb + Z.of_nat (length ops)
    <= Z.of_nat (length (entryArena wb)) ->
  Z.of_nat (length (entryArena wb)) <= MaxInt64 ->
  run wb ops = Some wb' ->
  length (entryArena wb') = length (entryArena wb).
Proof.
  induction ops as [|op ops IH]; intros wb wb' Hidx Hroom Hmax Hrun.
  - injection Hrun as <-. reflexivity.
  - cbn [run length] in *.
    destruct (step wb op) as [[wb1 err]|] eqn:Hstep; simpl in Hrun;
      [|discriminate].
    assert (Hwb1 : length (entryArena wb1) = length (entryArena wb)
                   /\ 0 <= entryArenaIdx wb1 <= entryArenaIdx wb + 1).
    { destruct op as [cf k v|cb k version|name v|]; cbn [step] in Hstep.
      - unfold Put in Hstep.
        destruct (index (cfConfs wb) cf) as [conf|]; simpl in Hstep;
          [|discriminate].
        destruct (checkVersion conf (y.Version v)).
        + injection Hstep as <- _. split; [reflexivity | lia].
        + destruct (appendEntry wb cf k v _) as [wb2|] eqn:Happ;
            simpl in Hstep; [|discriminate].
          injection Hstep as <- _.
          apply appendEntry_in_arena in Happ as [Hl Hi]; [|lia|lia].
          split; [exact Hl | lia].
      - unfold Delete in Hstep.
        destruct (index (cfConfs wb) _) as [conf|]; simpl in Hstep;
          [|discriminate].
        destruct (checkVersion conf version).
        + injection Hstep as <- _. split; [reflexivity | lia].
        + destruct (appendEntry wb _ k _ _) as [wb2|] eqn:Happ;
            simpl in Hstep; [|discriminate].
          injection Hstep as <- _.
          apply appendEntry_in_arena in Happ as [Hl Hi]; [|lia|lia].
          split; [exact Hl | lia].
      - injection Hstep as <- _. split; [reflexivity | simpl; lia].
      - injection Hstep as <- _. split; [reflexivity | simpl; lia]. }
    destruct Hwb1 as [Hl1 Hi1].
    rewrite <- Hl1. apply IH; [lia | rewrite Hl1; lia | rewrite Hl1; lia|].
    exact Hrun.
Qed.

(** X11: [Reset] recycles the arena.  After a reset, as many calls as the
    arena has slots leave its length as it is: their entries are written
    over the slots of the entries before the reset, and nothing is
    allocated. *)
Theorem Reset_recycles_arena (wb wb' : WriteBatch) (ops : list Op)
  (Hfits : (length ops <= length (entryArena wb))%nat)
  (Hmax : Z.of_nat (length (entryArena wb)) <= MaxInt64)
  (Hrun : run (Reset wb) ops = Some wb') :
  length (entryArena wb') = length (entryArena wb)
  /\ entryArena (Reset wb) = entryArena wb.
Proof.
  split; [|reflexivity].
  apply (run_in_arena ops (Reset wb) wb'); cbn [Reset entryArena entryArenaIdx];
    [lia | lia | exact Hmax | exact Hrun].
Qed.


End Model.

(** ** A small instance, to run the model

    Modelled from the spec: skiplists, the per-CF runs of an L0 table and
    SSTables as lists of entries in internal-key order (user key ascending,
    version descending); a lookup returns "the newest record whose user-key
    equals key and version ≤ version", a record is valid when its meta byte
    is not 0, and the delete bit is bit 0. The examples below run on it;
    the theorems above do not depend on it. *)

Fixpoint bytes_eqb (a b : bytes) : bool :=
  match a, b with
  | [], [] => true
  | x :: a', z :: b' => Byte.eqb x z && bytes_eqb a' b'
  | _, _ => false
  end.

(** [bytes.Compare(a, b) <= 0] *)
Fixpoint bytes_leb (a b : bytes) : bool :=
  match a, b with
  | [], _ => true
  | _ :: _, [] => false
  | x :: a', z :: b' =>
      if (Byte.to_N x <? Byte.to_N z)%N then true
      else if (Byte.to_N x =? Byte.to_N z)%N then bytes_leb a' b'
      else false
  end.

Definition newest (es : list memtable.Entry) (k : bytes) (version : Z)
  : y.ValueStruct :=
  match find (fun e => bytes_eqb (memtable.Key e) k
                       && (y.Version (memtable.Value e) <=? version)) es with
  | Some e => memtable.Value e
  | None => y.zero
  end.

#[local] Instance list_values : y.Methods := {|
  y.Valid v := negb (y.Meta v =? 0);
  y.EncodedSize v :=
    Z.of_nat (length (y.Value v)) + Z.of_nat (length (y.UserMeta v)) + 2
|}.

#[local] Instance list_skiplists : memtable.Skiplist := {|
  memtable.skiplist := list memtable.Entry;
  memtable.Hint := nat;
  memtable.zeroHint := 0%nat;
  memtable.newSkiplist := [];
  memtable.skl_Empty l := match l with [] => true | _ => false end;
  memtable.skl_Get := newest;
  memtable.skl_GetWithHint l k version h := (newest l k version, S h);
  memtable.EstimateNodeSize := 48
|}.

#[local] Instance list_tables : sstable.Tables := {|
  sstable.L0Table := list (list memtable.Entry);
  sstable.Table := list memtable.Entry;
  sstable.l0_Get t cf k version keyHash :=
    match index t cf with
    | Some es => newest es k version
    | None => y.zero
    end;
  sstable.tbl_Get t k version keyHash := newest t k version
|}.

(** Stand-ins for the fingerprint, the split index (one split key, ["m"]),
    the split test, the commit-version allocator, the level search (first
    table whose biggest key is not below the key) and the slice growth. *)
Definition sample_hash (k : bytes) : Z := Z.of_nat (length k).

Definition sample_split_index (sh : Shard) (k : bytes) : Z :=
  if bytes_leb (String.list_byte_of_string "m") k then 1 else 0.

Definition sample_is_splitting (sh : Shard) : bool :=
  match splitStage sh with
  | PreSplit | SplitFileDone => true
  | _ => false
  end.

Definition sample_alloc (sh : Shard) : Z * Shard := (Ver sh + 100, sh).

Fixpoint first_index {A} (f : A -> bool) (l : list A) (i : nat) : option nat :=
  match l with
  | [] => None
  | x :: rest => if f x then Some i else first_index f rest (S i)
  end.

Definition sample_search (tbls : list (list memtable.Entry)) (k : bytes)
  : option nat :=
  first_index (fun t => match last t with
                        | Some e => bytes_leb k (memtable.Key e)
                        | None => false
                        end) tbls 0.

Definition sample_spare (n : nat) : nat := n.

(** The scenario "MVCC tombstone shadow" of the specification, spread over
    the sources of a shard: the key ["k"] deleted at version 30 in the
    active memtable, put at 20 in an immutable memtable, at 10 in an L0
    table and at 5 in a table of level 1. Column family 0 is managed,
    column family 1 is not. *)
Definition k_key : bytes := String.list_byte_of_string "k".

Definition put_at (version : Z) (v : string) : memtable.Entry :=
  {| memtable.Key := k_key;
     memtable.Value := {| y.Meta := 2; y.UserMeta := [];
                          y.Value := String.list_byte_of_string v;
                          y.Version := version |} |}.

Definition delete_at (version : Z) : memtable.Entry :=
  {| memtable.Key := k_key; memtable.Value := tombstone 1 version |}.

Definition mem_active : memtable.Table :=
  {| memtable.skls := [[delete_at 30]; []];
     memtable.version := 0; memtable.flushing := 0 |}.

Definition mem_sealed : memtable.Table :=
  {| memtable.skls := [[put_at 20 "v20"]; []];
     memtable.version := 21; memtable.flushing := 1 |}.

Definition mem_older : memtable.Table :=
  {| memtable.skls := [[put_at 12 "v12"]; []];
     memtable.version := 13; memtable.flushing := 1 |}.

Definition sample_shard : Shard :=
  {| ID := 7; Ver := 1;
     cfs := [ {| levels := [ {| level := 1; tables := [[put_at 5 "v5"]];
                                totalSize := 0 |} ] |};
              {| levels := [ {| level := 1; tables := []; totalSize := 0 |} ] |} ];
     memTbls := [mem_active; mem_sealed];
     l0Tbls := [[[put_at 10 "v10"]; []]];
     splittingMemTbls := [];
     splitStage := Initial;
     initialFlushed := true |}.

Definition sample_engine : Engine :=
  {| opt := {| CFs := [ {| Managed := true |}; {| Managed := false |} ] |};
     numCFs := 2;
     flushCh := [] |}.

Definition sample_snap : SnapAccess :=
  NewSnapAccess sample_is_splitting sample_engine sample_shard.

Definition sample_getValue :=
  getValue sample_hash sample_split_index sample_search.

Definition sample_Get :=
  Get sample_hash sample_split_index sample_search 1.

Definition item_of (e : memtable.Entry) : Item :=
  {| key := memtable.Key e;
     ver := y.Version (memtable.Value e);
     meta := y.Meta (memtable.Value e);
     userMeta := y.UserMeta (memtable.Value e);
     val := y.Value (memtable.Value e) |}.

Example Get_at_25 :
  observe (sample_Get sample_snap 0 k_key 25 (start sample_snap))
  = Some ((Some (item_of (put_at 20 "v20")), None),
          [ProbeMemTableWithHint 0; ProbeMemTable 1]).
Proof. reflexivity. Qed.

Example Get_at_35 :
  observe (sample_Get sample_snap 0 k_key 35 (start sample_snap))
  = Some ((None, Some ErrKeyNotFound), [ProbeMemTableWithHint 0]).
Proof. reflexivity. Qed.

Example Get_at_15 :
  observe (sample_Get sample_snap 0 k_key 15 (start sample_snap))
  = Some ((Some (item_of (put_at 10 "v10")), None),
          [ProbeMemTableWithHint 0; ProbeMemTable 1; ProbeL0 0 1]).
Proof. reflexivity. Qed.

Example Get_at_7 :
  observe (sample_Get sample_snap 0 k_key 7 (start sample_snap))
  = Some ((Some (item_of (put_at 5 "v5")), None),
          [ProbeMemTableWithHint 0; ProbeMemTable 1; ProbeL0 0 1;
           ProbeLevelTable 1 0 1]).
Proof. reflexivity. Qed.

Example Get_at_3 :
  observe (sample_Get sample_snap 0 k_key 3 (start sample_snap))
  = Some ((None, Some ErrKeyNotFound),
          [ProbeMemTableWithHint 0; ProbeMemTable 1; ProbeL0 0 1;
           ProbeLevelTable 1 0 1]).
Proof. reflexivity. Qed.

Example Get_at_0 :
  observe (sample_Get sample_snap 0 k_key 0 (start sample_snap))
  = Some ((None, Some ErrKeyNotFound), [ProbeMemTableWithHint 0]).
Proof. reflexivity. Qed.

Example Get_unknown_cf :
  sample_Get sample_snap 2 k_key 25 (start sample_snap) = None.
Proof. reflexivity. Qed.

(** *** The read theorems on the instance *)

(** [getValue_probe_order] at the read of ["k"] at version 15: the two
    memtables and the L0 table are probed, in this order, and the L0 table
    yields the record. *)
Lemma getValue_probe_order_witness :
  y.Valid y.zero = false
  /\ observe (sample_getValue sample_snap 0 k_key 15 (start sample_snap))
     = Some (memtable.Value (put_at 10 "v10"),
             [ProbeMemTableWithHint 0; ProbeMemTable 1; ProbeL0 0 1]).
Proof.
  split; [reflexivity|].
  unfold sample_getValue.
  rewrite (proj1 (@getValue_probe_order list_values list_skiplists
                    list_tables sample_hash sample_split_index
                    sample_search eq_refl sample_snap 0 k_key 15
                    (start sample_snap))).
  reflexivity.
Defined.

(** [Get_not_found_cases] at the read of ["k"] at version 35, where the
    newest record is the tombstone. *)
Lemma Get_not_found_cases_witness :
  snapshot_ok sample_split_index sample_search sample_snap
              (rs_hints (start sample_snap)) 0 k_key = true
  /\ exists found ps res st',
       scan (sources sample_hash sample_split_index sample_search sample_snap
               (rs_hints (start sample_snap)) 0 k_key
               (if 35 =? 0 then MaxUint64 else 35)) = Some (found, ps)
       /\ sample_Get sample_snap 0 k_key 35 (start sample_snap)
          = Some (res, st')
       /\ rs_probes st' = rs_probes (start sample_snap) ++ ps
       /\ (res = (None, Some ErrKeyNotFound) <->
           found = None
           \/ exists v, found = Some v /\ IsDeleted 1 (y.Meta v) = true)
       /\ (forall v, found = Some v -> IsDeleted 1 (y.Meta v) = false ->
             res = (Some {| key := k_key; ver := y.Version v;
                            meta := y.Meta v; userMeta := y.UserMeta v;
                            val := y.Value v |}, None)).
Proof.
  split; [reflexivity|].
  exact (@Get_not_found_cases list_values list_skiplists list_tables
           sample_hash sample_split_index sample_search 1
           eq_refl sample_snap 0 k_key 35 (start sample_snap) eq_refl).
Defined.

(** *** Write batches on the instance *)

Definition sample_batch : WriteBatch :=
  NewWriteBatch sample_engine sample_shard.

Definition sample_value (version : Z) : y.ValueStruct :=
  {| y.Meta := 2; y.UserMeta := []; y.Value := String.list_byte_of_string "v";
     y.Version := version |}.

Example Put_managed_with_version :
  (fun r => (entries r.1, estimatedSize r.1, r.2))
    <$> Put sample_spare sample_batch 0 k_key (sample_value 10)
  = Some ([[ {| memtable.Key := k_key; memtable.Value := sample_value 10 |} ];
           []], 52, None).
Proof. reflexivity. Qed.

Example Put_managed_without_version :
  Put sample_spare sample_batch 0 k_key (sample_value 0)
  = Some (sample_batch, Some (Errorf "version is zero for managed CF")).
Proof. reflexivity. Qed.

Example Put_unmanaged_with_version :
  Put sample_spare sample_batch 1 k_key (sample_value 10)
  = Some (sample_batch, Some (Errorf "version is not zero for non-managed CF")).
Proof. reflexivity. Qed.

Example Delete_unmanaged :
  (fun r => (entries r.1, estimatedSize r.1, r.2))
    <$> Delete 1 sample_spare sample_batch "001"%byte k_key 0
  = Some ([[]; [ {| memtable.Key := k_key; memtable.Value := tombstone 1 0 |} ]],
          49, None).
Proof. reflexivity. Qed.

Example Put_unknown_cf :
  Put sample_spare sample_batch 2 k_key (sample_value 10) = None.
Proof. reflexivity. Qed.

(** [write_rejected_iff_mismatch] on a new batch, for a put in the managed
    column family 0 and a delete in the same. *)
Lemma write_rejected_iff_mismatch_witness :
  batch_ok sample_batch
  /\ (exists wb' err es,
        Put sample_spare sample_batch 0 k_key (sample_value 10)
        = Some (wb', err)
        /\ index (entries sample_batch) 0 = Some es
        /\ (is_Some err <->
            mismatch {| Managed := true |} (y.Version (sample_value 10)))
        /\ (err = None ->
            index (entries wb') 0
            = Some (es ++ [{| memtable.Key := k_key;
                              memtable.Value := sample_value 10 |}])
            /\ forall cf', cf' ≠ 0 ->
                 index (entries wb') cf' = index (entries sample_batch) cf'))
  /\ (exists wb' err es,
        Delete 1 sample_spare sample_batch "000"%byte k_key 0
        = Some (wb', err)
        /\ index (entries sample_batch) (Z.of_N (Byte.to_N "000"%byte))
           = Some es
        /\ (is_Some err <-> mismatch {| Managed := true |} 0)
        /\ (err = None ->
            index (entries wb') (Z.of_N (Byte.to_N "000"%byte))
            = Some (es ++ [{| memtable.Key := k_key;
                              memtable.Value := tombstone 1 0 |}])
            /\ forall cf', cf' ≠ Z.of_N (Byte.to_N "000"%byte) ->
                 index (entries wb') cf' = index (entries sample_batch) cf')).
Proof.
  assert (Hok : batch_ok sample_batch).
  { split; [reflexivity | simpl; lia]. }
  split; [exact Hok|].
  exact (write_rejected_iff_mismatch 1 sample_spare sample_batch 0 "000"%byte
           k_key (sample_value 10) 0 {| Managed := true |} {| Managed := true |}
           Hok eq_refl eq_refl).
Defined.

(** [rejected_write_keeps_batch] on a batch that already holds an entry and
    a property: the put without a version is rejected and changes nothing. *)
Definition sample_filled : WriteBatch :=
  match Put sample_spare
          (SetProperty sample_batch "checkpoint" (String.list_byte_of_string "1"))
          0 k_key (sample_value 10) with
  | Some (wb, _) => wb
  | None => sample_batch
  end.

Lemma rejected_write_keeps_batch_witness :
  mismatch {| Managed := true |} (y.Version (sample_value 0))
  /\ (exists e, Put sample_spare sample_filled 0 k_key (sample_value 0)
                = Some (sample_filled, Some e))
  /\ NumEntries sample_filled = 1.
Proof.
  assert (Hm : mismatch {| Managed := true |} (y.Version (sample_value 0))).
  { left. split; reflexivity. }
  split; [exact Hm|]. split; [|reflexivity].
  exact (proj1 (rejected_write_keeps_batch 1 sample_spare sample_filled 0
                  "000"%byte k_key (sample_value 0) 0)
           {| Managed := true |} eq_refl Hm).
Defined.

Example Reset_filled :
  NumEntries (Reset sample_filled) = 0
  /\ EstimatedSize sample_filled = 52
  /\ EstimatedSize (Reset sample_filled) = 0
  /\ Iterate sample_filled 0 (fun _ => true)
     = Some [{| memtable.Key := k_key; memtable.Value := sample_value 10 |}]
  /\ Iterate (Reset sample_filled) 0 (fun _ => true) = Some [].
Proof. repeat split. Qed.

(** *** Triggering a flush on the instance *)

(** A shard with two immutable memtables: [mem_sealed] at index 1 was
    sealed last, [mem_older] at index 2 before it. *)
Definition sample_shard3 : Shard :=
  {| ID := 7; Ver := 1; cfs := [];
     memTbls := [mem_active; mem_sealed; mem_older];
     l0Tbls := []; splittingMemTbls := [];
     splitStage := Initial; initialFlushed := true |}.

(** A shard just opened: one empty memtable, nothing flushed yet. *)
Definition sample_new_shard : Shard :=
  {| ID := 8; Ver := 1; cfs := [];
     memTbls := [memtable.NewCFTable 2];
     l0Tbls := []; splittingMemTbls := [];
     splitStage := Initial; initialFlushed := false |}.

Example TriggerFlush_all :
  TriggerFlush sample_alloc sample_engine sample_shard3 0
  = Some (sent sample_engine (tasks sample_shard3 [mem_older; mem_sealed]),
          sample_shard3).
Proof. reflexivity. Qed.

Example TriggerFlush_skip_all :
  TriggerFlush sample_alloc sample_engine sample_shard3 5
  = Some (sent sample_engine [], sample_shard3).
Proof. reflexivity. Qed.

Example TriggerFlush_negative_skip :
  TriggerFlush sample_alloc sample_engine sample_shard3 (-1) = None.
Proof. reflexivity. Qed.

(** At the smallest [int] the start index of the loop wraps to a negative
    number, and nothing is sent. *)
Example TriggerFlush_smallest_skip :
  TriggerFlush sample_alloc sample_engine sample_shard3 (- 2 ^ 63)
  = Some (sent sample_engine [], sample_shard3).
Proof. vm_compute. reflexivity. Qed.

Example TriggerFlush_new_shard :
  TriggerFlush sample_alloc sample_engine sample_new_shard 0
  = Some (sent sample_engine
            (tasks sample_new_shard
               [memtable.SetVersion (memtable.NewCFTable 2) 101]),
          sample_new_shard).
Proof. reflexivity. Qed.

(** C3 as stated fails: with two immutable memtables and [skipCnt = 1] the
    loop starts at index [len - skipCnt - 1 = 1], so the memtable sent is
    the one at index 1, sealed last, and the one left out is the one at
    index 2, sealed first; C3 has it the other way round. *)
Lemma TriggerFlush_skips_oldest_not_newest :
  TriggerFlush sample_alloc sample_engine sample_shard3 1
  = Some (sent sample_engine (tasks sample_shard3 [mem_sealed]), sample_shard3)
  /\ skips_most_recent [mem_sealed; mem_older] 1 = [mem_older]
  /\ skips_oldest [mem_sealed; mem_older] 1 = [mem_sealed]
  /\ tasks sample_shard3 [mem_sealed] ≠ tasks sample_shard3 [mem_older].
Proof.
  split; [reflexivity|]. split; [reflexivity|]. split; [reflexivity|].
  intros Heq. inversion Heq.
Qed.

(** [TriggerFlush_skips_oldest] on the shard with two immutable memtables,
    skipping one. *)
Lemma TriggerFlush_skips_oldest_witness :
  memTbls sample_shard3 = mem_active :: [mem_sealed; mem_older]
  /\ exists en' sh' extra,
       TriggerFlush sample_alloc sample_engine sample_shard3 1
       = Some (en', sh')
       /\ flushCh en'
          = flushCh sample_engine
            ++ tasks sample_shard3
                 (reverse (take (length [mem_sealed; mem_older] - Z.to_nat 1)
                            [mem_sealed; mem_older]))
            ++ extra
       /\ ([mem_sealed; mem_older] ≠ [] -> extra = [] /\ sh' = sample_shard3)
       /\ (extra = []
           \/ extra = tasks sample_shard3
                        [placeholder sample_alloc sample_engine sample_shard3])
       /\ (forall j,
             (j < length [mem_sealed; mem_older] - Z.to_nat 1)%nat ->
             reverse (take (length [mem_sealed; mem_older] - Z.to_nat 1)
                           [mem_sealed; mem_older]) !! j
             = memTbls sample_shard3
               !! (length [mem_sealed; mem_older] - Z.to_nat 1 - j)%nat).
Proof.
  split; [reflexivity|].
  apply (TriggerFlush_skips_oldest sample_alloc sample_engine sample_shard3 1
           mem_active [mem_sealed; mem_older] eq_refl).
  - unfold MaxInt64. lia.
  - simpl. unfold MaxInt64. lia.
Defined.

(** [TriggerFlush_placeholder] on the shard just opened. *)
Lemma TriggerFlush_placeholder_witness :
  memtable.skl_Empty memtable.newSkiplist = true
  /\ TriggerFlush sample_alloc sample_engine sample_new_shard 0
     = Some (sent sample_engine
               (tasks sample_new_shard
                  [placeholder sample_alloc sample_engine sample_new_shard]),
             (sample_alloc sample_new_shard).2)
  /\ memtable.Empty (placeholder sample_alloc sample_engine sample_new_shard)
     = true.
Proof.
  assert (Hskip : 0 <= 0 <= MaxInt64) by (unfold MaxInt64; lia).
  assert (Hlen : Z.of_nat (length (memTbls sample_new_shard)) <= MaxInt64)
    by (simpl; unfold MaxInt64; lia).
  pose proof (@TriggerFlush_placeholder list_skiplists list_tables
                sample_alloc eq_refl sample_engine
                sample_new_shard 0 Hskip Hlen) as (Hsingle & Hempty & _).
  split; [reflexivity|]. split; [|exact Hempty].
  exact (Hsingle (memtable.NewCFTable 2) eq_refl eq_refl).
Defined.

(** *** Sequences of calls on the instance *)

(** Two accepted writes, a rejected one and a property; a reset; then a
    put and a delete in column family 0 and a put in column family 1. *)
Definition sample_ops : list Op :=
  [ OpPut 0 k_key (sample_value 10);
    OpPut 0 k_key (sample_value 0);
    OpDelete "001"%byte k_key 0;
    OpSetProperty "checkpoint" (String.list_byte_of_string "1");
    OpReset;
    OpPut 0 k_key (sample_value 7);
    OpPut 1 k_key (sample_value 0);
    OpDelete "000"%byte k_key 9 ].

Definition sample_ran : WriteBatch :=
  default sample_batch (run 1 sample_spare sample_batch sample_ops).

Example run_sample_ops :
  run 1 sample_spare sample_batch sample_ops = Some sample_ran
  /\ entries sample_ran
     = [ [ {| memtable.Key := k_key; memtable.Value := sample_value 7 |};
           {| memtable.Key := k_key; memtable.Value := tombstone 1 9 |} ];
         [ {| memtable.Key := k_key; memtable.Value := sample_value 0 |} ] ]
  /\ entryArenaIdx sample_ran = 3
  /\ length (entryArena sample_ran) = 3%nat
  /\ EstimatedSize sample_ran = 153.
Proof. split_and!; vm_compute; reflexivity. Qed.

Lemma batch_entries_fill_arena_witness :
  Z.of_nat (length sample_ops) <= MaxInt64
  /\ run 1 sample_spare sample_batch sample_ops = Some sample_ran
  /\ concat (entries sample_ran)
     ≡ₚ take (Z.to_nat (entryArenaIdx sample_ran)) (entryArena sample_ran)
  /\ 0 <= entryArenaIdx sample_ran
          <= Z.of_nat (length (entryArena sample_ran))
  /\ NumEntries sample_ran = entryArenaIdx sample_ran.
Proof.
  assert (Hcalls : Z.of_nat (length sample_ops) <= MaxInt64)
    by (unfold MaxInt64; simpl; lia).
  assert (Hrun : run 1 sample_spare sample_batch sample_ops = Some sample_ran)
    by (vm_compute; reflexivity).
  split; [exact Hcalls|]. split; [exact Hrun|].
  exact (batch_entries_fill_arena 1 sample_spare sample_engine sample_shard
           sample_ops sample_ran Hcalls Hrun).
Defined.

Lemma Iterate_visits_writes_in_order_witness :
  run 1 sample_spare sample_batch sample_ops = Some sample_ran
  /\ Iterate sample_ran 0 (fun _ => true)
     = if (0 <=? 0) && (0 <? Z.of_nat (numCFs sample_engine))
       then Some (visited (fun _ => true)
                    (written 1 (CFs (opt sample_engine)) 0 sample_ops []))
       else None.
Proof.
  assert (Hrun : run 1 sample_spare sample_batch sample_ops = Some sample_ran)
    by (vm_compute; reflexivity).
  split; [exact Hrun|].
  exact (Iterate_visits_writes_in_order 1 sample_spare sample_engine
           sample_shard sample_ops sample_ran 0 (fun _ => true) Hrun).
Defined.

Lemma EstimatedSize_sums_accepted_writes_witness :
  run 1 sample_spare sample_batch sample_ops = Some sample_ran
  /\ EstimatedSize sample_ran
     = int64 (charged (CFs (opt sample_engine)) sample_ops 0).
Proof.
  assert (Hrun : run 1 sample_spare sample_batch sample_ops = Some sample_ran)
    by (vm_compute; reflexivity).
  split; [exact Hrun|].
  exact (EstimatedSize_sums_accepted_writes 1 sample_spare sample_engine
           sample_shard sample_ops sample_ran Hrun).
Defined.

(** [Reset_recycles_arena]: the batch after [sample_ops] has three slots;
    after a reset, three more writes fit into them. *)
Definition three_writes : list Op :=
  [ OpPut 0 k_key (sample_value 1);
    OpPut 0 k_key (sample_value 2);
    OpDelete "001"%byte k_key 0 ].

Definition sample_reused : WriteBatch :=
  default sample_batch (run 1 sample_spare (Reset sample_ran) three_writes).

Lemma Reset_recycles_arena_witness :
  (length three_writes <= length (entryArena sample_ran))%nat
  /\ Z.of_nat (length (entryArena sample_ran)) <= MaxInt64
  /\ run 1 sample_spare (Reset sample_ran) three_writes = Some sample_reused
  /\ length (entryArena sample_reused) = length (entryArena sample_ran)
  /\ entryArena (Reset sample_ran) = entryArena sample_ran.
Proof.
  assert (Hfits : (length three_writes <= length (entryArena sample_ran))%nat)
    by (vm_compute; lia).
  assert (Hmax : Z.of_nat (length (entryArena sample_ran)) <= MaxInt64)
    by (vm_compute; discriminate).
  assert (Hrun : run 1 sample_spare (Reset sample_ran) three_writes
                 = Some sample_reused)
    by (vm_compute; reflexivity).
  split; [exact Hfits|]. split; [exact Hmax|]. split; [exact Hrun|].
  exact (Reset_recycles_arena 1 sample_spare sample_ran sample_reused
           three_writes Hfits Hmax Hrun).
Defined.

(** *** More reads on the instance *)

Example MultiGet_sample :
  observe (MultiGet sample_hash sample_split_index sample_search 1
             sample_snap 0 [k_key; String.list_byte_of_string "z"; k_key] 25
             (start sample_snap))
  = Some ((Some [Some (item_of (put_at 20 "v20")); None;
                 Some (item_of (put_at 20 "v20"))], None),
          [ProbeMemTableWithHint 0; ProbeMemTable 1;
           ProbeMemTableWithHint 0; ProbeMemTable 1; ProbeL0 0 1;
           ProbeMemTableWithHint 0; ProbeMemTable 1]).
Proof. reflexivity. Qed.

(** The state after the read of ["k"] at version 25. *)
Definition sample_read_state : ReadState memtable.Hint :=
  match sample_Get sample_snap 0 k_key 25 (start sample_snap) with
  | Some (_, st) => st
  | None => start sample_snap
  end.

Lemma Get_touches_only_its_hint_witness :
  sample_Get sample_snap 0 k_key 25 (start sample_snap)
  = Some ((Some (item_of (put_at 20 "v20")), None), sample_read_state)
  /\ length (rs_hints sample_read_state)
     = length (rs_hints (start sample_snap))
  /\ (forall cf', cf' ≠ 0 ->
        index (rs_hints sample_read_state) cf'
        = index (rs_hints (start sample_snap)) cf')
  /\ (memTables sample_snap = [] ->
      rs_hints sample_read_state = rs_hints (start sample_snap)).
Proof.
  split; [reflexivity|].
  exact (@Get_touches_only_its_hint list_values list_skiplists list_tables
           sample_hash sample_split_index sample_search 1
           sample_snap 0 k_key 25 (start sample_snap) _ sample_read_state
           eq_refl).
Defined.

Lemma Get_unknown_cf_panics_witness :
  sample_is_splitting sample_shard = false
  /\ memTbls sample_shard ≠ []
  /\ sample_Get sample_snap 2 k_key 25 (start sample_snap) = None.
Proof.
  assert (Hmem : memTbls sample_shard ≠ []) by discriminate.
  assert (Hcf : 2 < 0 \/ Z.of_nat (length (CFs (opt sample_engine))) <= 2)
    by (right; vm_compute; discriminate).
  split; [reflexivity|]. split; [exact Hmem|].
  exact (@Get_unknown_cf_panics list_values list_skiplists list_tables
           sample_hash sample_split_index sample_is_splitting sample_search 1
           sample_engine sample_shard 2 k_key 25 eq_refl Hmem Hcf).
Defined.

Lemma TriggerFlush_negative_skipCnt_panics_witness :
  -1 < 0
  /\ Z.of_nat (length (memTbls sample_shard)) - -1 <= MaxInt64
  /\ memTbls sample_shard ≠ []
  /\ TriggerFlush sample_alloc sample_engine sample_shard (-1) = None.
Proof.
  assert (Hneg : -1 < 0) by lia.
  assert (Hmem : memTbls sample_shard ≠ []) by discriminate.
  assert (Hfits : Z.of_nat (length (memTbls sample_shard)) - -1 <= MaxInt64)
    by (unfold MaxInt64; simpl; lia).
  split; [exact Hneg|]. split; [exact Hfits|]. split; [exact Hmem|].
  exact (proj1 (TriggerFlush_negative_skipCnt_panics sample_alloc
                  sample_engine sample_shard (-1) Hneg)
           Hfits (or_introl Hmem)).
Defined.

End engine.

(** * Numbers with thousands separators *)

Module Format.

(** Go's [len]. *)
Definition len {A} (l : list A) : Z := Z.of_nat (length l).

(** [fmt.Sprintf("%d", n)]: the decimal digits of [n], after a minus sign
    when [n] is negative. *)
Definition Sprintf_d (n : Z) : list byte :=
  String.list_byte_of_string (NilZero.string_of_int (Z.to_int n)).

Definition comma : byte := ","%byte.

(** [buf[pos] = b]; an index out of range panics. *)
Definition set_at (buf : list byte) (pos : Z) (b : byte) : option (list byte) :=
  if (0 <=? pos) && (pos <? len buf)
  then Some (<[Z.to_nat pos := b]> buf) else None.

(** [s[lo:hi]]; bounds out of order or out of range panic. *)
Definition slice (s : list byte) (lo hi : Z) : option (list byte) :=
  if (0 <=? lo) && (lo <=? hi) && (hi <=? len s)
  then Some (take (Z.to_nat (hi - lo)) (drop (Z.to_nat lo) s)) else None.

(** [copy(buf[pos:], src)]: as many list byte as both sides have are copied
    over the buffer, from position [pos] on. *)
Definition copy_from (buf : list byte) (pos : Z) (src : list byte) : option (list byte) :=
  if (0 <=? pos) && (pos <=? len buf)
  then
    let dst := drop (Z.to_nat pos) buf in
    let n := Nat.min (length dst) (length src) in
    Some (take (Z.to_nat pos) buf ++ take n src ++ drop n dst)
  else None.

(** The loop of [formatInt], [n] iterations from counter [i] on. *)
Fixpoint formatInt_loop (str : list byte) (length : Z) (n : nat) (i : Z)
    (buf : list byte) : option (list byte) :=
  match n with
  | O => Some buf
  | S n' =>
      buf1 ← set_at buf (len buf - (i + 1) * 4) comma;
      src ← slice str (length - (i + 1) * 3) (length - i * 3);
      buf2 ← copy_from buf1 (len buf - (i + 1) * 4 + 1) src;
      formatInt_loop str length n' (i + 1) buf2
  end.

(** [formatInt] after its first line, on the string [str]. *)
Definition formatStr (str : list byte) : option (list byte) :=
  let length := len str in
  if length <=? 3 then Some str
  else
    let separators := (length - 1) ÷ 3 in
    let buf := replicate (Z.to_nat (length + separators)) "000"%byte in
    buf ← formatInt_loop str length (Z.to_nat separators) 0 buf;
    src ← slice str 0 (length - separators * 3);
    copy_from buf 0 src.

(** [formatInt(n int) string]; [None] is a runtime panic. *)
Definition formatInt (n : Z) : option (list byte) := formatStr (Sprintf_d n).

(** The string without its commas. *)
Definition strip_commas (s : list byte) : list byte :=
  List.filter (fun b => negb (Byte.eqb b comma)) s.

(** A comma before every three list byte; used for a list of [3 * k] list byte. *)
Fixpoint groups (l : list byte) : list byte :=
  match l with
  | a :: b :: c :: rest => comma :: a :: b :: c :: groups rest
  | _ => []
  end.

(** The head of the string, as long as the division by three leaves, and
    the rest in groups. *)
Definition grouped (str : list byte) : list byte :=
  let h := Z.to_nat (len str - 3 * ((len str - 1) / 3)) in
  take h str ++ groups (drop h str).

Lemma set_at_app (l1 l2 : list byte) (x y : byte) :
  set_at (l1 ++ x :: l2) (len l1) y = Some (l1 ++ y :: l2).
Proof.
  unfold set_at, len. rewrite length_app. cbn [length].
  destruct (Z.leb_spec 0 (Z.of_nat (length l1))); [|lia].
  destruct (Z.ltb_spec (Z.of_nat (length l1))
              (Z.of_nat (length l1 + S (length l2)))); [|lia].
  cbn [andb]. rewrite Nat2Z.id.
  rewrite insert_app_r_alt by lia. rewrite Nat.sub_diag. reflexivity.
Qed.

Lemma slice_app (l1 l2 l3 : list byte) :
  slice (l1 ++ l2 ++ l3) (len l1) (len l1 + len l2) = Some l2.
Proof.
  unfold slice, len. rewrite !length_app.
  destruct (Z.leb_spec 0 (Z.of_nat (length l1))); [|lia].
  destruct (Z.leb_spec (Z.of_nat (length l1))
              (Z.of_nat (length l1) + Z.of_nat (length l2))); [|lia].
  destruct (Z.leb_spec (Z.of_nat (length l1) + Z.of_nat (length l2))
              (Z.of_nat (length l1 + (length l2 + length l3)))); [|lia].
  cbn [andb]. rewrite Nat2Z.id, drop_app_length.
  replace (Z.to_nat (Z.of_nat (length l1) + Z.of_nat (length l2)
                     - Z.of_nat (length l1))) with (length l2) by lia.
  rewrite take_app_length. reflexivity.
Qed.

Lemma copy_from_app (l1 l2 l3 src : list byte) :
  length src = length l2 ->
  copy_from (l1 ++ l2 ++ l3) (len l1) src = Some (l1 ++ src ++ l3).
Proof.
  intros Hsrc. unfold copy_from, len. rewrite !length_app.
  destruct (Z.leb_spec 0 (Z.of_nat (length l1))); [|lia].
  destruct (Z.leb_spec (Z.of_nat (length l1))
              (Z.of_nat (length l1 + (length l2 + length l3)))); [|lia].
  cbn [andb]. rewrite Nat2Z.id, drop_app_length, take_app_length.
  rewrite length_app.
  replace (Nat.min (length l2 + length l3) (length src)) with (length src)
    by lia.
  rewrite firstn_all. rewrite Hsrc, drop_app_length. reflexivity.
Qed.

Lemma slice_prefix (l1 l2 : list byte) :
  slice (l1 ++ l2) 0 (len l1) = Some l1.
Proof. exact (slice_app [] l1 l2). Qed.

Lemma copy_from_prefix (l2 l3 src : list byte) :
  length src = length l2 ->
  copy_from (l2 ++ l3) 0 src = Some (src ++ l3).
Proof. exact (copy_from_app [] l2 l3 src). Qed.

Lemma groups_length (k : nat) : forall g,
  length g = (3 * k)%nat -> length (groups g) = (4 * k)%nat.
Proof.
  induction k as [|k IH]; intros g Hg.
  - destruct g; [reflexivity | discriminate].
  - destruct g as [|a [|b [|c rest]]]; cbn [length] in Hg; try lia.
    cbn [groups length]. rewrite (IH rest) by lia. lia.
Qed.

Lemma drop_three (str : list byte) (m : nat) :
  (m + 3 <= length str)%nat ->
  exists a b c,
    str = take m str ++ [a; b; c] ++ drop (m + 3) str.
Proof.
  intros Hm.
  destruct (drop m str) as [|a [|b [|c rest]]] eqn:Hd;
    try (apply (f_equal length) in Hd; rewrite length_drop in Hd;
         cbn [length] in Hd; lia).
  exists a, b, c. rewrite <- (drop_drop str 3 m), Hd. cbn [drop app].
  rewrite drop_0, <- Hd. symmetry. apply take_drop.
Qed.

Lemma formatInt_loop_grouped (str : list byte) (h : nat) (n : nat) :
  forall (i : nat) (buf : list byte),
  length str = (h + 3 * (i + n))%nat ->
  buf = replicate (h + 4 * n) "000"%byte ++ groups (drop (h + 3 * n) str) ->
  formatInt_loop str (len str) n (Z.of_nat i) buf
  = Some (replicate h "000"%byte ++ groups (drop h str)).
Proof.
  induction n as [|n IH]; intros i buf Hstr Hbuf.
  - subst buf. rewrite !Nat.add_0_r. reflexivity.
  - cbn [formatInt_loop].
    assert (Htail : length (groups (drop (h + 3 * S n) str)) = (4 * i)%nat).
    { apply groups_length. rewrite length_drop. lia. }
    destruct (drop_three str (h + 3 * n)) as (a & b & c & Hsplit); [lia|].
    replace (h + 3 * n + 3)%nat with (h + 3 * S n)%nat in Hsplit by lia.
    set (tail := groups (drop (h + 3 * S n) str)) in *.
    assert (Hlen : len buf = Z.of_nat (h + 4 * S n + 4 * i)).
    { subst buf. unfold len. rewrite length_app, length_replicate, Htail.
      lia. }
    assert (Hbuf0 : buf = replicate (h + 4 * n) "000"%byte
                    ++ "000"%byte :: replicate 3 "000"%byte ++ tail).
    { subst buf.
      replace (h + 4 * S n)%nat with ((h + 4 * n) + 4)%nat by lia.
      rewrite replicate_add, <- app_assoc. reflexivity. }
    assert (Hpos : len buf - (Z.of_nat i + 1) * 4
                   = len (replicate (h + 4 * n) "000"%byte)).
    { rewrite Hlen. unfold len. rewrite length_replicate. lia. }
    rewrite Hpos. rewrite Hbuf0 at 1. rewrite set_at_app.
    cbn [mbind option_bind].
    assert (Hlo : len str - (Z.of_nat i + 1) * 3
                  = len (take (h + 3 * n) str)).
    { unfold len. rewrite length_take. lia. }
    assert (Hhi : len str - Z.of_nat i * 3
                  = len (take (h + 3 * n) str) + len [a; b; c]).
    { unfold len. rewrite length_take. cbn [length]. lia. }
    rewrite Hlo, Hhi. rewrite Hsplit at 1. rewrite slice_app.
    cbn [mbind option_bind].
    replace (len (replicate (h + 4 * n) "000"%byte) + 1)
      with (len (replicate (h + 4 * n) "000"%byte ++ [comma])).
    2:{ unfold len. rewrite length_app. cbn [length]. lia. }
    replace (replicate (h + 4 * n) "000"%byte
             ++ comma :: replicate 3 "000"%byte ++ tail)
      with ((replicate (h + 4 * n) "000"%byte ++ [comma])
            ++ replicate 3 "000"%byte ++ tail)
      by (rewrite <- app_assoc; reflexivity).
    rewrite copy_from_app by reflexivity.
    cbn [mbind option_bind].
    replace (Z.of_nat i + 1) with (Z.of_nat (S i)) by lia.
    apply IH; [lia|].
    rewrite <- app_assoc. f_equal.
    rewrite Hsplit at 1.
    rewrite drop_app_length' by (rewrite length_take; lia).
    reflexivity.
Qed.

Lemma formatStr_grouped (str : list byte) : formatStr str = Some (grouped str).
Proof.
  unfold formatStr, grouped.
  destruct (Z.leb_spec (len str) 3) as [Hle | Hgt].
  - f_equal. unfold len in *.
    assert (Hh : (length str
                  <= Z.to_nat (Z.of_nat (length str)
                       - 3 * ((Z.of_nat (length str) - 1) / 3)))%nat).
    { assert (Z.of_nat (length str) - 1 < 3) by lia.
      assert ((Z.of_nat (length str) - 1) / 3 <= 0)
        by (Z.div_mod_to_equations; lia).
      lia. }
    rewrite take_ge, drop_ge by exact Hh. rewrite app_nil_r. reflexivity.
  - rewrite Z.quot_div_nonneg by lia.
    set (sep := (len str - 1) / 3).
    assert (Hsep : 1 <= sep /\ 1 <= len str - 3 * sep <= 3)
      by (subst sep; Z.div_mod_to_equations; lia).
    set (h := Z.to_nat (len str - 3 * sep)).
    rewrite (formatInt_loop_grouped str h (Z.to_nat sep) 0).
    + cbn [mbind option_bind].
      replace (len str - sep * 3) with (len (take h str)).
      2:{ subst h. unfold len in *. rewrite length_take. lia. }
      rewrite <- (take_drop h str) at 1.
      rewrite slice_prefix. cbn [mbind option_bind].
      rewrite copy_from_prefix; [reflexivity|].
      rewrite length_take, length_replicate. subst h. unfold len in *. lia.
    + subst h. unfold len in *. lia.
    + rewrite drop_ge by (subst h; unfold len in *; lia).
      cbn [groups]. rewrite app_nil_r. f_equal. subst h.
      unfold len in *. lia.
Qed.


Lemma index_app_r {A} (l1 l2 : list A) (j : Z) :
  0 <= j -> index (l1 ++ l2) (len l1 + j) = index l2 j.
Proof.
  intros Hj. unfold index, len.
  destruct (Z.ltb_spec (Z.of_nat (length l1) + j) 0); [lia|].
  destruct (Z.ltb_spec j 0); [lia|].
  rewrite lookup_app_r by lia. f_equal. lia.
Qed.

Lemma index_app_l {A} (l1 l2 : list A) (j : Z) :
  j < len l1 -> index (l1 ++ l2) j = index l1 j.
Proof.
  intros Hj. unfold index, len in *.
  destruct (Z.ltb_spec j 0); [reflexivity|].
  rewrite lookup_app_l by lia. reflexivity.
Qed.

Lemma groups_index (k : nat) : forall (g : list byte) (p : Z),
  length g = (3 * k)%nat ->
  0 <= p < 4 * Z.of_nat k ->
  index (groups g) (4 * Z.of_nat k - 1 - p)
  = if p mod 4 =? 3 then Some comma
    else index g (3 * Z.of_nat k - 1 - (p - p / 4)).
Proof.
  induction k as [|k IH]; intros g p Hg Hp; [lia|].
  destruct g as [|a [|b [|c rest]]]; cbn [length] in Hg; try lia.
  cbn [groups].
  pose proof (Z.div_mod p 4 ltac:(lia)) as Hdm.
  pose proof (Z.mod_pos_bound p 4 ltac:(lia)) as Hr.
  set (q := p / 4) in *. set (r := p mod 4) in *.
  destruct (Z.lt_ge_cases p (4 * Z.of_nat k)) as [Hlt | Hge].
  - replace (4 * Z.of_nat (S k) - 1 - p)
      with (len [comma; a; b; c] + (4 * Z.of_nat k - 1 - p))
      by (unfold len; cbn [length]; lia).
    rewrite (index_app_r [comma; a; b; c] (groups rest)) by lia.
    rewrite (IH rest p) by lia. fold r. fold q.
    destruct (Z.eqb_spec r 3) as [_ | Hr3]; [reflexivity|].
    replace (3 * Z.of_nat (S k) - 1 - (p - q))
      with (len [a; b; c] + (3 * Z.of_nat k - 1 - (p - q)))
      by (unfold len; cbn [length]; lia).
    rewrite (index_app_r [a; b; c] rest) by lia. reflexivity.
  - assert (Hq : q = Z.of_nat k) by lia.
    replace (4 * Z.of_nat (S k) - 1 - p) with (3 - r) by lia.
    replace (3 * Z.of_nat (S k) - 1 - (p - q)) with (2 - r) by lia.
    assert (Hcases : r = 0 \/ r = 1 \/ r = 2 \/ r = 3) by lia.
    destruct Hcases as [-> | [-> | [-> | ->]]]; reflexivity.
Qed.

Lemma grouped_index (str : list byte) (p : Z) :
  1 <= len str ->
  0 <= p < len str + (len str - 1) / 3 ->
  index (grouped str) (len str + (len str - 1) / 3 - 1 - p)
  = if p mod 4 =? 3 then Some comma
    else index str (len str - 1 - (p - p / 4)).
Proof.
  intros Hlen Hp. unfold grouped.
  set (sep := (len str - 1) / 3) in *.
  assert (Hsep : 0 <= sep /\ 1 <= len str - 3 * sep <= 3)
    by (subst sep; Z.div_mod_to_equations; lia).
  set (h := Z.to_nat (len str - 3 * sep)).
  assert (Hh : len (take h str) = Z.of_nat h).
  { unfold len in *. rewrite length_take. subst h. lia. }
  assert (Hg : length (drop h str) = (3 * Z.to_nat sep)%nat).
  { rewrite length_drop. subst h. unfold len in *. lia. }
  pose proof (Z.div_mod p 4 ltac:(lia)) as Hdm.
  pose proof (Z.mod_pos_bound p 4 ltac:(lia)) as Hr.
  destruct (Z.lt_ge_cases p (4 * sep)) as [Hlt | Hge].
  - replace (len str + sep - 1 - p)
      with (len (take h str) + (4 * Z.of_nat (Z.to_nat sep) - 1 - p))
      by (rewrite Hh; subst h; lia).
    rewrite index_app_r by lia.
    rewrite (groups_index (Z.to_nat sep) (drop h str) p Hg) by lia.
    destruct (Z.eqb_spec (p mod 4) 3) as [_ | Hr3]; [reflexivity|].
    transitivity (index (take h str ++ drop h str)
                    (len str - 1 - (p - p / 4)));
      [|rewrite take_drop; reflexivity].
    replace (len str - 1 - (p - p / 4))
      with (len (take h str)
            + (3 * Z.of_nat (Z.to_nat sep) - 1 - (p - p / 4)))
      by (rewrite Hh; subst h; lia).
    rewrite index_app_r by lia. reflexivity.
  - assert (Hq : p / 4 = sep) by (subst h; lia).
    destruct (Z.eqb_spec (p mod 4) 3) as [Hr3 | _]; [subst h; lia|].
    rewrite index_app_l by (rewrite Hh; subst h; lia).
    transitivity (index (take h str ++ drop h str)
                    (len str - 1 - (p - p / 4)));
      [|rewrite take_drop; reflexivity].
    rewrite index_app_l by (rewrite Hh; subst h; lia).
    f_equal. lia.
Qed.

Lemma grouped_length (str : list byte) :
  1 <= len str -> len (grouped str) = len str + (len str - 1) / 3.
Proof.
  intros Hlen. unfold grouped.
  set (sep := (len str - 1) / 3) in *.
  assert (Hsep : 0 <= sep /\ 1 <= len str - 3 * sep <= 3)
    by (subst sep; Z.div_mod_to_equations; lia).
  set (h := Z.to_nat (len str - 3 * sep)).
  unfold len at 1. rewrite length_app, length_take.
  rewrite (groups_length (Z.to_nat sep)).
  - subst h. unfold len in *. lia.
  - rewrite length_drop. subst h. unfold len in *. lia.
Qed.

Lemma groups_strip (k : nat) : forall g,
  length g = (3 * k)%nat -> strip_commas (groups g) = strip_commas g.
Proof.
  induction k as [|k IH]; intros g Hg.
  - destruct g; [reflexivity | discriminate].
  - destruct g as [|a [|b [|c rest]]]; cbn [length] in Hg; try lia.
    cbn [groups]. unfold strip_commas in *.
    change (List.filter ?f (comma :: ?l)) with (List.filter f l).
    cbn [List.filter]. rewrite (IH rest) by lia. reflexivity.
Qed.

Lemma grouped_strip (str : list byte) :
  1 <= len str -> strip_commas (grouped str) = strip_commas str.
Proof.
  intros Hlen. unfold grouped.
  set (sep := (len str - 1) / 3) in *.
  assert (Hsep : 0 <= sep /\ 1 <= len str - 3 * sep <= 3)
    by (subst sep; Z.div_mod_to_equations; lia).
  set (h := Z.to_nat (len str - 3 * sep)).
  rewrite <- (take_drop h str) at 3. unfold strip_commas.
  rewrite !List.filter_app. f_equal.
  apply (groups_strip (Z.to_nat sep)).
  rewrite length_drop. subst h. unfold len in *. lia.
Qed.

(** A byte that is not a comma, as every byte that [%d] prints. *)
Definition printable (b : byte) : Prop :=
  b <> comma.

Lemma string_of_uint_printable (d : Decimal.uint) :
  Forall printable
    (String.list_byte_of_string (NilEmpty.string_of_uint d)).
Proof.
  induction d; cbn; constructor; try assumption; discriminate.
Qed.

Lemma Sprintf_d_printable (n : Z) : Forall printable (Sprintf_d n).
Proof.
  unfold Sprintf_d.
  destruct (Z.to_int n) as [d | d]; cbn [NilZero.string_of_int].
  - unfold NilZero.string_of_uint.
    destruct d; try apply string_of_uint_printable.
    cbn. constructor; [discriminate | constructor].
  - cbn. constructor; [discriminate|].
    unfold NilZero.string_of_uint.
    destruct d; try apply string_of_uint_printable.
    cbn. constructor; [discriminate | constructor].
Qed.

Lemma Sprintf_d_nonempty (n : Z) : 1 <= len (Sprintf_d n).
Proof.
  unfold Sprintf_d, len.
  destruct (Z.to_int n) as [d | d]; cbn [NilZero.string_of_int].
  - unfold NilZero.string_of_uint. destruct d; cbn; lia.
  - cbn. lia.
Qed.

Lemma strip_commas_printable (s : list byte) :
  Forall printable s -> strip_commas s = s.
Proof.
  induction 1 as [|b s Hb _ IH]; [reflexivity|].
  unfold strip_commas in *. cbn [List.filter].
  destruct (Byte.eqb b comma) eqn:Heq.
  - apply Byte.byte_dec_bl in Heq. contradiction.
  - cbn [negb]. rewrite IH. reflexivity.
Qed.

(** X12: [formatInt] never panics and puts its commas every three
    characters counted from the right.  The result is longer than the
    decimal string by [(length - 1) / 3]; the character [p] places from
    its right end is a comma exactly when [p mod 4 = 3], and otherwise it
    is the character [p - p / 4] places from the right end of the decimal
    string. *)
Theorem formatInt_commas_from_right (n : Z) :
  exists out,
    formatInt n = Some out
    /\ len out = len (Sprintf_d n) + (len (Sprintf_d n) - 1) / 3
    /\ forall p, 0 <= p < len out ->
         index out (len out - 1 - p)
         = if p mod 4 =? 3 then Some comma
           else index (Sprintf_d n)
                  (len (Sprintf_d n) - 1 - (p - p / 4)).
Proof.
  pose proof (Sprintf_d_nonempty n) as Hlen.
  exists (grouped (Sprintf_d n)). unfold formatInt.
  split; [apply formatStr_grouped|].
  split; [apply grouped_length; exact Hlen|].
  intros p Hp. rewrite grouped_length in * by exact Hlen.
  apply grouped_index; assumption.
Qed.

(** X13: taking the commas out of what [formatInt] returns gives back the
    decimal string of the number, for every [n], negative ones included. *)
Theorem formatInt_strip_commas (n : Z) :
  exists out, formatInt n = Some out /\ strip_commas out = Sprintf_d n.
Proof.
  exists (grouped (Sprintf_d n)). unfold formatInt.
  split; [apply formatStr_grouped|].
  rewrite grouped_strip by apply Sprintf_d_nonempty.
  apply strip_commas_printable, Sprintf_d_printable.
Qed.

(** X14: a negative number with three, six, nine, ... digits gets a comma
    directly after its minus sign: the grouping counts the sign as a
    character of the number. *)
Theorem formatInt_comma_after_sign (n : Z) (k : nat)
  (Hneg : n < 0)
  (Hdigits : length (Sprintf_d n) = (3 * k + 1)%nat)
  (Hk : (1 <= k)%nat) :
  exists rest, formatInt n = Some ("-"%byte :: comma :: rest).
Proof.
  unfold formatInt. rewrite formatStr_grouped. unfold grouped.
  assert (Hsep : (len (Sprintf_d n) - 1) / 3 = Z.of_nat k).
  { unfold len. rewrite Hdigits. Z.div_mod_to_equations. lia. }
  rewrite Hsep.
  replace (Z.to_nat (len (Sprintf_d n) - 3 * Z.of_nat k)) with 1%nat
    by (unfold len; rewrite Hdigits; lia).
  assert (Hsign : exists ds, Sprintf_d n = "-"%byte :: ds).
  { unfold Sprintf_d. destruct n as [|q|q]; try lia.
    cbn. eexists. reflexivity. }
  destruct Hsign as [ds Hds]. rewrite Hds in *. cbn [take drop app].
  destruct ds as [|a [|b [|c rest]]]; cbn [length] in Hdigits; try lia.
  cbn [groups]. eexists. reflexivity.
Qed.

Example formatInt_samples :
  formatInt 0 = Some (String.list_byte_of_string "0")
  /\ formatInt 999 = Some (String.list_byte_of_string "999")
  /\ formatInt 1000 = Some (String.list_byte_of_string "1,000")
  /\ formatInt 1234567 = Some (String.list_byte_of_string "1,234,567")
  /\ formatInt (-1234) = Some (String.list_byte_of_string "-1,234")
  /\ formatInt (-123456) = Some (String.list_byte_of_string "-,123,456").
Proof. split_and!; vm_compute; reflexivity. Qed.

(** [-123456]: a sign and six digits. *)
Lemma formatInt_comma_after_sign_witness :
  exists rest, formatInt (-123456) = Some ("-"%byte :: comma :: rest).
Proof.
  apply (formatInt_comma_after_sign (-123456) 2); [lia | reflexivity | lia].
Defined.

End Format.

(** * The mock region manager: regions and their splits *)

Module Regions.

(** [metapb.Peer], [metapb.RegionEpoch] and [metapb.Region], with the
    fields the manager uses. *)
Record Peer : Type := { PeerId : Z; StoreId : Z }.

Record RegionEpoch : Type := { ConfVer : Z; Version : Z }.

Record Region : Type := {
  Id : Z;
  StartKey : bytes;
  EndKey : bytes;
  Epoch : RegionEpoch;
  Peers : list Peer
}.

(** [bytes.Compare]: -1, 0 or 1 as the first slice is below, equal to or
    above the second in lexicographic order. *)
Fixpoint Compare (a b : bytes) : Z :=
  match a, b with
  | [], [] => 0
  | [], _ :: _ => -1
  | _ :: _, [] => 1
  | x :: a', z :: b' =>
      if (Byte.to_N x <? Byte.to_N z)%N then -1
      else if (Byte.to_N z <? Byte.to_N x)%N then 1
      else Compare a' b'
  end.

(** [bytes.Equal] *)
Definition Equal (a b : bytes) : bool := Compare a b =? 0.

(** [rm.regionContainsKey(r, key)] *)
Definition regionContainsKey (r : Region) (key : bytes) : bool :=
  (Compare (StartKey r) key <=? 0)
  && ((Compare key (EndKey r) <? 0) || (length (EndKey r) =? 0)%nat).

(** [rm.regionContainsKeyByEnd(r, key)] *)
Definition regionContainsKeyByEnd (r : Region) (key : bytes) : bool :=
  (Compare (StartKey r) key <? 0)
  && ((Compare key (EndKey r) <=? 0) || (length (EndKey r) =? 0)%nat).

Section Manager.

(** [rm.saveRegions]: the write of the regions to the store, which is not
    in the sources; the error it returns, if any. *)
Variable saveRegions : list Region -> option error.

(** The region manager: the regions by id, and, for the region tree that
    is not in the sources, the regions put into it, oldest first. *)
Record Manager : Type := {
  regions : gmap Z Region;
  treePuts : list Region
}.

(** The peers of the right region: the stores of the left region's peers
    with the ids given; [peerIDs[i]] panics when the ids run out. *)
Fixpoint newPeers (peers : list Peer) (peerIDs : list Z)
  : option (list Peer) :=
  match peers with
  | [] => Some []
  | p :: rest =>
      match peerIDs with
      | [] => None
      | pid :: pids =>
          ps ← newPeers rest pids;
          Some ({| PeerId := pid; StoreId := StoreId p |} :: ps)
      end
  end.

(** [rm.split(regionID, newRegionID, key, peerIDs)]: the right region or
    the error, and the manager afterwards; [None] is a panic (no region of
    that id, or too few peer ids). *)
Definition split (rm : Manager) (regionID newRegionID : Z) (key : bytes)
    (peerIDs : list Z) : option ((option Region * option error) * Manager) :=
  oldRegion ← regions rm !! regionID;
  let leftMeta :=
    {| Id := Id oldRegion;
       StartKey := StartKey oldRegion;
       EndKey := key;
       Epoch := {| ConfVer := ConfVer (Epoch oldRegion);
                   Version := uint64 (Version (Epoch oldRegion) + 1) |};
       Peers := Peers oldRegion |} in
  peers ← newPeers (Peers leftMeta) peerIDs;
  let rightMeta :=
    {| Id := newRegionID;
       StartKey := key;
       EndKey := EndKey oldRegion;
       Epoch := {| ConfVer := 1; Version := 1 |};
       Peers := peers |} in
  match saveRegions [leftMeta; rightMeta] with
  | Some err1 => Some ((None, Some err1), rm)
  | None =>
      Some ((Some rightMeta, None),
            {| regions := <[Id rightMeta := rightMeta]>
                            (<[Id leftMeta := leftMeta]> (regions rm));
               treePuts := treePuts rm ++ [leftMeta; rightMeta] |})
  end.

Lemma Compare_range a : forall b, -1 <= Compare a b <= 1.
Proof.
  induction a as [|x a IH]; intros [|z b]; simpl; try lia.
  destruct (_ <? _)%N; [lia|]. destruct (_ <? _)%N; [lia|]. apply IH.
Qed.

Lemma Compare_antisym a : forall b, Compare b a = - Compare a b.
Proof.
  induction a as [|x a IH]; intros [|z b]; simpl; try reflexivity.
  destruct (N.ltb_spec (Byte.to_N x) (Byte.to_N z));
    destruct (N.ltb_spec (Byte.to_N z) (Byte.to_N x)); try lia.
  apply IH.
Qed.

Lemma Compare_trans a : forall b c,
  (Compare a b <= 0 -> Compare b c <= 0 -> Compare a c <= 0)
  /\ (Compare a b < 0 -> Compare b c <= 0 -> Compare a c < 0)
  /\ (Compare a b <= 0 -> Compare b c < 0 -> Compare a c < 0).
Proof.
  induction a as [|x a IH]; intros [|z b] [|w c]; simpl; try lia.
  specialize (IH b c).
  destruct (N.ltb_spec (Byte.to_N x) (Byte.to_N z));
    destruct (N.ltb_spec (Byte.to_N z) (Byte.to_N x));
    destruct (N.ltb_spec (Byte.to_N z) (Byte.to_N w));
    destruct (N.ltb_spec (Byte.to_N w) (Byte.to_N z));
    destruct (N.ltb_spec (Byte.to_N x) (Byte.to_N w));
    destruct (N.ltb_spec (Byte.to_N w) (Byte.to_N x));
    try lia.
Qed.

Lemma newPeers_stores peers : forall peerIDs ps,
  newPeers peers peerIDs = Some ps ->
  StoreId <$> ps = StoreId <$> peers
  /\ PeerId <$> ps = take (length peers) peerIDs.
Proof.
  induction peers as [|p peers IH]; intros peerIDs ps Hps.
  - injection Hps as <-. split; reflexivity.
  - destruct peerIDs as [|pid pids]; [discriminate|]. cbn [newPeers] in Hps.
    destruct (newPeers peers pids) as [ps'|] eqn:Hrest; [|discriminate].
    injection Hps as <-. destruct (IH _ _ Hrest) as [Hs Hi].
    cbn. rewrite Hs, Hi. split; reflexivity.
Qed.

Lemma newPeers_too_few peers : forall peerIDs,
  (length peerIDs < length peers)%nat -> newPeers peers peerIDs = None.
Proof.
  induction peers as [|p peers IH]; intros [|pid pids] Hlen;
    cbn [length] in Hlen; try lia; [reflexivity|].
  cbn [newPeers]. rewrite IH by lia. reflexivity.
Qed.

(** X15: a split divides the region's keys between its two halves.  When
    [split] succeeds at a non-empty key that lies in the old region, the
    manager holds the right region under the new id and (when the ids
    differ) the left one under the old id, and every key is in the old
    region exactly when it is in the left or in the right one, never in
    both.  The left region keeps id and peers and has its version one
    higher; the right one starts at epoch 1/1 with a peer on each store of
    the old ones, under the ids given. *)
Theorem split_divides_region (rm rm' : Manager) (regionID newRegionID : Z)
    (key : bytes) (peerIDs : list Z) (old right : Region)
  (Hold : regions rm !! regionID = Some old)
  (Hkey : key ≠ [])
  (Hin : regionContainsKey old key = true)
  (Hsplit : split rm regionID newRegionID key peerIDs
            = Some ((Some right, None), rm')) :
  exists left,
    regions rm' !! newRegionID = Some right
    /\ (newRegionID ≠ Id old -> regions rm' !! Id old = Some left)
    /\ (forall k, regionContainsKey old k
                  = xorb (regionContainsKey left k) (regionContainsKey right k))
    /\ (forall k, regionContainsKey left k && regionContainsKey right k
                  = false)
    /\ (Id left, StartKey left, EndKey left, Peers left)
       = (Id old, StartKey old, key, Peers old)
    /\ Epoch left = {| ConfVer := ConfVer (Epoch old);
                       Version := uint64 (Version (Epoch old) + 1) |}
    /\ (Id right, StartKey right, EndKey right)
       = (newRegionID, key, EndKey old)
    /\ Epoch right = {| ConfVer := 1; Version := 1 |}
    /\ StoreId <$> Peers right = StoreId <$> Peers old
    /\ PeerId <$> Peers right = take (length (Peers old)) peerIDs.
Proof.
  unfold split in Hsplit. rewrite Hold in Hsplit. cbn in Hsplit.
  destruct (newPeers (Peers old) peerIDs) as [peers|] eqn:Hpeers;
    cbn in Hsplit; [|discriminate].
  destruct (saveRegions _) as [err|]; [discriminate|].
  injection Hsplit as <- <-.
  destruct (newPeers_stores _ _ _ Hpeers) as [Hstores Hids].
  eexists. split; [apply lookup_insert_eq|].
  split; [intros Hne; cbn [regions]; rewrite lookup_insert_ne by exact Hne;
          apply lookup_insert_eq|].
  assert (Hcontains : forall k,
    regionContainsKey old k
    = xorb (regionContainsKey
              {| Id := Id old; StartKey := StartKey old; EndKey := key;
                 Epoch := {| ConfVer := ConfVer (Epoch old);
                             Version := uint64 (Version (Epoch old) + 1) |};
                 Peers := Peers old |} k)
           (regionContainsKey
              {| Id := newRegionID; StartKey := key; EndKey := EndKey old;
                 Epoch := {| ConfVer := 1; Version := 1 |};
                 Peers := peers |} k)
    /\ regionContainsKey
         {| Id := Id old; StartKey := StartKey old; EndKey := key;
            Epoch := {| ConfVer := ConfVer (Epoch old);
                        Version := uint64 (Version (Epoch old) + 1) |};
            Peers := Peers old |} k
       && regionContainsKey
            {| Id := newRegionID; StartKey := key; EndKey := EndKey old;
               Epoch := {| ConfVer := 1; Version := 1 |};
               Peers := peers |} k
       = false).
  { intros k. unfold regionContainsKey in *. cbn [StartKey EndKey].
    apply andb_true_iff in Hin as [Hlo Hhi]. apply Z.leb_le in Hlo.
    assert (Hkeylen : (length key =? 0)%nat = false)
      by (destruct key; [contradiction | reflexivity]).
    rewrite Hkeylen, orb_false_r.
    pose proof (Compare_antisym k key) as Hanti.
    pose proof (Compare_trans (StartKey old) key k) as (Ht1 & _ & _).
    pose proof (Compare_trans k key (EndKey old)) as (_ & Ht2 & _).
    destruct (length (EndKey old) =? 0)%nat eqn:Hend.
    - rewrite !orb_true_r, !andb_true_r.
      destruct (Z.leb_spec (Compare (StartKey old) k) 0);
        destruct (Z.ltb_spec (Compare k key) 0);
        destruct (Z.leb_spec (Compare key k) 0); cbn; split;
        try reflexivity; lia.
    - rewrite orb_false_r in Hhi. apply Z.ltb_lt in Hhi.
      rewrite !orb_false_r.
      destruct (Z.leb_spec (Compare (StartKey old) k) 0);
        destruct (Z.ltb_spec (Compare k key) 0);
        destruct (Z.leb_spec (Compare key k) 0);
        destruct (Z.ltb_spec (Compare k (EndKey old)) 0); cbn; split;
        try reflexivity; lia. }
  split; [intros k; apply Hcontains|].
  split; [intros k; apply Hcontains|].
  repeat split; assumption.
Qed.

(** The region [leftMeta] that [split] builds from the old one. *)
Definition leftOf (old : Region) (key : bytes) : Region :=
  {| Id := Id old;
     StartKey := StartKey old;
     EndKey := key;
     Epoch := {| ConfVer := ConfVer (Epoch old);
                 Version := uint64 (Version (Epoch old) + 1) |};
     Peers := Peers old |}.

(** The region [rightMeta] that [split] builds when the peer ids
    suffice: a peer on the store of each old peer, under the id given at
    its index. *)
Definition rightOf (old : Region) (newRegionID : Z) (key : bytes)
    (peerIDs : list Z) : Region :=
  {| Id := newRegionID;
     StartKey := key;
     EndKey := EndKey old;
     Epoch := {| ConfVer := 1; Version := 1 |};
     Peers := zip_with (fun p pid => {| PeerId := pid; StoreId := StoreId p |})
                       (Peers old) peerIDs |}.

Lemma newPeers_enough peers : forall peerIDs,
  (length peers <= length peerIDs)%nat ->
  newPeers peers peerIDs
  = Some (zip_with (fun p pid => {| PeerId := pid; StoreId := StoreId p |})
                   peers peerIDs).
Proof.
  induction peers as [|p peers IH]; intros [|pid pids] Hlen;
    cbn [length] in Hlen; try lia; try reflexivity.
  cbn [newPeers zip_with]. rewrite IH by lia. reflexivity.
Qed.

(** X16: [split] panics when the manager has no region of the id, and when
    fewer peer ids are given than the region has peers.  Otherwise it
    hands the left and the right region to [saveRegions], in this order:
    when that returns an error, [split] returns this error with no region
    and leaves the manager as it was; when it returns none, [split]
    returns the right region and the manager holds the left region under
    the old id and the right one under the new id, both put into the
    region tree.  So every call that returns gives either a region and no
    error, or an error, no region and the manager unchanged. *)
Theorem split_failures (rm : Manager) (regionID newRegionID : Z)
    (key : bytes) (peerIDs : list Z) :
  (regions rm !! regionID = None ->
   split rm regionID newRegionID key peerIDs = None)
  /\ (forall old, regions rm !! regionID = Some old ->
        (length peerIDs < length (Peers old))%nat ->
        split rm regionID newRegionID key peerIDs = None)
  /\ (forall old, regions rm !! regionID = Some old ->
        (length (Peers old) <= length peerIDs)%nat ->
        let left := leftOf old key in
        let right := rightOf old newRegionID key peerIDs in
        split rm regionID newRegionID key peerIDs
        = match saveRegions [left; right] with
          | Some err => Some ((None, Some err), rm)
          | None =>
              Some ((Some right, None),
                    {| regions := <[newRegionID := right]>
                                    (<[Id old := left]> (regions rm));
                       treePuts := treePuts rm ++ [left; right] |})
          end)
  /\ (forall r rm', split rm regionID newRegionID key peerIDs
                    = Some (r, rm') ->
        exists old,
          regions rm !! regionID = Some old
          /\ (length (Peers old) <= length peerIDs)%nat
          /\ ((saveRegions [leftOf old key;
                            rightOf old newRegionID key peerIDs] = None
               /\ r = (Some (rightOf old newRegionID key peerIDs), None))
              \/ (exists err,
                    saveRegions [leftOf old key;
                                 rightOf old newRegionID key peerIDs]
                    = Some err
                    /\ r = (None, Some err) /\ rm' = rm))).
Proof.
  assert (Hok : forall old, regions rm !! regionID = Some old ->
            (length (Peers old) <= length peerIDs)%nat ->
            split rm regionID newRegionID key peerIDs
            = match saveRegions [leftOf old key;
                                 rightOf old newRegionID key peerIDs] with
              | Some err => Some ((None, Some err), rm)
              | None =>
                  Some ((Some (rightOf old newRegionID key peerIDs), None),
                        {| regions :=
                             <[newRegionID :=
                                 rightOf old newRegionID key peerIDs]>
                               (<[Id old := leftOf old key]> (regions rm));
                           treePuts :=
                             treePuts rm
                             ++ [leftOf old key;
                                 rightOf old newRegionID key peerIDs] |})
              end).
  { intros old Hold Hlen. unfold split. rewrite Hold.
    cbn [mbind option_bind Peers]. rewrite newPeers_enough by exact Hlen.
    cbn [mbind option_bind]. reflexivity. }
  split; [|split; [|split]].
  - intros Hnone. unfold split. rewrite Hnone. reflexivity.
  - intros old Hold Hlen. unfold split. rewrite Hold. cbn.
    rewrite newPeers_too_few by exact Hlen. reflexivity.
  - intros old Hold Hlen. cbn zeta. apply Hok; assumption.
  - intros r rm' Hsplit.
    destruct (regions rm !! regionID) as [old|] eqn:Hold;
      [|unfold split in Hsplit; rewrite Hold in Hsplit; discriminate].
    destruct (Nat.le_gt_cases (length (Peers old)) (length peerIDs))
      as [Hlen | Hlen].
    + exists old. split; [reflexivity|]. split; [exact Hlen|].
      rewrite (Hok old eq_refl Hlen) in Hsplit.
      destruct (saveRegions _) as [err|].
      * injection Hsplit as <- <-. right. exists err. auto.
      * injection Hsplit as <- <-. left. auto.
    + unfold split in Hsplit. rewrite Hold in Hsplit. cbn in Hsplit.
      rewrite newPeers_too_few in Hsplit by exact Hlen. discriminate.
Qed.

End Manager.


(** ** Splitting a region at several keys *)

Section SplitKeys.

(** [rm.storeMeta.Id] *)
Variable storeId : Z.

(** What the visitor of [splitKeys] works on: the keys still to place,
    the regions made so far, and the manager's id counter. *)
Record Visit : Type := {
  keys : list bytes;
  newRegions : list Region;
  ids : IDAlloc.MockRegionManager
}.

(** The loop [for i = 0; i < len(keys); i++] of the visitor: it stops at
    the first key that is not below a non-empty end key; the [i] it
    stops at. *)
Fixpoint keysBefore (endKey : bytes) (ks : list bytes) : nat :=
  match ks with
  | [] => 0
  | k :: rest =>
      if (0 <? length endKey)%nat && (0 <=? Compare k endKey) then 0%nat
      else S (keysBefore endKey rest)
  end.

(** A region made for a split: fresh ids for the region and its one peer,
    epoch 1/1. *)
Definition freshRegion (rm : IDAlloc.MockRegionManager) (startKey endKey : bytes)
  : Region * IDAlloc.MockRegionManager :=
  let '(rid, rm1) := IDAlloc.AllocID1 rm in
  let '(pid, rm2) := IDAlloc.AllocID1 rm1 in
  ({| Id := rid;
      StartKey := startKey;
      EndKey := endKey;
      Epoch := {| ConfVer := 1; Version := 1 |};
      Peers := [{| PeerId := pid; StoreId := storeId |}] |}, rm2).

(** [for i := 0; i < len(splits)-1; i++]: a region from each split key to
    the next. *)
Fixpoint middleRegions (splits : list bytes) (rm : IDAlloc.MockRegionManager)
  : list Region * IDAlloc.MockRegionManager :=
  match splits with
  | [] => ([], rm)
  | a :: rest =>
      match rest with
      | [] => ([], rm)
      | b :: _ =>
          let '(r, rm1) := freshRegion rm a b in
          let '(rs, rm2) := middleRegions rest rm1 in
          (r :: rs, rm2)
      end
  end.

(** The split keys the visitor uses for a region: the leading keys below
    its end, without a first one that is the region's start. *)
Definition splitsOf (region : Region) (ks : list bytes) : list bytes :=
  let splits := take (keysBefore (EndKey region) ks) ks in
  match splits with
  | [] => []
  | first :: rest =>
      if Equal (StartKey region) first then rest else splits
  end.

(** The visitor that [splitKeys] hands to the region tree, called on one
    region. *)
Definition visit (st : Visit) (region : Region) : Visit :=
  let i := keysBefore (EndKey region) (keys st) in
  let rest := drop i (keys st) in
  let splits := splitsOf region (keys st) in
  match splits with
  | [] => {| keys := rest; newRegions := newRegions st; ids := ids st |}
  | first :: _ =>
      let head :=
        {| Id := Id region;
           StartKey := StartKey region;
           EndKey := first;
           Epoch := {| ConfVer := ConfVer (Epoch region);
                       Version := uint64 (Version (Epoch region) + 1) |};
           Peers := Peers region |} in
      let '(middle, rm1) := middleRegions splits (ids st) in
      let '(tail, rm2) :=
        if negb (Equal (default [] (last splits)) (EndKey region))
        then let '(r, rm2) :=
               freshRegion rm1 (default [] (last splits)) (EndKey region) in
             ([r], rm2)
        else ([], rm1) in
      {| keys := rest;
         newRegions := newRegions st ++ [head] ++ middle ++ tail;
         ids := rm2 |}
  end.

Lemma to_N_inj (x z : byte) : Byte.to_N x = Byte.to_N z -> x = z.
Proof.
  intros Heq. pose proof (Byte.of_to_N x) as Hx.
  rewrite Heq, Byte.of_to_N in Hx. congruence.
Qed.

Lemma Compare_eq a : forall b, Compare a b = 0 -> a = b.
Proof.
  induction a as [|x a IH]; intros [|z b]; simpl; try discriminate;
    [reflexivity|].
  destruct (N.ltb_spec (Byte.to_N x) (Byte.to_N z)); [discriminate|].
  destruct (N.ltb_spec (Byte.to_N z) (Byte.to_N x)); [discriminate|].
  intros Hab. f_equal; [apply to_N_inj; lia | apply IH, Hab].
Qed.

Lemma middleRegions_cons a b rest rm :
  middleRegions (a :: b :: rest) rm
  = let '(r, rm1) := freshRegion rm a b in
    let '(rs, rm2) := middleRegions (b :: rest) rm1 in
    (r :: rs, rm2).
Proof. reflexivity. Qed.

Lemma middleRegions_keys splits : forall rm,
  StartKey <$> (middleRegions splits rm).1 = take (length splits - 1) splits
  /\ EndKey <$> (middleRegions splits rm).1 = drop 1 splits.
Proof.
  induction splits as [|a [|b rest] IH]; intros rm; try (split; reflexivity).
  rewrite middleRegions_cons.
  destruct (freshRegion rm a b) as [r rm1] eqn:Hfresh.
  assert (Hr : StartKey r = a /\ EndKey r = b).
  { unfold freshRegion in Hfresh. cbn [IDAlloc.AllocID1] in Hfresh.
    injection Hfresh as <- _. split; reflexivity. }
  destruct Hr as [Hra Hrb].
  specialize (IH rm1).
  destruct (middleRegions (b :: rest) rm1) as [rs rm2].
  destruct IH as [Hs He]. cbn [fst] in *.
  rewrite !fmap_cons, Hs, He, Hra, Hrb. cbn [length drop].
  split; [|reflexivity].
  replace (S (S (length rest)) - 1)%nat with (S (S (length rest) - 1))
    by lia.
  reflexivity.
Qed.

(** X17: the regions that the visitor of [splitKeys] makes for a region
    tile it.  They are none, or a run of regions in which the first starts
    at the region's start key, each one starts where the one before ends,
    and the last ends at the region's end key; the keys between are the
    split keys used, in order.  The first keeps the region's id and peers
    with the version one higher, and the keys left are those the loop did
    not take. *)
Theorem visit_tiles_region (st : Visit) (region : Region) :
  exists made,
    newRegions (visit st region) = newRegions st ++ made
    /\ keys (visit st region)
       = drop (keysBefore (EndKey region) (keys st)) (keys st)
    /\ (made = [] <-> splitsOf region (keys st) = [])
    /\ (made ≠ [] ->
        (StartKey <$> made) ++ [EndKey region]
        = StartKey region :: (EndKey <$> made)
        /\ (exists inner, StartKey <$> made = StartKey region :: inner
              /\ (inner = splitsOf region (keys st)
                  \/ inner ++ [EndKey region] = splitsOf region (keys st)))
        /\ (exists r rest, made = r :: rest
              /\ Id r = Id region /\ Peers r = Peers region
              /\ Epoch r = {| ConfVer := ConfVer (Epoch region);
                              Version := uint64 (Version (Epoch region) + 1) |})).
Proof.
  unfold visit.
  destruct (splitsOf region (keys st)) as [|first splits] eqn:Hsplits.
  - exists []. cbn. rewrite app_nil_r.
    repeat split; try reflexivity; intros; congruence.
  - pose proof (middleRegions_keys (first :: splits) (ids st)) as [Hs He].
    destruct (middleRegions (first :: splits) (ids st)) as [middle rm1].
    cbn [fst] in Hs, He. cbn [drop length] in He, Hs.
    replace (S (length splits) - 1)%nat with (length splits) in Hs by lia.
    rewrite drop_0 in He.
    destruct (last (first :: splits)) as [final|] eqn:Hlast;
      [|apply last_None in Hlast; discriminate].
    change (default [] (Some final)) with final.
    assert (Hsnoc : first :: splits = take (length splits) (first :: splits)
                                      ++ [final]).
    { apply last_Some in Hlast as [l' Hl']. rewrite Hl'.
      replace (length splits) with (length l').
      - rewrite take_app_length. reflexivity.
      - apply (f_equal length) in Hl'. rewrite length_app in Hl'.
        cbn [length] in Hl'. lia. }
    destruct (Equal final (EndKey region)) eqn:Heq; cbn [negb].
    + apply Z.eqb_eq, Compare_eq in Heq. subst final.
      eexists. cbn [newRegions keys]. split; [reflexivity|].
      split; [reflexivity|]. split; [split; discriminate|]. intros _.
      cbn [fmap list_fmap app StartKey EndKey].
      fold (fmap StartKey middle). fold (fmap EndKey middle).
      rewrite !fmap_app, Hs, He. cbn [fmap list_fmap app]. split; [|split].
      * rewrite !app_nil_r. f_equal. symmetry. exact Hsnoc.
      * exists (take (length splits) (first :: splits)).
        rewrite app_nil_r. split; [reflexivity|]. right.
        symmetry. exact Hsnoc.
      * eexists _, _. repeat split.
    + unfold freshRegion. cbn [IDAlloc.AllocID1].
      eexists. cbn [newRegions keys]. split; [reflexivity|].
      split; [reflexivity|]. split; [split; discriminate|]. intros _.
      cbn [fmap list_fmap app StartKey EndKey].
      fold (fmap StartKey middle). fold (fmap EndKey middle).
      rewrite !fmap_app, Hs, He. cbn [fmap list_fmap app StartKey EndKey].
      split; [|split].
      * rewrite <- app_assoc. cbn [app]. f_equal.
        rewrite (app_assoc _ [final] [EndKey region]), <- Hsnoc.
        reflexivity.
      * exists (first :: splits). split; [|left; reflexivity].
        f_equal. symmetry. exact Hsnoc.
      * eexists _, _. repeat split.
Qed.

End SplitKeys.


(** ** Split keys that divide a range evenly *)

(** How a call ends: with a result, in a runtime panic, or (for the model
    only) with the loop still running when the fuel is used up. *)
Inductive outcome (A : Type) : Type :=
| Returns (a : A)
| Panics
| OutOfFuel.
Arguments Returns {A} a.
Arguments Panics {A}.
Arguments OutOfFuel {A}.

Section CalculateSplitKeys.

(** [codec.EncodeBytes(nil, key)], from tidb. *)
Variable EncodeBytes : bytes -> bytes.

(** The keys that the iterator of [calculateSplitKeys] collects from
    [start] up to [end], or [None] when the view of the store fails; the
    store is not in the sources. *)
Variable keysBetween : bytes -> bytes -> option (list bytes).

(** The runtime's allocation limit, for the slice of split keys. *)
Variable maxAlloc : Z.

(** The size of an element of a [[][]byte], a slice header of pointer,
    length and capacity, on the 64-bit targets. *)
Definition sliceHeaderSize : Z := 24.

(** The loop [for i < len(keys)] of [calculateSplitKeys]. *)
Fixpoint splitLoop (fuel : nat) (ks : list bytes) (quotient remainder i : Z)
    (splitKeys : list bytes) : outcome (list bytes) :=
  match fuel with
  | O => OutOfFuel
  | S fuel' =>
      if i <? Z.of_nat (length ks) then
        let regionEntryCount := quotient in
        let '(remainder, regionEntryCount) :=
          if 0 <? remainder
          then (int64 (remainder - 1), int64 (regionEntryCount + 1))
          else (remainder, regionEntryCount) in
        let i := int64 (i + regionEntryCount) in
        if i <? Z.of_nat (length ks) then
          match index ks i with
          | Some k =>
              splitLoop fuel' ks quotient remainder i
                (splitKeys ++ [EncodeBytes k])
          | None => Panics
          end
        else splitLoop fuel' ks quotient remainder i splitKeys
      else Returns splitKeys
  end.

(** [rm.calculateSplitKeys(start, end, count)]:
    [make([][]byte, 0, count)] panics on a negative capacity and on one
    the runtime makes no slice for, and the division that follows it on a
    zero count. *)
Definition calculateSplitKeys (fuel : nat) (start end_ : bytes) (count : Z)
  : outcome (list bytes) :=
  match keysBetween start end_ with
  | None => Returns []
  | Some ks =>
      if negb (makeslice maxAlloc sliceHeaderSize 0 count) then Panics
      else if count =? 0 then Panics
      else
        let quotient := Z.of_nat (length ks) ÷ count in
        let remainder := Z.rem (Z.of_nat (length ks)) count in
        splitLoop fuel ks quotient remainder 0 []
  end.

(** The index of the [j]-th split key when [n = count * q + r] keys are
    divided: the first [r] regions hold [q + 1] keys, the others [q]. *)
Definition splitIndex (q r j : Z) : Z := j * q + Z.min j r.

(** The split keys from the [j]-th up to the [m - 1]-th. *)
Definition picks (ks : list bytes) (q r : Z) (j : Z) (m : nat) : list bytes :=
  omap (fun j' => EncodeBytes <$> index ks (splitIndex q r j'))
       (seqZ j (Z.of_nat m)).

Lemma splitLoop_picks (ks : list bytes) (q r m : Z) :
  0 <= q <= Z.of_nat (length ks) -> 0 <= r <= MaxInt64 ->
  Z.of_nat (length ks) < MaxInt64 ->
  splitIndex q r m = Z.of_nat (length ks) ->
  (forall j, 0 <= j < m -> splitIndex q r j < Z.of_nat (length ks)) ->
  forall (d : nat) (j : Z) (fuel : nat) (acc : list bytes),
    0 <= j -> j + Z.of_nat d = m -> (d < fuel)%nat ->
    splitLoop fuel ks q (r - Z.min j r) (splitIndex q r j) acc
    = Returns (acc ++ picks ks q r (j + 1) (d - 1)).
Proof.
  intros Hq Hr Hmax Hend Hlt. unfold splitIndex in *.
  induction d as [|d IH]; intros j fuel acc Hj Hd Hfuel;
    (destruct fuel as [|fuel]; [lia|]); cbn [splitLoop].
  - replace j with m by lia. rewrite Hend.
    rewrite Z.ltb_irrefl. unfold picks. cbn. rewrite app_nil_r. reflexivity.
  - pose proof (Hlt j ltac:(lia)) as Hjlt.
    destruct (Z.ltb_spec (j * q + Z.min j r) (Z.of_nat (length ks))); [|lia].
    assert (Hstep : (j + 1) * q + Z.min (j + 1) r
                    = j * q + Z.min j r + (q + (if 0 <? r - Z.min j r
                                                then 1 else 0))).
    { destruct (Z.ltb_spec 0 (r - Z.min j r)); lia. }
    assert (Hrem : r - Z.min (j + 1) r
                   = r - Z.min j r - (if 0 <? r - Z.min j r then 1 else 0)).
    { destruct (Z.ltb_spec 0 (r - Z.min j r)); lia. }
    assert (Hnext : (j + 1) * q + Z.min (j + 1) r <= Z.of_nat (length ks)).
    { destruct d as [|d].
      - replace (j + 1) with m by lia. lia.
      - pose proof (Hlt (j + 1) ltac:(lia)). lia. }
    assert (Hstate :
      (let '(remainder, regionEntryCount) :=
         if 0 <? r - Z.min j r
         then (int64 (r - Z.min j r - 1), int64 (q + 1))
         else (r - Z.min j r, q) in
       (remainder, int64 (j * q + Z.min j r + regionEntryCount)))
      = (r - Z.min (j + 1) r, (j + 1) * q + Z.min (j + 1) r)).
    { rewrite Hrem, Hstep.
      destruct (Z.ltb_spec 0 (r - Z.min j r)).
      - rewrite (int64_small (r - Z.min j r - 1))
          by (unfold MaxInt64 in *; lia).
        rewrite (int64_small (q + 1)) by (unfold MaxInt64 in *; lia).
        rewrite int64_small by (unfold MaxInt64 in *; lia). reflexivity.
      - rewrite int64_small by (unfold MaxInt64 in *; lia).
        f_equal; lia. }
    destruct (if 0 <? r - Z.min j r
              then (int64 (r - Z.min j r - 1), int64 (q + 1))
              else (r - Z.min j r, q)) as [rem' cnt'].
    injection Hstate as -> ->.
    destruct d as [|d].
    + replace (j + 1) with m by lia. rewrite Hend, Z.ltb_irrefl.
      replace m with (j + 1) by lia. rewrite <- Hend.
      replace (j + 1) with m at 1 2 by lia.
      rewrite (IH m fuel acc) by lia.
      unfold picks. cbn. reflexivity.
    + pose proof (Hlt (j + 1) ltac:(lia)) as Hj1.
      destruct (Z.ltb_spec ((j + 1) * q + Z.min (j + 1) r)
                  (Z.of_nat (length ks))); [|lia].
      destruct (index ks ((j + 1) * q + Z.min (j + 1) r)) as [k|] eqn:Hk.
      * rewrite (IH (j + 1)) by lia. rewrite <- app_assoc. f_equal.
        unfold picks.
        replace (Z.of_nat (S (S d) - 1)) with (Z.succ (Z.of_nat (S d - 1)))
          by lia.
        rewrite (seqZ_cons (j + 1)) by lia. cbn [omap list_omap].
        change (splitIndex q r (j + 1))
          with ((j + 1) * q + Z.min (j + 1) r).
        rewrite Hk. cbn [fmap option_fmap option_map].
        rewrite Z.pred_succ. replace (Z.succ (j + 1)) with (j + 1 + 1) by lia.
        reflexivity.
      * exfalso. unfold index in Hk.
        destruct (Z.ltb_spec ((j + 1) * q + Z.min (j + 1) r) 0); [lia|].
        apply lookup_ge_None in Hk. lia.
Qed.


Lemma picks_all (ks : list bytes) (q r : Z) (m : nat) : forall j,
  (forall j', j <= j' < j + Z.of_nat m ->
     0 <= splitIndex q r j' < Z.of_nat (length ks)) ->
  Forall2 (fun j' p => EncodeBytes <$> index ks (splitIndex q r j') = Some p)
          (seqZ j (Z.of_nat m)) (picks ks q r j m).
Proof.
  unfold picks. induction m as [|m IH]; intros j Hin; [constructor|].
  replace (Z.of_nat (S m)) with (Z.succ (Z.of_nat m)) by lia.
  rewrite seqZ_cons by lia. rewrite Z.pred_succ. cbn [omap list_omap].
  destruct (index ks (splitIndex q r j)) as [k|] eqn:Hk.
  - cbn [fmap option_fmap option_map]. constructor.
    + rewrite Hk. reflexivity.
    + apply IH. intros j' Hj'. apply Hin. lia.
  - exfalso. specialize (Hin j ltac:(lia)). unfold index in Hk.
    destruct (Z.ltb_spec (splitIndex q r j) 0); [lia|].
    apply lookup_ge_None in Hk. lia.
Qed.

(** X18: [calculateSplitKeys] divides the keys of the range evenly.  With
    [n] keys in the range and a count of at least one that the runtime
    makes a slice of that capacity for, the loop ends and returns
    [min n count - 1] split keys (none for an empty range): the [j]-th is
    the encoded key at index [j * q + min j r], where [q] and [r] are
    quotient and remainder of [n] by the count, so the keys fall into
    [min n count] runs whose sizes are [q] or [q + 1], the larger ones
    first.  With a count of zero or below, and with a count that the
    runtime makes no slice of that capacity for, the call panics. *)
Theorem calculateSplitKeys_divides_evenly (fuel : nat) (start end_ : bytes)
    (count : Z) (ks : list bytes)
  (Hkeys : keysBetween start end_ = Some ks) :
  let n := Z.of_nat (length ks) in
  let q := n / count in
  let r := n mod count in
  let m := Z.min n count in
  (count <= 0 -> calculateSplitKeys fuel start end_ count = Panics)
  /\ (makeslice maxAlloc sliceHeaderSize 0 count = false ->
      calculateSplitKeys fuel start end_ count = Panics)
  /\ (1 <= count <= MaxInt64 ->
      makeslice maxAlloc sliceHeaderSize 0 count = true ->
      n < MaxInt64 -> (length ks < fuel)%nat ->
      exists splitKeys,
        calculateSplitKeys fuel start end_ count = Returns splitKeys
        /\ Forall2 (fun j p =>
                      EncodeBytes <$> index ks (splitIndex q r j) = Some p)
                   (seqZ 1 (m - 1)) splitKeys
        /\ splitIndex q r 0 = 0
        /\ splitIndex q r m = n
        /\ forall j, 0 <= j < m ->
             q <= splitIndex q r (j + 1) - splitIndex q r j <= q + 1).
Proof.
  intros n q r m. unfold calculateSplitKeys. rewrite Hkeys.
  split; [|split].
  - intros Hcount.
    destruct (makeslice maxAlloc sliceHeaderSize 0 count) eqn:Hmake;
      cbn [negb]; [|reflexivity].
    apply makeslice_true in Hmake.
    replace count with 0 by lia. reflexivity.
  - intros ->. reflexivity.
  - intros Hcount Hmake Hn Hfuel. rewrite Hmake. cbn [negb].
    destruct (Z.eqb_spec count 0); [lia|].
    rewrite Z.quot_div_nonneg, Z.rem_mod_nonneg by lia.
    fold n q r.
    assert (Hdiv : n = count * q + r /\ 0 <= r < count).
    { subst q r. split; [apply Z.div_mod; lia | apply Z.mod_pos_bound; lia]. }
    destruct Hdiv as [Hnqr Hr].
    assert (Hq : 0 <= q) by (subst q; apply Z.div_pos; lia).
    assert (Hm0 : 0 <= m) by (subst m; lia).
    assert (Hcases : (1 <= q /\ m = count) \/ (q = 0 /\ m = n /\ r = n)).
    { destruct (Z.lt_ge_cases n count) as [Hlt | Hge].
      - right. assert (q = 0) by (subst q; apply Z.div_small; lia).
        subst m. lia.
      - left. assert (1 <= q) by (subst q; apply Z.div_le_lower_bound; lia).
        subst m. lia. }
    assert (Hend : splitIndex q r m = n).
    { unfold splitIndex. destruct Hcases as [[Hq1 ->] | (-> & -> & ->)]; lia. }
    assert (Hlt : forall j, 0 <= j < m -> splitIndex q r j < n).
    { intros j Hj. unfold splitIndex.
      destruct Hcases as [[Hq1 Hmc] | (Hq0 & Hmn & Hrn)].
      - assert (j * q + q <= count * q) by nia. lia.
      - rewrite Hq0. lia. }
    assert (Hqn : q <= n) by (destruct Hcases as [[? ?] | (? & ? & ?)]; nia).
    pose proof (splitLoop_picks ks q r m ltac:(lia)
                  ltac:(unfold MaxInt64 in *; lia) Hn Hend Hlt
                  (Z.to_nat m) 0 fuel [] ltac:(lia) ltac:(lia)
                  ltac:(subst m n; lia)) as Hloop.
    replace (r - Z.min 0 r) with r in Hloop by lia.
    change (splitIndex q r 0) with (0 * q + Z.min 0 r) in Hloop.
    replace (0 * q + Z.min 0 r) with 0 in Hloop by lia.
    rewrite Hloop. cbn [app].
    exists (picks ks q r (0 + 1) (Z.to_nat m - 1)).
    split; [reflexivity|]. split; [|split; [|split]].
    + destruct (Z.eq_dec m 0) as [Hm | Hm].
      * rewrite Hm. constructor.
      * replace (m - 1) with (Z.of_nat (Z.to_nat m - 1)) by lia.
        apply picks_all. intros j' Hj'. split.
        -- unfold splitIndex. nia.
        -- apply Hlt. lia.
    + unfold splitIndex. lia.
    + exact Hend.
    + intros j Hj. unfold splitIndex. lia.
Qed.

End CalculateSplitKeys.


(** ** A manager with one region, to run the model *)

Definition key (s : string) : bytes := String.list_byte_of_string s.

(** The region from ["a"] to ["z"], with a peer on each of two stores. *)
Definition sample_region : Region :=
  {| Id := 1; StartKey := key "a"; EndKey := key "z";
     Epoch := {| ConfVer := 1; Version := 5 |};
     Peers := [ {| PeerId := 11; StoreId := 1 |};
                {| PeerId := 12; StoreId := 2 |} ] |}.

Definition sample_manager : Manager :=
  {| regions := {[ 1 := sample_region ]}; treePuts := [sample_region] |}.

(** A store that saves every region. *)
Definition save_ok (_ : list Region) : option error := None.

Definition sample_right : Region :=
  {| Id := 2; StartKey := key "m"; EndKey := key "z";
     Epoch := {| ConfVer := 1; Version := 1 |};
     Peers := [ {| PeerId := 21; StoreId := 1 |};
                {| PeerId := 22; StoreId := 2 |} ] |}.

Definition sample_left : Region :=
  {| Id := 1; StartKey := key "a"; EndKey := key "m";
     Epoch := {| ConfVer := 1; Version := 6 |};
     Peers := Peers sample_region |}.

Definition sample_after_split : Manager :=
  {| regions := <[2 := sample_right]> (<[1 := sample_left]> (regions sample_manager));
     treePuts := [sample_region; sample_left; sample_right] |}.

Example split_sample :
  split save_ok sample_manager 1 2 (key "m") [21; 22; 23]
  = Some ((Some sample_right, None), sample_after_split)
  /\ split save_ok sample_manager 1 2 (key "m") [21] = None
  /\ split save_ok sample_manager 3 2 (key "m") [21; 22] = None
  /\ regionContainsKey sample_left (key "lz") = true
  /\ regionContainsKey sample_right (key "lz") = false
  /\ regionContainsKey sample_right (key "m") = true
  /\ regionContainsKeyByEnd sample_left (key "m") = true
  /\ regionContainsKeyByEnd sample_right (key "m") = false.
Proof. split_and!; vm_compute; reflexivity. Qed.

(** A store that saves nothing. *)
Definition save_fails (_ : list Region) : option error :=
  Some (Errorf "no store").

Example split_save_fails :
  split save_fails sample_manager 1 2 (key "m") [21; 22; 23]
  = Some ((None, Some (Errorf "no store")), sample_manager)
  /\ leftOf sample_region (key "m") = sample_left
  /\ rightOf sample_region 2 (key "m") [21; 22; 23] = sample_right.
Proof. split_and!; vm_compute; reflexivity. Qed.

Lemma split_divides_region_witness :
  regions sample_manager !! 1 = Some sample_region
  /\ key "m" ≠ []
  /\ regionContainsKey sample_region (key "m") = true
  /\ split save_ok sample_manager 1 2 (key "m") [21; 22; 23]
     = Some ((Some sample_right, None), sample_after_split)
  /\ exists left,
       regions sample_after_split !! 2 = Some sample_right
       /\ (2 ≠ Id sample_region ->
           regions sample_after_split !! Id sample_region = Some left)
       /\ (forall k, regionContainsKey sample_region k
                     = xorb (regionContainsKey left k)
                            (regionContainsKey sample_right k))
       /\ (forall k, regionContainsKey left k
                     && regionContainsKey sample_right k = false)
       /\ (Id left, StartKey left, EndKey left, Peers left)
          = (Id sample_region, StartKey sample_region, key "m",
             Peers sample_region)
       /\ Epoch left
          = {| ConfVer := ConfVer (Epoch sample_region);
               Version := uint64 (Version (Epoch sample_region) + 1) |}
       /\ (Id sample_right, StartKey sample_right, EndKey sample_right)
          = (2, key "m", EndKey sample_region)
       /\ Epoch sample_right = {| ConfVer := 1; Version := 1 |}
       /\ StoreId <$> Peers sample_right = StoreId <$> Peers sample_region
       /\ PeerId <$> Peers sample_right
          = take (length (Peers sample_region)) [21; 22; 23].
Proof.
  assert (Hold : regions sample_manager !! 1 = Some sample_region)
    by (vm_compute; reflexivity).
  assert (Hkey : key "m" ≠ []) by discriminate.
  assert (Hin : regionContainsKey sample_region (key "m") = true)
    by (vm_compute; reflexivity).
  assert (Hsplit : split save_ok sample_manager 1 2 (key "m") [21; 22; 23]
                   = Some ((Some sample_right, None), sample_after_split))
    by (vm_compute; reflexivity).
  split; [exact Hold|]. split; [exact Hkey|]. split; [exact Hin|].
  split; [exact Hsplit|].
  exact (split_divides_region save_ok sample_manager sample_after_split 1 2
           (key "m") [21; 22; 23] sample_region sample_right
           Hold Hkey Hin Hsplit).
Defined.

(** The visitor on the sample region with the keys ["a"], ["g"], ["m"],
    ["z"] and ["zz"]: the first is the region's start, the last two are
    not below its end. *)
Example visit_sample :
  visit 9 {| keys := [key "a"; key "g"; key "m"; key "z"; key "zz"];
             newRegions := [];
             ids := {| IDAlloc.id := 100 |} |} sample_region
  = {| keys := [key "z"; key "zz"];
       newRegions :=
         [ {| Id := 1; StartKey := key "a"; EndKey := key "g";
              Epoch := {| ConfVer := 1; Version := 6 |};
              Peers := Peers sample_region |};
           {| Id := 101; StartKey := key "g"; EndKey := key "m";
              Epoch := {| ConfVer := 1; Version := 1 |};
              Peers := [ {| PeerId := 102; StoreId := 9 |} ] |};
           {| Id := 103; StartKey := key "m"; EndKey := key "z";
              Epoch := {| ConfVer := 1; Version := 1 |};
              Peers := [ {| PeerId := 104; StoreId := 9 |} ] |} ];
       ids := {| IDAlloc.id := 104 |} |}.
Proof. vm_compute. reflexivity. Qed.

(** Seven keys in the range, whatever its bounds. *)
Definition seven_keys (_ _ : bytes) : option (list bytes) :=
  Some (key <$> ["k1"; "k2"; "k3"; "k4"; "k5"; "k6"; "k7"]).

Example calculateSplitKeys_sample :
  calculateSplitKeys id seven_keys maxAlloc64 8 [] [] 3
  = Returns [key "k4"; key "k6"]
  /\ calculateSplitKeys id seven_keys maxAlloc64 8 [] [] 10
     = Returns (key <$> ["k2"; "k3"; "k4"; "k5"; "k6"; "k7"])
  /\ calculateSplitKeys id seven_keys maxAlloc64 8 [] [] 1 = Returns []
  /\ calculateSplitKeys id seven_keys maxAlloc64 8 [] [] 0 = Panics
  /\ calculateSplitKeys id seven_keys maxAlloc64 8 [] [] (-2) = Panics.
Proof. split_and!; vm_compute; reflexivity. Qed.

(** A count of [MaxInt64] is a capacity no slice has: [make] panics,
    whatever the runtime's limit. *)
Example calculateSplitKeys_count_too_large :
  calculateSplitKeys id seven_keys maxAlloc64 8 [] [] MaxInt64 = Panics
  /\ calculateSplitKeys id seven_keys MaxUint64 8 [] [] MaxInt64 = Panics
  /\ calculateSplitKeys id seven_keys maxAlloc64 8 [] [] (2 ^ 44) = Panics.
Proof. split_and!; vm_compute; reflexivity. Qed.

Lemma calculateSplitKeys_divides_evenly_witness :
  seven_keys [] [] = Some (key <$> ["k1"; "k2"; "k3"; "k4"; "k5"; "k6"; "k7"])
  /\ makeslice maxAlloc64 sliceHeaderSize 0 3 = true
  /\ (3 <= 0 ->
      calculateSplitKeys id seven_keys maxAlloc64 8 [] [] 3 = Panics)
  /\ (makeslice maxAlloc64 sliceHeaderSize 0 3 = false ->
      calculateSplitKeys id seven_keys maxAlloc64 8 [] [] 3 = Panics)
  /\ (1 <= 3 <= MaxInt64 ->
      makeslice maxAlloc64 sliceHeaderSize 0 3 = true ->
      7 < MaxInt64 -> (7 < 8)%nat ->
      exists splitKeys,
        calculateSplitKeys id seven_keys maxAlloc64 8 [] [] 3
        = Returns splitKeys
        /\ Forall2 (fun j p =>
                      id <$> index (key <$> ["k1"; "k2"; "k3"; "k4"; "k5";
                                             "k6"; "k7"])
                               (splitIndex (7 / 3) (7 mod 3) j) = Some p)
                   (seqZ 1 (Z.min 7 3 - 1)) splitKeys
        /\ splitIndex (7 / 3) (7 mod 3) 0 = 0
        /\ splitIndex (7 / 3) (7 mod 3) (Z.min 7 3) = 7
        /\ forall j, 0 <= j < Z.min 7 3 ->
             7 / 3 <= splitIndex (7 / 3) (7 mod 3) (j + 1)
                      - splitIndex (7 / 3) (7 mod 3) j <= 7 / 3 + 1).
Proof.
  split; [reflexivity|]. split; [reflexivity|].
  exact (calculateSplitKeys_divides_evenly id seven_keys maxAlloc64 8 [] [] 3
           (key <$> ["k1"; "k2"; "k3"; "k4"; "k5"; "k6"; "k7"]) eq_refl).
Defined.

End Regions.

(** * The raft store: callbacks and custom write batches *)

Module raftstore.

(** How a call ends: it returns, it blocks on a channel, or it panics. *)
Inductive outcome (A : Type) : Type :=
| Returns (a : A)
| Blocks
| Panics.
Arguments Returns {A} a.
Arguments Blocks {A}.
Arguments Panics {A}.

Section Callback.

(** [raft_cmdpb.RaftCmdResponse] *)
Variable Response : Type.

(** [Callback]. [respCh] holds the responses buffered in the channel,
    oldest first; [doneFn] tells whether a function is set, and
    [doneCalls] counts the calls made to it. *)
Record Callback : Type := {
  respCh : list Response;
  doneFn : bool;
  doneCalls : nat;
  respOnProposed : bool
}.

(** The capacity [NewCallback] gives the channel. *)
Definition respChCap : nat := 2.

(** [NewCallback()] *)
Definition NewCallback : Callback :=
  {| respCh := []; doneFn := false; doneCalls := 0; respOnProposed := false |}.

(** [cb.respCh <- resp]: a send on a full channel blocks. *)
Definition send (cb : Callback) (resp : Response) : outcome Callback :=
  if (length (respCh cb) <? respChCap)%nat
  then Returns {| respCh := respCh cb ++ [resp];
                  doneFn := doneFn cb;
                  doneCalls := doneCalls cb;
                  respOnProposed := respOnProposed cb |}
  else Blocks.

(** [cb.MaybeResponseOnProposed(resp)], on a pointer that may be nil. *)
Definition MaybeResponseOnProposed (cb : option Callback) (resp : Response)
  : outcome (option Callback) :=
  match cb with
  | Some c =>
      if respOnProposed c then
        match send c resp with
        | Returns c' => Returns (Some c')
        | Blocks => Blocks
        | Panics => Panics
        end
      else Returns cb
  | None => Returns None
  end.

(** [cb.Done(resp)] *)
Definition Done (cb : option Callback) (resp : Response)
  : outcome (option Callback) :=
  match cb with
  | Some c =>
      match send c resp with
      | Returns c' =>
          Returns (Some (if doneFn c'
                         then {| respCh := respCh c';
                                 doneFn := doneFn c';
                                 doneCalls := S (doneCalls c');
                                 respOnProposed := respOnProposed c' |}
                         else c'))
      | Blocks => Blocks
      | Panics => Panics
      end
  | None => Returns None
  end.

(** [cb.Wait()]: a receive on an empty channel blocks; a nil callback is
    dereferenced. *)
Definition Wait (cb : option Callback) : outcome (Response * Callback) :=
  match cb with
  | Some c =>
      match respCh c with
      | [] => Blocks
      | resp :: rest =>
          Returns (resp, {| respCh := rest;
                            doneFn := doneFn c;
                            doneCalls := doneCalls c;
                            respOnProposed := respOnProposed c |})
      end
  | None => Panics
  end.

(** X19: the channel of a callback has room for the two responses of one
    command.  On a callback whose channel is empty, the response on
    proposal and then the one on completion are both sent without
    blocking; the first [Wait] returns the one on proposal when
    [respOnProposed] is set and the one on completion otherwise, the done
    function is called once if there is one, and with [respOnProposed] set
    a second [Wait] returns the response on completion while a third send
    would block. *)
Theorem Callback_holds_both_responses (cb : Callback)
    (proposed done more : Response)
  (Hempty : respCh cb = []) :
  exists cb1 cb2 cb3,
    MaybeResponseOnProposed (Some cb) proposed = Returns (Some cb1)
    /\ Done (Some cb1) done = Returns (Some cb2)
    /\ Wait (Some cb2)
       = Returns (if respOnProposed cb then proposed else done, cb3)
    /\ doneCalls cb2 = (doneCalls cb + if doneFn cb then 1 else 0)%nat
    /\ (if respOnProposed cb
        then exists cb4, Wait (Some cb3) = Returns (done, cb4)
                         /\ Wait (Some cb4) = Blocks
                         /\ Done (Some cb2) more = Blocks
        else Wait (Some cb3) = Blocks).
Proof.
  destruct cb as [ch fn calls onProposed]. cbn in Hempty. subst ch.
  destruct onProposed, fn; cbn; eexists _, _, _;
    (split; [reflexivity|]); cbn; (split; [reflexivity|]);
    (split; [reflexivity|]); (split; [cbn; lia|]);
    first [reflexivity | eexists; repeat split].
Qed.

End Callback.

(** The callback of [WritePessimisticLock], with the responses ["p"] and
    ["d"]. *)
Lemma Callback_holds_both_responses_witness :
  respCh string {| respCh := []; doneFn := true; doneCalls := 0;
                   respOnProposed := true |} = []
  /\ exists cb1 cb2 cb3,
       MaybeResponseOnProposed string
         (Some {| respCh := []; doneFn := true; doneCalls := 0;
                  respOnProposed := true |}) "p"
       = Returns (Some cb1)
       /\ Done string (Some cb1) "d" = Returns (Some cb2)
       /\ Wait string (Some cb2) = Returns ("p", cb3)
       /\ doneCalls string cb2 = 1%nat
       /\ exists cb4, Wait string (Some cb3) = Returns ("d", cb4)
                      /\ Wait string (Some cb4) = Blocks
                      /\ Done string (Some cb2) "x" = Blocks.
Proof.
  split; [reflexivity|].
  exact (Callback_holds_both_responses string
           {| respCh := []; doneFn := true; doneCalls := 0;
              respOnProposed := true |} "p" "d" "x" eq_refl).
Defined.

Section CustomWriteBatch.

(** [mvcc.MvccLock] and its [MarshalBinary], which are not in the
    sources. *)
Variable MvccLock : Type.
Variable MarshalBinary : MvccLock -> bytes.

(** The kinds of custom raft log, and the constants [raftlog.TypePrewrite],
    [raftlog.TypeCommit], [raftlog.TypeRollback],
    [raftlog.TypePessimisticLock] and [raftlog.TypePessimisticRollback]
    that name them. *)
Inductive Kind : Type :=
| KindPrewrite | KindCommit | KindRollback
| KindPessimisticLock | KindPessimisticRollback.

Variable Type_ : Kind -> Z.

(** What is appended to the builder. *)
Inductive Appended : Type :=
| AppendLock (key val : bytes)
| AppendCommit (key val : bytes) (commitTS : Z)
| AppendRollback (key : bytes) (startTS : Z) (deleteLock : bool)
| AppendKeyOnly (key : bytes).

(** Modelled from the spec: [raftlog.CustomBuilder], which is not in the
    sources; "a header ... followed by a typed payload: one of {Prewrite,
    Commit, Rollback, PessimisticLock, PessimisticRollback}, each a
    sequence of key+value entries". The builder keeps the type ([GetType],
    [SetType]; 0 while none is set) and the entries appended, in order. *)
Record CustomBuilder : Type := {
  tp : Z;
  payload : list Appended
}.

(** [customWriteBatch] *)
Record customWriteBatch : Type := {
  startTS : Z;
  commitTS : Z;
  builder : CustomBuilder
}.

(** [NewCustomWriteBatch(startTS, commitTS, ctx)]; the header carries
    nothing the batch operations read. *)
Definition NewCustomWriteBatch (start commit : Z) : customWriteBatch :=
  {| startTS := start; commitTS := commit;
     builder := {| tp := 0; payload := [] |} |}.

(** [wb.setType(tp)]; a failed [y.Assert] ends the process. *)
Definition setType (wb : customWriteBatch) (t : Z)
  : option customWriteBatch :=
  let oldTp := tp (builder wb) in
  if oldTp =? 0
  then Some {| startTS := startTS wb; commitTS := commitTS wb;
               builder := {| tp := t; payload := payload (builder wb) |} |}
  else if t =? oldTp then Some wb else None.

Definition append (wb : customWriteBatch) (a : Appended) : customWriteBatch :=
  {| startTS := startTS wb; commitTS := commitTS wb;
     builder := {| tp := tp (builder wb);
                   payload := payload (builder wb) ++ [a] |} |}.

(** The operations of a custom write batch. *)
Inductive Call : Type :=
| Prewrite (key : bytes) (lock : MvccLock)
| Commit (key : bytes) (lock : option MvccLock)
| Rollback (key : bytes) (deleteLock : bool)
| PessimisticLock (key : bytes) (lock : MvccLock)
| PessimisticRollback (key : bytes).

Definition kind (c : Call) : Kind :=
  match c with
  | Prewrite _ _ => KindPrewrite
  | Commit _ _ => KindCommit
  | Rollback _ _ => KindRollback
  | PessimisticLock _ _ => KindPessimisticLock
  | PessimisticRollback _ => KindPessimisticRollback
  end.

(** One operation: [setType] and then the append of its entry. *)
Definition call (wb : customWriteBatch) (c : Call)
  : option customWriteBatch :=
  match c with
  | Prewrite key lock =>
      wb1 ← setType wb (Type_ KindPrewrite);
      Some (append wb1 (AppendLock key (MarshalBinary lock)))
  | Commit key lock =>
      wb1 ← setType wb (Type_ KindCommit);
      let val := match lock with
                 | Some l => MarshalBinary l
                 | None => []
                 end in
      Some (append wb1 (AppendCommit key val (commitTS wb1)))
  | Rollback key deleteLock =>
      wb1 ← setType wb (Type_ KindRollback);
      Some (append wb1 (AppendRollback key (startTS wb1) deleteLock))
  | PessimisticLock key lock =>
      wb1 ← setType wb (Type_ KindPessimisticLock);
      Some (append wb1 (AppendLock key (MarshalBinary lock)))
  | PessimisticRollback key =>
      wb1 ← setType wb (Type_ KindPessimisticRollback);
      Some (append wb1 (AppendKeyOnly key))
  end.

Fixpoint calls (wb : customWriteBatch) (cs : list Call)
  : option customWriteBatch :=
  match cs with
  | [] => Some wb
  | c :: rest => wb1 ← call wb c; calls wb1 rest
  end.

(** The type constants are not 0, the builder's "no type yet", and differ
    from one another. *)
Hypothesis Type_nonzero : forall k, Type_ k ≠ 0.
Hypothesis Type_inj : forall k1 k2, Type_ k1 = Type_ k2 -> k1 = k2.

(** An operation is [setType] with the type of its kind, and then an
    append that leaves the type alone. *)
Lemma call_setType wb c :
  call wb c = None <-> setType wb (Type_ (kind c)) = None.
Proof.
  unfold call. destruct c; cbn [kind];
    destruct (setType wb _); cbn; split; congruence.
Qed.

Lemma call_kind wb c :
  call wb c = None
  <-> (tp (builder wb) ≠ 0 /\ tp (builder wb) ≠ Type_ (kind c)).
Proof.
  rewrite call_setType. unfold setType.
  destruct (Z.eqb_spec (tp (builder wb)) 0) as [H0 | H0]; cbn.
  - split; [discriminate | intros [? _]; contradiction].
  - destruct (Z.eqb_spec (Type_ (kind c)) (tp (builder wb))) as [He | He]; cbn.
    + split; [discriminate | intros [_ ?]; congruence].
    + split; [intros _; split; congruence | reflexivity].
Qed.

Lemma setType_result wb t wb1 :
  setType wb t = Some wb1 ->
  tp (builder wb1) = t
  /\ payload (builder wb1) = payload (builder wb)
  /\ startTS wb1 = startTS wb /\ commitTS wb1 = commitTS wb.
Proof.
  unfold setType. destruct (Z.eqb_spec (tp (builder wb)) 0).
  - intros Heq. injection Heq as <-. repeat split.
  - destruct (Z.eqb_spec t (tp (builder wb))); [|discriminate].
    intros Heq. injection Heq as <-. repeat split. congruence.
Qed.

Lemma call_result wb c wb' :
  call wb c = Some wb' ->
  tp (builder wb') = Type_ (kind c)
  /\ length (payload (builder wb')) = S (length (payload (builder wb)))
  /\ startTS wb' = startTS wb /\ commitTS wb' = commitTS wb.
Proof.
  unfold call. destruct c; cbn [kind];
    (destruct (setType wb _) as [wb1|] eqn:Hset; cbn; [|discriminate]);
    apply setType_result in Hset as (Ht & Hp & Hs & Hc);
    intros Heq; injection Heq as <-; cbn; rewrite length_app, Hp; cbn;
    repeat split; try lia; assumption.
Qed.

Lemma calls_typed cs : forall wb k,
  tp (builder wb) = Type_ k ->
  (is_Some (calls wb cs) <-> Forall (fun c => kind c = k) cs)
  /\ forall wb', calls wb cs = Some wb' ->
       tp (builder wb') = Type_ k
       /\ length (payload (builder wb'))
          = (length (payload (builder wb)) + length cs)%nat.
Proof.
  induction cs as [|c cs IH]; intros wb k Htp.
  - split; [split; [constructor | eauto]|].
    intros wb' Heq. injection Heq as <-. split; [exact Htp | cbn; lia].
  - cbn [calls].
    destruct (call wb c) as [wb1|] eqn:Hcall; cbn.
    + destruct (call_result _ _ _ Hcall) as (Htp1 & Hlen1 & _).
      assert (Hk : kind c = k).
      { destruct (Z.eq_dec (tp (builder wb)) (Type_ (kind c))) as [He | Hne].
        - apply Type_inj. congruence.
        - assert (Hnone : call wb c = None).
          { apply call_kind. split; [|exact Hne]. rewrite Htp.
            apply Type_nonzero. }
          congruence. }
      subst k. destruct (IH wb1 (kind c) Htp1) as [Hiff Hres]. split.
      * rewrite Hiff. split; [intros Hall; constructor; auto|].
        intros Hall. inversion Hall; assumption.
      * intros wb' Hrun. destruct (Hres wb' Hrun) as [Ht Hl].
        split; [exact Ht|]. rewrite Hl, Hlen1. cbn [length]. lia.
    + split; [|discriminate].
      apply call_kind in Hcall as [_ Hne]. split.
      * intros [? ?]. discriminate.
      * intros Hall. inversion Hall; subst. congruence.
Qed.

(** X20: a custom write batch holds operations of one kind.  On a new
    batch a run of operations goes through exactly when they are all of
    one kind (the first fixes the type, and an operation of another kind
    fails the assertion); the batch then carries the type of that kind and
    one entry per operation. *)
Theorem custom_batch_has_one_kind (start commit : Z) (cs : list Call) :
  (is_Some (calls (NewCustomWriteBatch start commit) cs)
   <-> forall c1 c2, c1 ∈ cs -> c2 ∈ cs -> kind c1 = kind c2)
  /\ forall wb, calls (NewCustomWriteBatch start commit) cs = Some wb ->
       length (payload (builder wb)) = length cs
       /\ forall c, c ∈ cs -> tp (builder wb) = Type_ (kind c).
Proof.
  destruct cs as [|c cs].
  - split.
    + split; [intros _ c1 c2 Hin; inversion Hin | eauto].
    + intros wb Heq. injection Heq as <-. split; [reflexivity|].
      intros c Hin. inversion Hin.
  - cbn [calls].
    destruct (call (NewCustomWriteBatch start commit) c) as [wb1|] eqn:Hcall.
    2:{ apply call_kind in Hcall as [Hne _]. contradiction Hne. reflexivity. }
    cbn. destruct (call_result _ _ _ Hcall) as (Htp1 & Hlen1 & _).
    destruct (calls_typed cs wb1 (kind c) Htp1) as [Hiff Hres]. split.
    + rewrite Hiff. rewrite Forall_forall. split.
      * intros Hall c1 c2 H1 H2.
        apply elem_of_cons in H1 as [-> | H1];
          apply elem_of_cons in H2 as [-> | H2];
          rewrite ?(Hall _ H1), ?(Hall _ H2); reflexivity.
      * intros Hsame c' Hin. apply Hsame; [right; exact Hin | left].
    + intros wb Hrun. destruct (Hres wb Hrun) as [Ht Hl]. split.
      * rewrite Hl, Hlen1. cbn. lia.
      * intros c' Hin. rewrite Ht.
        apply elem_of_cons in Hin as [-> | Hin]; [reflexivity|].
        f_equal. symmetry.
        assert (Hall : Forall (fun c0 => kind c0 = kind c) cs)
          by (apply Hiff; eauto).
        rewrite Forall_forall in Hall. apply Hall, Hin.
Qed.

End CustomWriteBatch.


(** Stand-ins for the type constants, and locks that are their own
    encoding. *)
Definition sample_type (k : Kind) : Z :=
  match k with
  | KindPrewrite => 1
  | KindCommit => 2
  | KindRollback => 3
  | KindPessimisticLock => 4
  | KindPessimisticRollback => 5
  end.

Definition two_prewrites : list (Call bytes) :=
  [ Prewrite bytes (String.list_byte_of_string "a")
      (String.list_byte_of_string "lock-a");
    Prewrite bytes (String.list_byte_of_string "b")
      (String.list_byte_of_string "lock-b") ].

Example custom_batch_samples :
  calls bytes id sample_type (NewCustomWriteBatch 10 20) two_prewrites
  = Some {| startTS := 10; commitTS := 20;
            builder :=
              {| tp := 1;
                 payload :=
                   [ AppendLock (String.list_byte_of_string "a")
                       (String.list_byte_of_string "lock-a");
                     AppendLock (String.list_byte_of_string "b")
                       (String.list_byte_of_string "lock-b") ] |} |}
  /\ calls bytes id sample_type (NewCustomWriteBatch 10 20)
       (two_prewrites ++ [Commit bytes (String.list_byte_of_string "a") None])
     = None
  /\ calls bytes id sample_type (NewCustomWriteBatch 10 20)
       [Commit bytes (String.list_byte_of_string "a") None;
        Rollback bytes (String.list_byte_of_string "a") true]
     = None.
Proof. split_and!; vm_compute; reflexivity. Qed.

Lemma custom_batch_has_one_kind_witness :
  (forall k, sample_type k ≠ 0)
  /\ (forall k1 k2, sample_type k1 = sample_type k2 -> k1 = k2)
  /\ (is_Some (calls bytes id sample_type (NewCustomWriteBatch 10 20)
                 two_prewrites)
      <-> forall c1 c2, c1 ∈ two_prewrites -> c2 ∈ two_prewrites ->
                        kind bytes c1 = kind bytes c2)
  /\ forall wb,
       calls bytes id sample_type (NewCustomWriteBatch 10 20) two_prewrites
       = Some wb ->
       length (payload (builder wb)) = length two_prewrites
       /\ forall c, c ∈ two_prewrites ->
            tp (builder wb) = sample_type (kind bytes c).
Proof.
  assert (Hnonzero : forall k, sample_type k ≠ 0)
    by (intros []; discriminate).
  assert (Hinj : forall k1 k2, sample_type k1 = sample_type k2 -> k1 = k2)
    by (intros [] []; (reflexivity || discriminate)).
  split; [exact Hnonzero|]. split; [exact Hinj|].
  exact (custom_batch_has_one_kind bytes id sample_type Hnonzero Hinj
           10 20 two_prewrites).
Defined.

End raftstore.
